(** * tallyus/api: the v1 handlers (authenticate, update-profile, set-card,
    create-contribution) as continuation-passing tasks over an event-loop
    machine, and the properties of their specification.

    Source: [src/private/internal/politicians.js], the module that starts
    with [var async = require("async")]. *)

From Stdlib Require Import ZArith Floats Ascii.
From stdpp Require Import gmap strings list.

Open Scope Z_scope.

Set Default Proof Using "Type".

(** ** JavaScript values *)

(** A JS number is an IEEE 754 binary64, which is what [float] is. The
    scalar JSON values cover every field the handlers read from a request
    body; nested arrays and objects inside those fields are outside the
    model. *)
Inductive JsValue : Type :=
| JUndefined
| JNull
| JBool (b : bool)
| JNum (x : float)
| JStr (s : string).

Definition str_truthy (s : string) : bool :=
  match s with
  | EmptyString => false
  | String _ _ => true
  end.

(** ToBoolean: [undefined], [null], [false], [0], [-0], [NaN] and [""] are
    falsy. *)
Definition truthy (v : JsValue) : bool :=
  match v with
  | JUndefined | JNull => false
  | JBool b => b
  | JNum x => negb (PrimFloat.is_zero x || PrimFloat.is_nan x)
  | JStr s => str_truthy s
  end.

(** ToNumber, with the conversion of a string left to [string_to_number]
    (the StringToNumber operation of the language). *)
Definition to_number (string_to_number : string → float) (v : JsValue) : float :=
  match v with
  | JUndefined => PrimFloat.nan
  | JNull => PrimFloat.zero
  | JBool b => if b then PrimFloat.one else PrimFloat.zero
  | JNum x => x
  | JStr s => string_to_number s
  end.

(** [Array.prototype.indexOf] on an array of strings: strict equality, the
    first index or [-1]. *)
Fixpoint indexOf_from (i : Z) (l : list string) (x : string) : Z :=
  match l with
  | [] => -1
  | y :: l' => if String.eqb y x then i else indexOf_from (i + 1) l' x
  end.

Definition indexOf (l : list string) (x : string) : Z := indexOf_from 0 l x.

(** [String.prototype.slice(n)] for a non-negative [n]. *)
Fixpoint slice (n : nat) (s : string) : string :=
  match n, s with
  | O, _ => s
  | S _, EmptyString => EmptyString
  | S n', String _ s' => slice n' s'
  end.

(** [Buffer.prototype.toString('hex')]. *)
Definition hex_digit (n : N) : Ascii.ascii :=
  match n with
  | 0%N => "0" | 1%N => "1" | 2%N => "2" | 3%N => "3"
  | 4%N => "4" | 5%N => "5" | 6%N => "6" | 7%N => "7"
  | 8%N => "8" | 9%N => "9" | 10%N => "a" | 11%N => "b"
  | 12%N => "c" | 13%N => "d" | 14%N => "e" | _ => "f"
  end%char.

Fixpoint to_hex (bytes : list Byte.byte) : string :=
  match bytes with
  | [] => EmptyString
  | b :: bs =>
      let n := Byte.to_N b in
      String (hex_digit (N.div n 16)) (String (hex_digit (N.modulo n 16)) (to_hex bs))
  end.

(** ** Domain records *)

Record User := {
  user_iden : string;
  facebookId : string;
  name : JsValue;
  email : JsValue;
  occupation : JsValue;
  employer : JsValue;
  streetAddress : JsValue;
  cityStateZip : JsValue;
  user_created : float;
  user_modified : float
}.

Record FacebookInfo := {
  info_id : string;
  info_name : JsValue;
  info_email : JsValue
}.

(** Modelled from the spec: the [entities] module is missing; an Event carries
    its identifier, the politician it refers to, and the lists of PAC
    identifiers it supports and opposes, and a PAC carries its identifier. *)
Record Event := {
  event_iden : string;
  politician : string;
  supportPacs : list string;
  opposePacs : list string
}.

Record Pac := { pac_iden : string }.

Record Contribution := {
  contribution_iden : string;
  created : float;
  modified : float;
  chargeId : string;
  amount : JsValue;
  event : string;
  pac : string;
  support : bool
}.

Record ChargeMetadata := {
  meta_eventIden : string;
  meta_pacIden : string;
  meta_support : bool
}.

(** ** The key/value store *)

(** Modelled from the spec: the [redis-keys] module is missing; the keys are
    named as the handlers name them, and two different names (or the same
    name at two different arguments) are different keys. *)
Inductive RedisKey : Type :=
| users
| userIdenToAccessToken
| accessTokenToUserIden
| facebookUserIdToUserIden
| userIdenToStripeCustomerId
| contributions
| userReverseChronologicalContributions (userIden : string)
| eventContributionTotals (eventIden : string)
| politicianContributionTotals (politicianIden : string)
| contributionsSum
| userContributionsSum (userIden : string).

Definition key_code (k : RedisKey) : nat * string :=
  match k with
  | users => (0%nat, "")
  | userIdenToAccessToken => (1%nat, "")
  | accessTokenToUserIden => (2%nat, "")
  | facebookUserIdToUserIden => (3%nat, "")
  | userIdenToStripeCustomerId => (4%nat, "")
  | contributions => (5%nat, "")
  | userReverseChronologicalContributions u => (6%nat, u)
  | eventContributionTotals e => (7%nat, e)
  | politicianContributionTotals p => (8%nat, p)
  | contributionsSum => (9%nat, "")
  | userContributionsSum u => (10%nat, u)
  end.

Definition key_of_code (c : nat * string) : RedisKey :=
  match c with
  | (0%nat, _) => users
  | (1%nat, _) => userIdenToAccessToken
  | (2%nat, _) => accessTokenToUserIden
  | (3%nat, _) => facebookUserIdToUserIden
  | (4%nat, _) => userIdenToStripeCustomerId
  | (5%nat, _) => contributions
  | (6%nat, u) => userReverseChronologicalContributions u
  | (7%nat, e) => eventContributionTotals e
  | (8%nat, p) => politicianContributionTotals p
  | (9%nat, _) => contributionsSum
  | (_, u) => userContributionsSum u
  end.

#[global] Instance RedisKey_eq_dec : EqDecision RedisKey.
Proof. solve_decision. Defined.

#[global] Instance RedisKey_countable : Countable RedisKey :=
  inj_countable' key_code key_of_code ltac:(by intros []).

(** Hash fields that hold text, lists, hash fields that hold counters, and
    plain counters. Every key of the schema is used at one type only. *)
Record Store := {
  hashes : gmap (RedisKey * string) string;
  lists : gmap RedisKey (list string);
  hash_counters : gmap (RedisKey * string) Z;
  counters : gmap RedisKey Z
}.

Definition empty_store : Store :=
  {| hashes := ∅; lists := ∅; hash_counters := ∅; counters := ∅ |}.

(** ** Commands, replies and the store's semantics *)

Definition Error : Type := string.

Inductive RedisCmd : Type :=
| HGet (key : RedisKey) (field : string)
| HSet (key : RedisKey) (field value : string)
| LPush (key : RedisKey) (value : string)
| HIncrBy (key : RedisKey) (field : string) (increment : JsValue)
| IncrBy (key : RedisKey) (increment : JsValue).

Inductive GraphUrl : Type :=
| DebugToken (input_token : JsValue)
| Me (access_token : JsValue).

(** Modelled from the spec: [GetEvent] and [GetPac] are the lookups of the
    missing [entities] module (getEvent(id) → Event | not-found, getPac(id) →
    Pac | not-found); the others are the calls made on the [request] and
    [stripe] clients. *)
Inductive ServiceCall : Type :=
| RequestGet (url : GraphUrl)
| GetEvent (iden : JsValue)
| GetPac (iden : JsValue)
| CustomersUpdate (customer : string) (source : JsValue)
| CustomersCreate (source : JsValue) (userIden : string)
| ChargesCreate (charge_amount : float) (currency : string) (customer : string)
    (metadata : ChargeMetadata).

Inductive Cmd : Type :=
| Redis (c : RedisCmd)
| Service (c : ServiceCall).

Coercion Redis : RedisCmd >-> Cmd.
Coercion Service : ServiceCall >-> Cmd.

(** The second argument of a node-style callback. For the two Graph API
    requests it is the response, with what the callback reads of its body:
    [PDebugResponse] when [JSON.parse(body).data.is_valid] can be read,
    [PMeResponse] when the body of /me parses to an identity object, which
    carries its [id]; [PFalsyBody] when the body of /me parses to a falsy
    value ([null], [false], [0], the empty text); [PBadBody] when the body is
    not JSON or, for debug_token, when the parsed body has no [data] to read
    [is_valid] from, so that reading it throws. *)
Inductive Payload : Type :=
| PUndefined
| PNull
| PStr (s : string)
| PInt (n : Z)
| PDebugResponse (statusCode : Z) (is_valid : JsValue)
| PMeResponse (statusCode : Z) (info : FacebookInfo)
| PEvent (e : Event)
| PPac (p : Pac)
| PCustomer (id : string)
| PCharge (id : string)
| PBadBody (statusCode : Z)
| PFalsyBody (statusCode : Z).

Definition Args : Type := option Error * Payload.

Definition payload_truthy (p : Payload) : bool :=
  match p with
  | PUndefined | PNull => false
  | PStr s => str_truthy s
  | PInt n => negb (n =? 0)
  | PDebugResponse _ _ | PMeResponse _ _
  | PEvent _ | PPac _ | PCustomer _ | PCharge _
  | PBadBody _ | PFalsyBody _ => true
  end.

(** A reply of [hget] is a string or [null]; [as_string] reads the string. *)
Definition as_string (p : Payload) : string :=
  match p with
  | PStr s => s
  | _ => ""
  end.

(** [Number::toString] of a double [v] of magnitude at least 2^53: the
    decimal with the fewest significant digits that converts back to the
    double, the closest to the double when several have as few, the even one
    when two are as close. [lo2] and [hi2] are twice the bounds of the
    interval of the reals that round to the double, [closed] says whether
    the bounds themselves do (the mantissa is even); the decimals tried are
    the multiples of [10 ^ j] next to [v], for [j] from high to low. *)
Fixpoint shortest_from (j : nat) (v lo2 hi2 : Z) (closed : bool) : Z :=
  let inside (c : Z) :=
    if closed then (lo2 <=? 2 * c) && (2 * c <=? hi2)
    else (lo2 <? 2 * c) && (2 * c <? hi2) in
  let p := 10 ^ Z.of_nat j in
  let c1 := v / p * p in
  let c2 := c1 + p in
  let next := match j with O => v | S j' => shortest_from j' v lo2 hi2 closed end in
  match inside c1, inside c2 with
  | true, true =>
      if v - c1 <? c2 - v then c1
      else if c2 - v <? v - c1 then c2
      else if Z.even (c1 / p) then c1 else c2
  | true, false => c1
  | false, true => c2
  | false, false => next
  end.

(** The double is [m * 2 ^ e] with a mantissa [m] of 53 bits and [0 < e]:
    the next double is [2 ^ e] above, the previous one as much below, or half
    as much when [m] is the least mantissa. *)
Definition shortest_decimal (m e : Z) : Z :=
  let v := m * 2 ^ e in
  let hi2 := 2 * v + 2 ^ e in
  let lo2 := 2 * v - (if m =? 2 ^ 52 then 2 ^ (e - 1) else 2 ^ e) in
  shortest_from 21 v lo2 hi2 (Z.even m).

(** The integer the text [String(x)] spells, when it spells one. The client
    sends an increment argument as that text: an integer below 2^53 is
    written out in full, a greater one with its shortest digits followed by
    zeros (2^60 is sent as 1152921504606847000), one of 10^21 or more with an
    exponent, and a fraction with a decimal point. *)
Definition float_integer (x : float) : option Z :=
  match Prim2SF x with
  | S754_zero _ => Some 0
  | S754_finite s m e =>
      let sign (z : Z) := if s then - z else z in
      if 0 <=? e then
        let v := Z.pos m * 2 ^ e in
        if v <? 2 ^ 53 then Some (sign v)
        else
          let c := shortest_decimal (Z.pos m) e in
          if c <? 10 ^ 21 then Some (sign c) else None
      else if Z.pos m mod 2 ^ (- e) =? 0 then Some (sign (Z.pos m / 2 ^ (- e)))
      else None
  | _ => None
  end.

Definition digit_value (c : Ascii.ascii) : option Z :=
  let n := Z.of_N (N_of_ascii c) in
  if (48 <=? n) && (n <=? 57) then Some (n - 48) else None.

Fixpoint digits_value (acc : Z) (s : string) : option Z :=
  match s with
  | EmptyString => Some acc
  | String c s' =>
      match digit_value c with
      | Some d => digits_value (10 * acc + d) s'
      | None => None
      end
  end.

Definition positive_decimal (s : string) : option Z :=
  match s with
  | EmptyString => None
  | String c _ =>
      match digit_value c with
      | Some d => if d =? 0 then None else digits_value 0 s
      | None => None
      end
  end.

Definition string2ll (s : string) : option Z :=
  match s with
  | EmptyString => None
  | String c s' =>
      if Ascii.eqb c "0" && String.eqb s' "" then Some 0
      else if Ascii.eqb c "-" then Z.opp <$> positive_decimal s'
      else positive_decimal s
  end.

Definition in_int64 (z : Z) : bool := (- 2 ^ 63 <=? z) && (z <? 2 ^ 63).

(** The integer the store reads from an increment argument: the text the
    client sends must spell a 64-bit signed decimal. *)
Definition redis_integer (v : JsValue) : option Z :=
  let z :=
    match v with
    | JNum x => float_integer x
    | JStr s => string2ll s
    | JUndefined | JNull | JBool _ => None
    end in
  match z with
  | Some n => if in_int64 n then Some n else None
  | None => None
  end.

Definition not_an_integer : Error := "ERR value is not an integer or out of range".
Definition would_overflow : Error := "ERR increment or decrement would overflow".

Definition set_hashes (s : Store) (h : gmap (RedisKey * string) string) : Store :=
  {| hashes := h; lists := lists s; hash_counters := hash_counters s; counters := counters s |}.

Definition set_lists (s : Store) (l : gmap RedisKey (list string)) : Store :=
  {| hashes := hashes s; lists := l; hash_counters := hash_counters s; counters := counters s |}.

Definition set_hash_counters (s : Store) (h : gmap (RedisKey * string) Z) : Store :=
  {| hashes := hashes s; lists := lists s; hash_counters := h; counters := counters s |}.

Definition set_counters (s : Store) (c : gmap RedisKey Z) : Store :=
  {| hashes := hashes s; lists := lists s; hash_counters := hash_counters s; counters := c |}.

(** The server's execution of one command: the store afterwards and its
    reply, an error reply or a value. *)
Definition redis_exec (c : RedisCmd) (s : Store) : Store * (Error + Payload) :=
  match c with
  | HGet k f =>
      (s, inr (match hashes s !! (k, f) with Some v => PStr v | None => PNull end))
  | HSet k f v =>
      (set_hashes s (<[(k, f) := v]> (hashes s)),
       inr (PInt (match hashes s !! (k, f) with Some _ => 0 | None => 1 end)))
  | LPush k v =>
      let l := v :: default [] (lists s !! k) in
      (set_lists s (<[k := l]> (lists s)), inr (PInt (Z.of_nat (length l))))
  | HIncrBy k f a =>
      match redis_integer a with
      | None => (s, inl not_an_integer)
      | Some n =>
          let total := default 0 (hash_counters s !! (k, f)) + n in
          if in_int64 total
          then (set_hash_counters s (<[(k, f) := total]> (hash_counters s)), inr (PInt total))
          else (s, inl would_overflow)
      end
  | IncrBy k a =>
      match redis_integer a with
      | None => (s, inl not_an_integer)
      | Some n =>
          let total := default 0 (counters s !! k) + n in
          if in_int64 total
          then (set_counters s (<[k := total]> (counters s)), inr (PInt total))
          else (s, inl would_overflow)
      end
  end.

(** The shape of a successful reply of each service. *)
Definition returns (c : ServiceCall) (v : Payload) : bool :=
  match c, v with
  | RequestGet (DebugToken _), (PDebugResponse _ _ | PBadBody _) => true
  | RequestGet (Me _), (PMeResponse _ _ | PFalsyBody _ | PBadBody _) => true
  | GetEvent _, (PEvent _ | PNull) => true
  | GetPac _, (PPac _ | PNull) => true
  | CustomersUpdate _ _, PCustomer _ => true
  | CustomersCreate _ _, PCustomer _ => true
  | ChargesCreate _ _ _ _, PCharge _ => true
  | _, _ => false
  end.

(** How an in-flight call ends: it fails (the callback gets the error and no
    value), the store executes it, or the service returns a value. *)
Inductive Outcome : Type :=
| Fails (e : Error)
| Completes
| Returns (v : Payload).

Definition answer (s : Store) (c : Cmd) (o : Outcome) : option (Args * Store) :=
  match o, c with
  | Fails e, _ => Some ((Some e, PUndefined), s)
  | Completes, Redis r =>
      match redis_exec r s with
      | (s', inl e) => Some ((Some e, PUndefined), s')
      | (s', inr v) => Some ((None, v), s')
      end
  | Returns v, Service sc => if returns sc v then Some ((None, v), s) else None
  | _, _ => None
  end.

(** ** Tasks: what a handler or a callback does *)

Inductive Response : Type :=
| SendStatus (code : Z)
| JsonAccessToken (accessToken : string).

Inductive LogEntry : Type :=
| ErrorObject (e : Error)
| MissingEntry (userIden : string) (key : RedisKey).

(** [Do c k] starts the asynchronous call [c] with callback [k] and returns;
    [Parallel cs final] is [async.parallel] over tasks that each make one call
    and hand its [(err, reply)] to their callback unchanged. *)
Inductive Task : Type :=
| Idle
| Res (r : Response) (next : Task)
| ConsoleError (m : LogEntry) (next : Task)
| TypeError
| Do (c : Cmd) (k : Args → Task)
| Parallel (cs : list Cmd) (final : option Error → list Payload → Task).

(** [async.series] over tasks written in continuation-passing style: each
    task receives its [callback]; an error stops the series. *)
Fixpoint series (tasks : list ((option Error → Payload → Task) → Task))
    (final : option Error → list Payload → Task) : Task :=
  match tasks with
  | [] => final None []
  | task :: rest =>
      task (λ err result,
        match err with
        | Some e => final (Some e) [result]
        | None => series rest (λ err' results, final err' (result :: results))
        end)
  end.

(** ** The event loop *)

Inductive Event_ : Type :=
| Issued (c : Cmd)
| Replied (c : Cmd) (args : Args)
| Sent (r : Response)
| Logged (m : LogEntry)
| Thrown.

Definition Slot : Type := Cmd * option Payload.

Inductive Ctl : Type :=
| Stopped
| Crashed
| Waiting (c : Cmd) (k : Args → Task)
| Joining (slots : list Slot) (final : option Error → list Payload → Task).

(** Runs the synchronous part of a task: the events it produces, and what it
    leaves pending. An uncaught exception ends the process. *)
Fixpoint exec (t : Task) : list Event_ * Ctl :=
  match t with
  | Idle => ([], Stopped)
  | Res r next => let '(evs, c) := exec next in (Sent r :: evs, c)
  | ConsoleError m next => let '(evs, c) := exec next in (Logged m :: evs, c)
  | TypeError => ([Thrown], Crashed)
  | Do c k => ([Issued c], Waiting c k)
  | Parallel cs final =>
      match cs with
      | [] => exec (final None [])
      | _ => (Issued <$> cs, Joining ((λ c, (c, None)) <$> cs) final)
      end
  end.

Record Machine := {
  ctl : Ctl;
  store : Store;
  trace : list Event_
}.

Definition resume (t : Task) (s : Store) (tr : list Event_) : Machine :=
  let '(evs, c) := exec t in {| ctl := c; store := s; trace := tr ++ evs |}.

Definition boot (t : Task) (s : Store) : Machine := resume t s [].

Definition results (slots : list Slot) : list Payload :=
  (λ sl : Slot, default PUndefined sl.2) <$> slots.

Definition filled (slots : list Slot) : bool :=
  forallb (λ sl : Slot, match sl.2 with Some _ => true | None => false end) slots.

(** One turn of the event loop: the [i]-th pending call ends with outcome [o]
    and its callback runs. During [async.parallel] the first error calls the
    final callback at once, and the callbacks of the calls still in flight do
    nothing any more. *)
Definition step (m : Machine) (ch : nat * Outcome) : option Machine :=
  let '(i, o) := ch in
  match ctl m with
  | Waiting c k =>
      match i, answer (store m) c o with
      | O, Some (args, s') => Some (resume (k args) s' (trace m ++ [Replied c args]))
      | _, _ => None
      end
  | Joining slots final =>
      match slots !! i with
      | Some (c, None) =>
          match answer (store m) c o with
          | Some ((Some e, v), s') =>
              Some (resume (final (Some e) (results slots)) s'
                      (trace m ++ [Replied c (Some e, v)]))
          | Some ((None, v), s') =>
              let slots' := <[i := (c, Some v)]> slots in
              let tr := trace m ++ [Replied c (None, v)] in
              if filled slots'
              then Some (resume (final None (results slots')) s' tr)
              else Some {| ctl := Joining slots' final; store := s'; trace := tr |}
          | None => None
          end
      | _ => None
      end
  | Stopped | Crashed => None
  end.

Fixpoint run (m : Machine) (chs : list (nat * Outcome)) : option Machine :=
  match chs with
  | [] => Some m
  | ch :: chs' =>
      match step m ch with
      | Some m' => run m' chs'
      | None => None
      end
  end.

(** ** The handlers *)

Record AuthenticateBody := { facebookToken : JsValue }.

Record ProfileBody := {
  body_name : JsValue;
  body_occupation : JsValue;
  body_employer : JsValue;
  body_streetAddress : JsValue;
  body_cityStateZip : JsValue
}.

Record CardBody := { cardToken : JsValue }.

Record ContributionBody := {
  eventIden : JsValue;
  pacIden : JsValue;
  body_amount : JsValue
}.

(** [generateIden], from the two renderings [Math.random().toString(36)]. *)
Definition generateIden (random1 random2 : string) : string :=
  String.append (slice 2 random1) (slice 2 random2).

(** [customer.id] and [charge.id]: reading a property of [undefined] or
    [null] throws; a customer or a charge has an identifier. *)
Definition prop_id (p : Payload) : option string :=
  match p with
  | PCustomer id | PCharge id => Some id
  | _ => None
  end.

(** [getFacebookUserInfo]. The body of a response is parsed only when its
    status is 200; a body that cannot be read then throws, as does reading
    [res.statusCode] when the request failed and there is no response. *)
Definition getFacebookUserInfo (facebookToken : JsValue)
    (callback : bool → option FacebookInfo → Task) : Task :=
  Do (RequestGet (DebugToken facebookToken)) (λ '(err, res),
    match res with
    | PDebugResponse statusCode is_valid =>
        if (statusCode =? 200) && truthy is_valid then
          Do (RequestGet (Me facebookToken)) (λ '(err, res),
            match res with
            | PMeResponse statusCode info =>
                if statusCode =? 200 then callback true (Some info)
                else callback false None
            | PFalsyBody statusCode =>
                if statusCode =? 200 then callback true None
                else callback false None
            | PBadBody statusCode =>
                if statusCode =? 200 then TypeError
                else callback false None
            | _ => TypeError
            end)
        else callback false None
    | PBadBody statusCode =>
        if statusCode =? 200 then TypeError
        else callback false None
    | _ => TypeError
    end).

Definition with_profile (u : User) (name' occupation' employer' streetAddress'
    cityStateZip' : JsValue) (modified' : float) : User :=
  {| user_iden := user_iden u; facebookId := facebookId u;
     name := name'; email := email u;
     occupation := occupation'; employer := employer';
     streetAddress := streetAddress'; cityStateZip := cityStateZip';
     user_created := user_created u; user_modified := modified' |}.

(** The assignments [update-profile] makes to [req.user]. *)
Definition patch_user (u : User) (body : ProfileBody) (now : float) : User :=
  with_profile u
    (if truthy (body_name body) then body_name body else name u)
    (if truthy (body_occupation body) then body_occupation body else occupation u)
    (if truthy (body_employer body) then body_employer body else employer u)
    (if truthy (body_streetAddress body) then body_streetAddress body else streetAddress u)
    (if truthy (body_cityStateZip body) then body_cityStateZip body else cityStateZip u)
    now.

(** A field of a JSON body that holds text when it is present. *)
Definition text_field (o : option string) : JsValue :=
  match o with Some s => JStr s | None => JUndefined end.

Section Handlers.

(** The language's StringToNumber and [JSON.stringify] at the two objects
    the handlers store. *)
Variable string_to_number : string → float.
Variable JSON_stringify_user : User → string.
Variable JSON_stringify_contribution : Contribution → string.

Definition fail_with (code : Z) (e : Error) : Task :=
  Res (SendStatus code) (ConsoleError (ErrorObject e) Idle).

(** The record [user] that authenticate builds for a new identity. *)
Definition new_user (info : FacebookInfo) (random1 random2 : string) (date_now : float)
    : User :=
  let now := PrimFloat.div date_now 1000 in
  {| user_iden := generateIden random1 random2;
     facebookId := info_id info;
     name := info_name info;
     email := info_email info;
     occupation := JUndefined; employer := JUndefined;
     streetAddress := JUndefined; cityStateZip := JUndefined;
     user_created := now; user_modified := now |}.

(** A task of authenticate's series: it hands [(err, reply)] to its
    callback. *)
Definition forwarded_write (c : RedisCmd) : (option Error → Payload → Task) → Task :=
  λ callback, Do c (λ '(err, reply), callback err reply).

(** POST /v1/authenticate. [random1], [random2] and [randomBytes] are what
    [Math.random().toString(36)] (twice) and [crypto.randomBytes(64)] return,
    [date_now] what [Date.now()] returns. *)
Definition authenticate (body : AuthenticateBody) (random1 random2 : string)
    (randomBytes : list Byte.byte) (date_now : float) : Task :=
  getFacebookUserInfo (facebookToken body) (λ valid info,
    match valid, info with
    | true, Some info =>
        Do (HGet facebookUserIdToUserIden (info_id info)) (λ '(err, reply),
          match err with
          | Some e => fail_with 500 e
          | None =>
              if payload_truthy reply then
                let userIden := as_string reply in
                Do (HGet userIdenToAccessToken userIden) (λ '(err, reply),
                  match err with
                  | Some e => fail_with 500 e
                  | None =>
                      if payload_truthy reply
                      then Res (JsonAccessToken (as_string reply)) Idle
                      else Res (SendStatus 500)
                             (ConsoleError (MissingEntry userIden userIdenToAccessToken) Idle)
                  end)
              else
                let user := new_user info random1 random2 date_now in
                let accessToken := to_hex randomBytes in
                series
                  [ forwarded_write
                      (HSet users (user_iden user) (JSON_stringify_user user));
                    forwarded_write
                      (HSet userIdenToAccessToken (user_iden user) accessToken);
                    forwarded_write
                      (HSet accessTokenToUserIden accessToken (user_iden user));
                    (* This must come last (order matters in case something fails) *)
                    forwarded_write
                      (HSet facebookUserIdToUserIden (info_id info) (user_iden user)) ]
                  (λ err results,
                    match err with
                    | Some e => fail_with 500 e
                    | None => Res (JsonAccessToken accessToken) Idle
                    end)
          end)
    | _, _ => Res (SendStatus 400) Idle
    end).

(** POST /v1/update-profile. *)
Definition update_profile (req_user : User) (body : ProfileBody) (date_now : float) : Task :=
  let user := patch_user req_user body (PrimFloat.div date_now 1000) in
  Do (HSet users (user_iden user) (JSON_stringify_user user)) (λ '(err, reply),
    match err with
    | Some e => fail_with 500 e
    | None => Res (SendStatus 200) Idle
    end).

(** POST /v1/set-card. *)
Definition set_card (req_user : User) (body : CardBody) : Task :=
  if negb (truthy (cardToken body)) then Res (SendStatus 400) Idle
  else
    Do (HGet userIdenToStripeCustomerId (user_iden req_user)) (λ '(err, reply),
      match err with
      | Some e => fail_with 500 e
      | None =>
          if payload_truthy reply then
            Do (CustomersUpdate (as_string reply) (cardToken body)) (λ '(err, customer),
              match err with
              | Some e => fail_with 400 e
              | None => Res (SendStatus 200) Idle
              end)
          else
            Do (CustomersCreate (cardToken body) (user_iden req_user)) (λ '(err, customer),
              match prop_id customer with
              | None => TypeError
              | Some customer_id =>
                  Do (HSet userIdenToStripeCustomerId (user_iden req_user) customer_id)
                    (λ '(err, reply),
                      match err with
                      | Some e => fail_with 400 e
                      | None => Res (SendStatus 200) Idle
                      end)
              end)
      end).

Definition support_key (support : bool) : string :=
  if support then "support" else "oppose".

(** A bookkeeping task of create-contribution: it logs an error and calls
    [callback()] with no argument either way. *)
Definition logged_write (c : RedisCmd) : (option Error → Payload → Task) → Task :=
  λ callback,
    Do c (λ '(err, reply),
      match err with
      | Some e => ConsoleError (ErrorObject e) (callback None PUndefined)
      | None => callback None PUndefined
      end).

(** The record [contribution] the charge callback builds. *)
Definition new_contribution (body : ContributionBody) (event : Event) (pac : Pac)
    (support : bool) (charge_id : string) (random1 random2 : string)
    (date_now : float) : Contribution :=
  let now := PrimFloat.div date_now 1000 in
  {| contribution_iden := generateIden random1 random2;
     created := now; modified := now;
     chargeId := charge_id;
     amount := body_amount body;
     event := event_iden event;
     pac := pac_iden pac;
     support := support |}.

(** The callback of [stripe.charges.create] in create-contribution. *)
Definition charge_callback (req_user : User) (body : ContributionBody)
    (event : Event) (pac : Pac) (support : bool)
    (random1 random2 : string) (date_now : float) : Args → Task :=
  λ '(err, charge),
    match err with
    | Some e => ConsoleError (ErrorObject e) (Res (SendStatus 400) Idle)
    | None =>
        match prop_id charge with
        | None => TypeError
        | Some charge_id =>
            let contribution :=
              new_contribution body event pac support charge_id random1 random2 date_now in
            series
              [ logged_write
                  (HSet contributions (contribution_iden contribution)
                     (JSON_stringify_contribution contribution));
                logged_write
                  (LPush (userReverseChronologicalContributions (user_iden req_user))
                     (contribution_iden contribution));
                logged_write
                  (HIncrBy (eventContributionTotals (event_iden event))
                     (support_key support) (amount contribution));
                logged_write
                  (HIncrBy (politicianContributionTotals (politician event))
                     (support_key support) (amount contribution));
                logged_write (IncrBy contributionsSum (amount contribution));
                logged_write
                  (IncrBy (userContributionsSum (user_iden req_user)) (amount contribution)) ]
              (λ err results, Res (SendStatus 200) Idle)
        end
    end.

(** The variable [support] of create-contribution: [true] when the PAC is in
    the event's support list, else [false] when it is in the oppose list, and
    no value when the handler answers 400 instead. *)
Definition support_of (event : Event) (pac : Pac) : option bool :=
  if negb (indexOf (supportPacs event) (pac_iden pac) =? -1) then Some true
  else if negb (indexOf (opposePacs event) (pac_iden pac) =? -1) then Some false
  else None.

(** The final callback of [async.parallel] in create-contribution. *)
Definition resolved_callback (req_user : User) (body : ContributionBody)
    (random1 random2 : string) (date_now : float)
    : option Error → list Payload → Task :=
  λ err results,
    match err with
    | Some e => fail_with 500 e
    | None =>
        let customerId := nth 0 results PUndefined in
        if negb (payload_truthy customerId) then Res (SendStatus 400) Idle
        else
          let event := nth 1 results PUndefined in
          if negb (payload_truthy event) then Res (SendStatus 400) Idle
          else
            let pac := nth 2 results PUndefined in
            if negb (payload_truthy pac) then Res (SendStatus 400) Idle
            else
              match event, pac with
              | PEvent event, PPac pac =>
                  match support_of event pac with
                  | Some support =>
                      Do (ChargesCreate
                            (PrimFloat.mul (to_number string_to_number (body_amount body)) 100)
                            "usd" (as_string customerId)
                            {| meta_eventIden := event_iden event;
                               meta_pacIden := pac_iden pac;
                               meta_support := support |})
                         (charge_callback req_user body event pac support
                            random1 random2 date_now)
                  | None => Res (SendStatus 400) Idle
                  end
              | _, _ => TypeError
              end
    end.

Definition missing_field (body : ContributionBody) : bool :=
  negb (truthy (eventIden body)) || negb (truthy (pacIden body))
  || negb (truthy (body_amount body)).

(** POST /v1/create-contribution. *)
Definition create_contribution (req_user : User) (body : ContributionBody)
    (random1 random2 : string) (date_now : float) : Task :=
  if missing_field body then Res (SendStatus 400) Idle
  else
    Parallel
      [ Redis (HGet userIdenToStripeCustomerId (user_iden req_user));
        Service (GetEvent (eventIden body));
        Service (GetPac (pacIden body)) ]
      (resolved_callback req_user body random1 random2 date_now).

End Handlers.

(** ** Observations on runs *)

Inductive Status : Type := Running | Finished | Aborted.

Definition status (c : Ctl) : Status :=
  match c with
  | Stopped => Finished
  | Crashed => Aborted
  | Waiting _ _ | Joining _ _ => Running
  end.

Definition responses (tr : list Event_) : list Response :=
  omap (λ ev, match ev with Sent r => Some r | _ => None end) tr.

Definition issued (tr : list Event_) : list Cmd :=
  omap (λ ev, match ev with Issued c => Some c | _ => None end) tr.

Definition logged (tr : list Event_) : list LogEntry :=
  omap (λ ev, match ev with Logged m => Some m | _ => None end) tr.

Definition replies (tr : list Event_) : list (Cmd * Args) :=
  omap (λ ev, match ev with Replied c args => Some (c, args) | _ => None end) tr.

Definition is_write (c : Cmd) : bool :=
  match c with
  | Redis (HGet _ _) => false
  | Redis _ => true
  | Service _ => false
  end.

Definition is_charge (c : Cmd) : bool :=
  match c with
  | Service (ChargesCreate _ _ _ _) => true
  | _ => false
  end.

Definition is_lookup (c : Cmd) : bool := negb (is_charge c || is_write c).

Definition writes_issued (tr : list Event_) : list Cmd := filter is_write (issued tr).

Definition charges_issued (tr : list Event_) : list Cmd := filter is_charge (issued tr).

(** The writes answered so far, in the order of their answers. *)
Definition writes_answered (tr : list Event_) : list Cmd :=
  filter is_write (fst <$> replies tr).

(** The state a run ends in, and whether every answer of the run applied. *)
Definition after (t : Task) (s : Store) (chs : list (nat * Outcome)) : Machine :=
  default (boot t s) (run (boot t s) chs).

Definition completes (t : Task) (s : Store) (chs : list (nat * Outcome)) : bool :=
  match run (boot t s) chs with Some _ => true | None => false end.

(** An outcome a store command can have. *)
Definition store_outcome (o : Outcome) : bool :=
  match o with Returns _ => false | Fails _ | Completes => true end.

(** The gateway has answered a charge with a charge object, or with an
    error. *)
Definition charge_accepted (tr : list Event_) : Prop :=
  ∃ c v, is_charge c = true ∧ (c, (None, v)) ∈ replies tr.

Definition charge_refused (tr : list Event_) : Prop :=
  ∃ c e v, is_charge c = true ∧ (c, (Some e, v)) ∈ replies tr.

(** A write that carries an amount carries [a]: the stored contribution
    record in its [amount] field, an increment as its argument. *)
Definition records_amount (JSON_stringify_contribution : Contribution → string)
    (a : JsValue) (c : Cmd) : Prop :=
  match c with
  | Redis (HSet contributions _ v) =>
      ∃ ct, v = JSON_stringify_contribution ct ∧ amount ct = a
  | Redis (HIncrBy _ _ x) | Redis (IncrBy _ x) => x = a
  | _ => True
  end.

Definition nowhere : Event :=
  {| event_iden := ""; politician := ""; supportPacs := []; opposePacs := [] |}.

(** The errors the answers so far carried, as log entries. *)
Definition errors_answered (tr : list Event_) : list LogEntry :=
  omap (λ r : Cmd * Args, ErrorObject <$> r.2.1) (replies tr).

(** The identity provider has confirmed the token and named the identity
    [id]. *)
Definition identified_as (tr : list Event_) (id : string) : Prop :=
  ∃ token info,
    (Service (RequestGet (Me token)), (None, PMeResponse 200 info)) ∈ replies tr ∧
    info_id info = id.

(** No store command has been answered with an error. *)
Definition no_storage_error (tr : list Event_) : Prop :=
  ∀ c e v, (Redis c, (Some e, v)) ∉ replies tr.

(** The store maps the external identity [id] to a user, and that user to
    the bearer token [token]. *)
Definition Registered (s : Store) (id token : string) : Prop :=
  ∃ iden,
    hashes s !! (facebookUserIdToUserIden, id) = Some iden ∧ str_truthy iden = true ∧
    hashes s !! (userIdenToAccessToken, iden) = Some token ∧ str_truthy token = true.

(** [Always Φ m]: every state the machine can reach from [m], whatever the
    pending calls are answered and in whatever order, satisfies [Φ]. *)
Definition Always (Φ : Status → Store → list Event_ → Prop) (m : Machine) : Prop :=
  ∀ chs m', run m chs = Some m' → Φ (status (ctl m')) (store m') (trace m').

Definition pending (cs : list Cmd) : list Slot := (λ c, (c, None)) <$> cs.

(** The successful answers a parallel group has received so far. *)
Inductive Joined (slots0 : list Slot) (s0 : Store)
    : list Event_ → list Slot → Store → Prop :=
| Joined_nil : Joined slots0 s0 [] slots0 s0
| Joined_fill evs slots s i c o v s' :
    Joined slots0 s0 evs slots s →
    slots !! i = Some (c, None) →
    answer s c o = Some ((None, v), s') →
    Joined slots0 s0 (evs ++ [Replied c (None, v)]) (<[i := (c, Some v)]> slots) s'.

(** The answers recorded in the slots of a parallel group. *)
Definition answered (slots : list Slot) : list (Cmd * Args) :=
  omap (λ sl : Slot, (λ v, (sl.1, (None, v))) <$> sl.2) slots.

(** The events of a series of [logged_write] tasks that have all been
    answered. *)
Inductive Wrote : Store → list RedisCmd → list Event_ → Store → Prop :=
| Wrote_nil s : Wrote s [] [] s
| Wrote_failed s c cs o e v s1 evs s2 :
    answer s (Redis c) o = Some ((Some e, v), s1) →
    Wrote s1 cs evs s2 →
    Wrote s (c :: cs)
      (Issued c :: Replied c (Some e, v) :: Logged (ErrorObject e) :: evs) s2
| Wrote_ok s c cs o v s1 evs s2 :
    answer s (Redis c) o = Some ((None, v), s1) →
    Wrote s1 cs evs s2 →
    Wrote s (c :: cs) (Issued c :: Replied c (None, v) :: evs) s2.

(** ** The states create-contribution can reach *)

(** The reply of [hget]: the field's value, or [null]. *)
Definition bulk_reply (value : option string) : Payload :=
  match value with Some v => PStr v | None => PNull end.

Definition event_payload (ev : option Event) : Payload :=
  match ev with Some e => PEvent e | None => PNull end.

Definition pac_payload (p : option Pac) : Payload :=
  match p with Some p => PPac p | None => PNull end.

(** What the checks of the final callback of [async.parallel] let through:
    the customer identifier, the event, the PAC and [support]. *)
Definition validated (customer : option string) (ev : option Event) (p : option Pac)
    : option (string * Event * Pac * bool) :=
  match customer, ev, p with
  | Some c, Some e, Some p =>
      if str_truthy c then
        match support_of e p with
        | Some b => Some (c, e, p, b)
        | None => None
        end
      else None
  | _, _, _ => None
  end.

Section Contribution_states.

Variable string_to_number : string → float.
Variable JSON_stringify_contribution : Contribution → string.
Variables (req_user : User) (body : ContributionBody).
Variables (random1 random2 : string) (date_now : float).
Variable s0 : Store.

Definition customer_lookup : Cmd :=
  Redis (HGet userIdenToStripeCustomerId (user_iden req_user)).
Definition event_lookup : Cmd := Service (GetEvent (eventIden body)).
Definition pac_lookup : Cmd := Service (GetPac (pacIden body)).

Definition lookups : list Cmd := [customer_lookup; event_lookup; pac_lookup].

Definition stored_customer : option string :=
  hashes s0 !! (userIdenToStripeCustomerId, user_iden req_user).

Definition charge_call (customer : string) (ev : Event) (p : Pac) (support : bool) : Cmd :=
  Service (ChargesCreate
    (PrimFloat.mul (to_number string_to_number (body_amount body)) 100)
    "usd" customer
    {| meta_eventIden := event_iden ev; meta_pacIden := pac_iden p;
       meta_support := support |}).

(** The six writes of the charge callback, in the order of its task list. *)
Definition bookkeeping (ev : Event) (p : Pac) (support : bool) (charge_id : string)
    : list RedisCmd :=
  let contribution :=
    new_contribution body ev p support charge_id random1 random2 date_now in
  [ HSet contributions (contribution_iden contribution)
      (JSON_stringify_contribution contribution);
    LPush (userReverseChronologicalContributions (user_iden req_user))
      (contribution_iden contribution);
    HIncrBy (eventContributionTotals (event_iden ev)) (support_key support)
      (amount contribution);
    HIncrBy (politicianContributionTotals (politician ev)) (support_key support)
      (amount contribution);
    IncrBy contributionsSum (amount contribution);
    IncrBy (userContributionsSum (user_iden req_user)) (amount contribution) ].

(** The three lookups have all been answered, by the events [evs]. *)
Definition Resolved (evs : list Event_) (ev : option Event) (p : option Pac) : Prop :=
  missing_field body = false ∧
  Joined (pending lookups) s0 evs
    [ (customer_lookup, Some (bulk_reply stored_customer));
      (event_lookup, Some (event_payload ev));
      (pac_lookup, Some (pac_payload p)) ] s0.

(** What follows the three lookups, once they have been answered: [v] is
    what the checks let through. *)
Inductive Settled (v : option (string * Event * Pac * bool))
    : Status → Store → list Event_ → Prop :=
| settled_invalid :
    v = None →
    Settled v Finished s0 [Sent (SendStatus 400)]
| settled_charging c ev p b :
    v = Some (c, ev, p, b) →
    Settled v Running s0 [Issued (charge_call c ev p b)]
| settled_charge_failed c ev p b e :
    v = Some (c, ev, p, b) →
    Settled v Finished s0
      [Issued (charge_call c ev p b);
       Replied (charge_call c ev p b) (Some e, PUndefined);
       Logged (ErrorObject e); Sent (SendStatus 400)]
| settled_recording c ev p b id done w rest wevs s1 :
    v = Some (c, ev, p, b) →
    bookkeeping ev p b id = done ++ w :: rest →
    Wrote s0 done wevs s1 →
    Settled v Running s1
      ([Issued (charge_call c ev p b);
        Replied (charge_call c ev p b) (None, PCharge id)] ++
       wevs ++ [Issued (Redis w)])
| settled_recorded c ev p b id wevs s1 :
    v = Some (c, ev, p, b) →
    Wrote s0 (bookkeeping ev p b id) wevs s1 →
    Settled v Finished s1
      ([Issued (charge_call c ev p b);
        Replied (charge_call c ev p b) (None, PCharge id)] ++
       wevs ++ [Sent (SendStatus 200)]).

Inductive Reached : Status → Store → list Event_ → Prop :=
| reached_rejected :
    missing_field body = true →
    Reached Finished s0 [Sent (SendStatus 400)]
| reached_resolving evs slots :
    missing_field body = false →
    Joined (pending lookups) s0 evs slots s0 →
    filled slots = false →
    Reached Running s0 ((Issued <$> lookups) ++ evs)
| reached_lookup_failed evs slots i c e :
    missing_field body = false →
    Joined (pending lookups) s0 evs slots s0 →
    slots !! i = Some (c, None) →
    Reached Finished s0
      ((Issued <$> lookups) ++ evs ++
       [Replied c (Some e, PUndefined); Sent (SendStatus 500); Logged (ErrorObject e)])
| reached_settled evs ev p st s post :
    Resolved evs ev p →
    Settled (validated stored_customer ev p) st s post →
    Reached st s ((Issued <$> lookups) ++ evs ++ post).

End Contribution_states.

(** ** The states authenticate can reach *)

(** The events of a series of tasks that have all been answered without an
    error. *)
Inductive Stored : Store → list RedisCmd → list Event_ → Store → Prop :=
| Stored_nil s : Stored s [] [] s
| Stored_cons s c cs o v s1 evs s2 :
    answer s (Redis c) o = Some ((None, v), s1) →
    Stored s1 cs evs s2 →
    Stored s (c :: cs) (Issued c :: Replied c (None, v) :: evs) s2.

Section Authentication_states.

Variable JSON_stringify_user : User → string.
Variables (body : AuthenticateBody) (random1 random2 : string).
Variables (randomBytes : list Byte.byte) (date_now : float).
Variable s0 : Store.

Definition debug_request : Cmd := Service (RequestGet (DebugToken (facebookToken body))).
Definition me_request : Cmd := Service (RequestGet (Me (facebookToken body))).
Definition user_lookup (info : FacebookInfo) : Cmd :=
  Redis (HGet facebookUserIdToUserIden (info_id info)).
Definition token_lookup (userIden : string) : Cmd :=
  Redis (HGet userIdenToAccessToken userIden).

Definition stored_user (info : FacebookInfo) : option string :=
  hashes s0 !! (facebookUserIdToUserIden, info_id info).
Definition stored_token (userIden : string) : option string :=
  hashes s0 !! (userIdenToAccessToken, userIden).

Definition new_token : string := to_hex randomBytes.

(** The four writes that register a new user, in the order of the task
    list. *)
Definition registration (info : FacebookInfo) : list RedisCmd :=
  let user := new_user info random1 random2 date_now in
  [ HSet users (user_iden user) (JSON_stringify_user user);
    HSet userIdenToAccessToken (user_iden user) new_token;
    HSet accessTokenToUserIden new_token (user_iden user);
    HSet facebookUserIdToUserIden (info_id info) (user_iden user) ].

Inductive Registering (info : FacebookInfo) : Status → Store → list Event_ → Prop :=
| registering_writing done w rest evs s1 :
    registration info = done ++ w :: rest →
    Stored s0 done evs s1 →
    Registering info Running s1 (evs ++ [Issued (Redis w)])
| registering_failed done w rest evs s1 o e v s2 :
    registration info = done ++ w :: rest →
    Stored s0 done evs s1 →
    answer s1 (Redis w) o = Some ((Some e, v), s2) →
    Registering info Finished s2
      (evs ++ [Issued (Redis w); Replied (Redis w) (Some e, v);
               Sent (SendStatus 500); Logged (ErrorObject e)])
| registering_done evs s1 :
    Stored s0 (registration info) evs s1 →
    Registering info Finished s1 (evs ++ [Sent (JsonAccessToken new_token)]).

(** What follows the verification of the external identity [info]. *)
Inductive Identified (info : FacebookInfo) : Status → Store → list Event_ → Prop :=
| identified_looking_up :
    Identified info Running s0 [Issued (user_lookup info)]
| identified_lookup_failed e :
    Identified info Finished s0
      [Issued (user_lookup info); Replied (user_lookup info) (Some e, PUndefined);
       Sent (SendStatus 500); Logged (ErrorObject e)]
| identified_token_lookup iden :
    stored_user info = Some iden → str_truthy iden = true →
    Identified info Running s0
      [Issued (user_lookup info); Replied (user_lookup info) (None, PStr iden);
       Issued (token_lookup iden)]
| identified_token_failed iden e :
    stored_user info = Some iden → str_truthy iden = true →
    Identified info Finished s0
      [Issued (user_lookup info); Replied (user_lookup info) (None, PStr iden);
       Issued (token_lookup iden); Replied (token_lookup iden) (Some e, PUndefined);
       Sent (SendStatus 500); Logged (ErrorObject e)]
| identified_token_found iden token :
    stored_user info = Some iden → str_truthy iden = true →
    stored_token iden = Some token → str_truthy token = true →
    Identified info Finished s0
      [Issued (user_lookup info); Replied (user_lookup info) (None, PStr iden);
       Issued (token_lookup iden); Replied (token_lookup iden) (None, PStr token);
       Sent (JsonAccessToken token)]
| identified_token_missing iden :
    stored_user info = Some iden → str_truthy iden = true →
    payload_truthy (bulk_reply (stored_token iden)) = false →
    Identified info Finished s0
      [Issued (user_lookup info); Replied (user_lookup info) (None, PStr iden);
       Issued (token_lookup iden);
       Replied (token_lookup iden) (None, bulk_reply (stored_token iden));
       Sent (SendStatus 500); Logged (MissingEntry iden userIdenToAccessToken)]
| identified_new st s post :
    payload_truthy (bulk_reply (stored_user info)) = false →
    Registering info st s post →
    Identified info st s
      ([Issued (user_lookup info);
        Replied (user_lookup info) (None, bulk_reply (stored_user info))] ++ post).

Inductive Authenticating : Status → Store → list Event_ → Prop :=
| auth_checking :
    Authenticating Running s0 [Issued debug_request]
| auth_check_threw e :
    Authenticating Aborted s0
      [Issued debug_request; Replied debug_request (Some e, PUndefined); Thrown]
| auth_invalid code is_valid :
    (code =? 200) && truthy is_valid = false →
    Authenticating Finished s0
      [Issued debug_request; Replied debug_request (None, PDebugResponse code is_valid);
       Sent (SendStatus 400)]
| auth_fetching code is_valid :
    (code =? 200) && truthy is_valid = true →
    Authenticating Running s0
      [Issued debug_request; Replied debug_request (None, PDebugResponse code is_valid);
       Issued me_request]
| auth_fetch_threw code is_valid e :
    (code =? 200) && truthy is_valid = true →
    Authenticating Aborted s0
      [Issued debug_request; Replied debug_request (None, PDebugResponse code is_valid);
       Issued me_request; Replied me_request (Some e, PUndefined); Thrown]
| auth_fetch_refused code is_valid code' info :
    (code =? 200) && truthy is_valid = true →
    (code' =? 200) = false →
    Authenticating Finished s0
      [Issued debug_request; Replied debug_request (None, PDebugResponse code is_valid);
       Issued me_request; Replied me_request (None, PMeResponse code' info);
       Sent (SendStatus 400)]
| auth_identified code is_valid info st s post :
    (code =? 200) && truthy is_valid = true →
    Identified info st s post →
    Authenticating st s
      ([Issued debug_request; Replied debug_request (None, PDebugResponse code is_valid);
        Issued me_request; Replied me_request (None, PMeResponse 200 info)] ++ post)
| auth_check_unread code :
    (code =? 200) = false →
    Authenticating Finished s0
      [Issued debug_request; Replied debug_request (None, PBadBody code);
       Sent (SendStatus 400)]
| auth_check_body_threw :
    Authenticating Aborted s0
      [Issued debug_request; Replied debug_request (None, PBadBody 200); Thrown]
| auth_fetch_unread code is_valid code' :
    (code =? 200) && truthy is_valid = true →
    (code' =? 200) = false →
    Authenticating Finished s0
      [Issued debug_request; Replied debug_request (None, PDebugResponse code is_valid);
       Issued me_request; Replied me_request (None, PBadBody code');
       Sent (SendStatus 400)]
| auth_fetch_body_threw code is_valid :
    (code =? 200) && truthy is_valid = true →
    Authenticating Aborted s0
      [Issued debug_request; Replied debug_request (None, PDebugResponse code is_valid);
       Issued me_request; Replied me_request (None, PBadBody 200); Thrown]
| auth_fetch_nothing code is_valid code' :
    (code =? 200) && truthy is_valid = true →
    Authenticating Finished s0
      [Issued debug_request; Replied debug_request (None, PDebugResponse code is_valid);
       Issued me_request; Replied me_request (None, PFalsyBody code');
       Sent (SendStatus 400)].

End Authentication_states.

(** ** The error kinds of the specification *)

Inductive ErrorKind : Type :=
| BadRequest
| ExternalAuthInvalid
| StorageError
| PaymentGatewayError
| InternalInconsistency.

(** The status a kind is reported with: a client error is a 400, a server
    failure a 500. *)
Definition reported_as (k : ErrorKind) : Response :=
  match k with
  | BadRequest | ExternalAuthInvalid | PaymentGatewayError => SendStatus 400
  | StorageError | InternalInconsistency => SendStatus 500
  end.

(** ** Sample data *)

Module Sample.

(** Stand-ins for the language's StringToNumber (no sample carries a numeric
    string) and [JSON.stringify] (the rendering keeps the identifier). *)
Definition not_numeric (s : string) : float := PrimFloat.nan.
Definition stringify_user (u : User) : string := String.append "user " (user_iden u).
Definition stringify_contribution (c : Contribution) : string :=
  String.append "contribution " (contribution_iden c).

Definition alice : User :=
  {| user_iden := "u1"; facebookId := "fb1";
     name := JStr "Alice"; email := JStr "alice@example.org";
     occupation := JStr "Teacher"; employer := JUndefined;
     streetAddress := JUndefined; cityStateZip := JUndefined;
     user_created := 1000; user_modified := 1000 |}.

Definition pledge (amount : JsValue) : ContributionBody :=
  {| eventIden := JStr "E1"; pacIden := JStr "P1"; body_amount := amount |}.

Definition committee : Pac := {| pac_iden := "P1" |}.

(** An event that supports the committee, and one that lists it on both
    sides. *)
Definition rally : Event :=
  {| event_iden := "E1"; politician := "pol1"; supportPacs := ["P1"]; opposePacs := [] |}.

Definition contested : Event :=
  {| event_iden := "E1"; politician := "pol1"; supportPacs := ["P1"]; opposePacs := ["P1"] |}.

Definition card_on_file : Store :=
  set_hashes empty_store {[ (userIdenToStripeCustomerId, "u1") := "cus_1" ]}.

Definition contribute (amount : JsValue) : Task :=
  create_contribution not_numeric stringify_contribution alice (pledge amount)
    "0.abc" "0.def" 2000000.

(** The three lookups answered (the event first), the charge accepted, and
    the six writes answered, the fourth with an error. *)
Definition lookups_answered (ev : Event) : list (nat * Outcome) :=
  [(1%nat, Returns (PEvent ev)); (0%nat, Completes); (2%nat, Returns (PPac committee))].

Definition charge_accepted (ev : Event) : list (nat * Outcome) :=
  lookups_answered ev ++ [(0%nat, Returns (PCharge "ch_1"))].

Definition writes_answered_one_failing (ev : Event) : list (nat * Outcome) :=
  charge_accepted ev ++
  [(0%nat, Completes); (0%nat, Completes); (0%nat, Completes);
   (0%nat, Fails "connection lost"); (0%nat, Completes); (0%nat, Completes)].

Definition first_write_answered (ev : Event) : list (nat * Outcome) :=
  charge_accepted ev ++ [(0%nat, Completes)].

Definition charge_declined (ev : Event) : list (nat * Outcome) :=
  lookups_answered ev ++ [(0%nat, Fails "card declined")].

Definition login : AuthenticateBody := {| facebookToken := JStr "fb-token" |}.

Definition identity : FacebookInfo :=
  {| info_id := "fb1"; info_name := JStr "Alice"; info_email := JStr "alice@example.org" |}.

Definition entropy : list Byte.byte := repeat Byte.x5a 64.
Definition token : string := to_hex entropy.

Definition sign_in : Task :=
  authenticate stringify_user login "0.abc" "0.def" entropy 2000000.


(** The identity provider confirms the token and names the identity. *)
Definition verified : list (nat * Outcome) :=
  [(0%nat, Returns (PDebugResponse 200 (JBool true)));
   (0%nat, Returns (PMeResponse 200 identity))].

(** The lookup of the user and the four writes are answered; the same, the
    third write failing; the lookups of the user and of the token are
    answered. *)
Definition registered : list (nat * Outcome) :=
  verified ++ [(0%nat, Completes); (0%nat, Completes); (0%nat, Completes);
               (0%nat, Completes); (0%nat, Completes)].

Definition third_write_fails : list (nat * Outcome) :=
  verified ++ [(0%nat, Completes); (0%nat, Completes); (0%nat, Completes);
               (0%nat, Fails "connection lost")].

Definition recognised : list (nat * Outcome) :=
  verified ++ [(0%nat, Completes); (0%nat, Completes)].

Definition new_card : CardBody := {| cardToken := JStr "tok_visa" |}.

End Sample.

(** ** Further observations *)

(** The commands sent to the store, lookups and writes alike. *)
Definition is_store_command (c : Cmd) : bool :=
  match c with Redis _ => true | Service _ => false end.

Definition store_commands (tr : list Event_) : list Cmd :=
  filter is_store_command (issued tr).

(** The identity provider has answered, the handler could read the answer,
    and the answer does not confirm the token: a debug_token response that
    is not a 200 saying the token is valid, a /me response that is not a
    200, or a /me response whose body parses to a falsy value. *)
Definition token_refused (body : AuthenticateBody) (tr : list Event_) : Prop :=
  (∃ code is_valid,
     (debug_request body, (None, PDebugResponse code is_valid)) ∈ replies tr ∧
     (code =? 200) && truthy is_valid = false) ∨
  (∃ code, (debug_request body, (None, PBadBody code)) ∈ replies tr ∧ code ≠ 200) ∨
  (∃ code info,
     (me_request body, (None, PMeResponse code info)) ∈ replies tr ∧ code ≠ 200) ∨
  (∃ code, (me_request body, (None, PBadBody code)) ∈ replies tr ∧ code ≠ 200) ∨
  (∃ code, (me_request body, (None, PFalsyBody code)) ∈ replies tr).

(** The identity provider has answered with status 200 and a body the
    callback cannot read: [JSON.parse] throws on it, or the parsed body of
    debug_token has no [data]. *)
Definition body_unreadable (body : AuthenticateBody) (tr : list Event_) : Prop :=
  (debug_request body, (None, PBadBody 200)) ∈ replies tr ∨
  (me_request body, (None, PBadBody 200)) ∈ replies tr.

(** The two commands that add to a counter. *)
Definition is_increment (c : RedisCmd) : bool :=
  match c with
  | HIncrBy _ _ _ | IncrBy _ _ => true
  | _ => false
  end.

(** A request is answered once: a finished request has sent one response, a
    request in flight or one that threw has sent none. *)
Definition answered_once (st : Status) (tr : list Event_) : Prop :=
  match st with
  | Finished => length (responses tr) = 1%nat
  | Running | Aborted => responses tr = []
  end.

(** The value of a hexadecimal digit, and the bytes a hexadecimal text
    spells ([Buffer.from(text, 'hex')] on a text of lower-case digit
    pairs). *)
Definition hex_value (c : Ascii.ascii) : option N :=
  let n := N_of_ascii c in
  if ((48 <=? n) && (n <=? 57))%N then Some (n - 48)%N
  else if ((97 <=? n) && (n <=? 102))%N then Some (n - 87)%N
  else None.

Fixpoint of_hex (s : string) : option (list Byte.byte) :=
  match s with
  | EmptyString => Some []
  | String c1 (String c2 s') =>
      match hex_value c1, hex_value c2, of_hex s' with
      | Some h, Some l, Some bs =>
          match Byte.of_N (16 * h + l) with
          | Some b => Some (b :: bs)
          | None => None
          end
      | _, _, _ => None
      end
  | String _ EmptyString => None
  end.

(** ** The states set-card can reach *)

Section Billing_states.

Variables (req_user : User) (body : CardBody) (s0 : Store).

Definition billing_lookup : Cmd :=
  Redis (HGet userIdenToStripeCustomerId (user_iden req_user)).
Definition customer_update (customer : string) : Cmd :=
  Service (CustomersUpdate customer (cardToken body)).
Definition customer_create : Cmd :=
  Service (CustomersCreate (cardToken body) (user_iden req_user)).
Definition customer_store (customer_id : string) : Cmd :=
  Redis (HSet userIdenToStripeCustomerId (user_iden req_user) customer_id).

Definition billing_customer : option string :=
  hashes s0 !! (userIdenToStripeCustomerId, user_iden req_user).

(** The store once the mapping to the customer [customer_id] is written. *)
Definition with_customer (customer_id : string) : Store :=
  set_hashes s0 (<[(userIdenToStripeCustomerId, user_iden req_user) := customer_id]> (hashes s0)).

(** What follows the lookup of the user's customer, once it is answered. *)
Inductive Carded : Status → Store → list Event_ → Prop :=
| carded_updating c :
    billing_customer = Some c → str_truthy c = true →
    Carded Running s0 [Issued (customer_update c)]
| carded_update_failed c e :
    billing_customer = Some c → str_truthy c = true →
    Carded Finished s0
      [Issued (customer_update c); Replied (customer_update c) (Some e, PUndefined);
       Sent (SendStatus 400); Logged (ErrorObject e)]
| carded_updated c id :
    billing_customer = Some c → str_truthy c = true →
    Carded Finished s0
      [Issued (customer_update c); Replied (customer_update c) (None, PCustomer id);
       Sent (SendStatus 200)]
| carded_creating :
    payload_truthy (bulk_reply billing_customer) = false →
    Carded Running s0 [Issued customer_create]
| carded_create_threw e :
    payload_truthy (bulk_reply billing_customer) = false →
    Carded Aborted s0
      [Issued customer_create; Replied customer_create (Some e, PUndefined); Thrown]
| carded_storing id :
    payload_truthy (bulk_reply billing_customer) = false →
    Carded Running s0
      [Issued customer_create; Replied customer_create (None, PCustomer id);
       Issued (customer_store id)]
| carded_store_failed id e :
    payload_truthy (bulk_reply billing_customer) = false →
    Carded Finished s0
      [Issued customer_create; Replied customer_create (None, PCustomer id);
       Issued (customer_store id); Replied (customer_store id) (Some e, PUndefined);
       Sent (SendStatus 400); Logged (ErrorObject e)]
| carded_stored id v :
    payload_truthy (bulk_reply billing_customer) = false →
    Carded Finished (with_customer id)
      [Issued customer_create; Replied customer_create (None, PCustomer id);
       Issued (customer_store id); Replied (customer_store id) (None, v);
       Sent (SendStatus 200)].

Inductive Billing : Status → Store → list Event_ → Prop :=
| billing_rejected :
    truthy (cardToken body) = false →
    Billing Finished s0 [Sent (SendStatus 400)]
| billing_looking_up :
    truthy (cardToken body) = true →
    Billing Running s0 [Issued billing_lookup]
| billing_lookup_failed e :
    truthy (cardToken body) = true →
    Billing Finished s0
      [Issued billing_lookup; Replied billing_lookup (Some e, PUndefined);
       Sent (SendStatus 500); Logged (ErrorObject e)]
| billing_carded st s post :
    truthy (cardToken body) = true →
    Carded st s post →
    Billing st s
      ([Issued billing_lookup; Replied billing_lookup (None, bulk_reply billing_customer)]
       ++ post).

End Billing_states.

(** ** The states update-profile can reach *)

Section Profile_states.

Variable JSON_stringify_user : User → string.
Variables (req_user : User) (body : ProfileBody) (date_now : float) (s0 : Store).

Definition patched : User := patch_user req_user body (PrimFloat.div date_now 1000).

Definition profile_write : Cmd :=
  Redis (HSet users (user_iden patched) (JSON_stringify_user patched)).

Inductive Profiled : Status → Store → list Event_ → Prop :=
| profiled_writing :
    Profiled Running s0 [Issued profile_write]
| profiled_failed e :
    Profiled Finished s0
      [Issued profile_write; Replied profile_write (Some e, PUndefined);
       Sent (SendStatus 500); Logged (ErrorObject e)]
| profiled_written v :
    Profiled Finished
      (set_hashes s0 (<[(users, user_iden req_user) := JSON_stringify_user patched]> (hashes s0)))
      [Issued profile_write; Replied profile_write (None, v); Sent (SendStatus 200)].

End Profile_states.

(** ** The handlers as a set *)

Section Requests.

Variable string_to_number : string → float.
Variable JSON_stringify_user : User → string.
Variable JSON_stringify_contribution : Contribution → string.

(** The handlers that act for the signed-in user [req.user]. *)
Inductive Account_handler : Task → Prop :=
| handles_update_profile req_user body date_now :
    Account_handler (update_profile JSON_stringify_user req_user body date_now)
| handles_set_card req_user body :
    Account_handler (set_card req_user body)
| handles_create_contribution req_user body random1 random2 date_now :
    Account_handler
      (create_contribution string_to_number JSON_stringify_contribution req_user body
         random1 random2 date_now).

Inductive Handler : Task → Prop :=
| handles_authenticate body random1 random2 randomBytes date_now :
    Handler (authenticate JSON_stringify_user body random1 random2 randomBytes date_now)
| handles_account t :
    Account_handler t → Handler t.

End Requests.

(** ** Further sample data *)

Module Scenario.

(** authenticate: the identity provider says the token is not valid; the
    request to the provider fails; the lookup of the user fails. *)
Definition token_rejected : list (nat * Outcome) :=
  [(0%nat, Returns (PDebugResponse 200 (JBool false)))].

Definition provider_unreachable : list (nat * Outcome) :=
  [(0%nat, Fails "socket hang up")].

(** authenticate: the provider answers debug_token with status 200 and a
    body that is not JSON. *)
Definition body_garbled : list (nat * Outcome) :=
  [(0%nat, Returns (PBadBody 200))].

Definition lookup_fails : list (nat * Outcome) :=
  Sample.verified ++ [(0%nat, Fails "connection lost")].

(** A store in which the identity of the samples is registered, and one in
    which its user has no token. *)
Definition enrolled : Store :=
  set_hashes empty_store
    (<[(facebookUserIdToUserIden, "fb1") := "u1"]>
       {[ (userIdenToAccessToken, "u1") := "t0k3n" ]}).

Definition dangling : Store :=
  set_hashes empty_store {[ (facebookUserIdToUserIden, "fb1") := "u1" ]}.

(** set-card: a body without a card token; the gateway declines the update;
    the gateway creates the customer and the store records it. *)
Definition no_card : CardBody := {| cardToken := JUndefined |}.

Definition update_declined : list (nat * Outcome) :=
  [(0%nat, Completes); (0%nat, Fails "card declined")].

Definition customer_created : list (nat * Outcome) :=
  [(0%nat, Completes); (0%nat, Returns (PCustomer "cus_2")); (0%nat, Completes)].

(** update-profile: a patch with a name only. *)
Definition rename : ProfileBody :=
  {| body_name := JStr "Alicia"; body_occupation := JUndefined;
     body_employer := JUndefined; body_streetAddress := JUndefined;
     body_cityStateZip := JUndefined |}.

Definition renamed : Task :=
  update_profile Sample.stringify_user Sample.alice rename 3000000.

(** create-contribution: the lookup of the event fails; the charge is
    accepted and the six writes are carried out. *)
Definition event_lookup_fails : list (nat * Outcome) :=
  [(1%nat, Fails "timeout")].

Definition all_recorded (ev : Event) : list (nat * Outcome) :=
  Sample.charge_accepted ev ++
  [(0%nat, Completes); (0%nat, Completes); (0%nat, Completes);
   (0%nat, Completes); (0%nat, Completes); (0%nat, Completes)].

End Scenario.

(** * Properties *)

Ltac norm_trace := repeat first [rewrite <- app_assoc | progress simpl].

Section Machine_lemmas.

Lemma resume_Res r t s tr : resume (Res r t) s tr = resume t s (tr ++ [Sent r]).
Proof.
  unfold resume; simpl. destruct (exec t) as [evs c].
  by rewrite <- app_assoc.
Qed.

Lemma resume_ConsoleError m t s tr :
  resume (ConsoleError m t) s tr = resume t s (tr ++ [Logged m]).
Proof.
  unfold resume; simpl. destruct (exec t) as [evs c].
  by rewrite <- app_assoc.
Qed.

Lemma resume_Idle s tr : resume Idle s tr = {| ctl := Stopped; store := s; trace := tr |}.
Proof. unfold resume; simpl. by rewrite app_nil_r. Qed.

Lemma resume_TypeError s tr :
  resume TypeError s tr = {| ctl := Crashed; store := s; trace := tr ++ [Thrown] |}.
Proof. done. Qed.

Lemma resume_Do c k s tr :
  resume (Do c k) s tr = {| ctl := Waiting c k; store := s; trace := tr ++ [Issued c] |}.
Proof. done. Qed.

Lemma resume_Parallel c cs final s tr :
  resume (Parallel (c :: cs) final) s tr =
  {| ctl := Joining (pending (c :: cs)) final; store := s;
     trace := tr ++ (Issued <$> c :: cs) |}.
Proof. done. Qed.

Lemma always_finished Φ s tr :
  Φ Finished s tr → Always Φ {| ctl := Stopped; store := s; trace := tr |}.
Proof.
  intros H chs m'. destruct chs as [|[i o] chs]; simpl; [|done].
  by intros [= <-].
Qed.

Lemma always_aborted Φ s tr :
  Φ Aborted s tr → Always Φ {| ctl := Crashed; store := s; trace := tr |}.
Proof.
  intros H chs m'. destruct chs as [|[i o] chs]; simpl; [|done].
  by intros [= <-].
Qed.

Lemma always_waiting Φ c k s tr :
  Φ Running s tr →
  (∀ o args s', answer s c o = Some (args, s') →
     Always Φ (resume (k args) s' (tr ++ [Replied c args]))) →
  Always Φ {| ctl := Waiting c k; store := s; trace := tr |}.
Proof.
  intros H0 Hk chs m'. destruct chs as [|[i o] chs]; simpl.
  - by intros [= <-].
  - destruct i; [|done].
    destruct (answer s c o) as [[args s']|] eqn:Ha; [|done].
    intros Hrun. by eapply Hk.
Qed.

Lemma always_joining Φ slots0 final s0 tr :
  (∀ evs slots s, Joined slots0 s0 evs slots s →
     if filled slots
     then Always Φ (resume (final None (results slots)) s (tr ++ evs))
     else Φ Running s (tr ++ evs) ∧
          ∀ i c o e v s',
            slots !! i = Some (c, None) →
            answer s c o = Some ((Some e, v), s') →
            Always Φ (resume (final (Some e) (results slots)) s'
                        (tr ++ evs ++ [Replied c (Some e, v)]))) →
  filled slots0 = false →
  Always Φ {| ctl := Joining slots0 final; store := s0; trace := tr |}.
Proof.
  intros H Hf0.
  assert (G : ∀ chs evs1 slots1 s1 m',
    Joined slots0 s0 evs1 slots1 s1 → filled slots1 = false →
    run {| ctl := Joining slots1 final; store := s1; trace := tr ++ evs1 |} chs = Some m' →
    Φ (status (ctl m')) (store m') (trace m')).
  { induction chs as [|[i o] chs IH]; intros evs1 slots1 s1 m' HJ Hf Hrun.
    - simpl in Hrun. injection Hrun as <-. simpl.
      specialize (H _ _ _ HJ). rewrite Hf in H. by destruct H.
    - simpl in Hrun.
      destruct (slots1 !! i) as [[c [v0|]]|] eqn:Hi; try done.
      destruct (answer s1 c o) as [[[[e|] v] s']|] eqn:Ha; try done.
      + specialize (H _ _ _ HJ). rewrite Hf in H. destruct H as [_ H].
        specialize (H _ _ _ _ _ _ Hi Ha chs m').
        rewrite (app_assoc tr) in H. by apply H.
      + pose proof (Joined_fill _ _ _ _ _ _ _ _ _ _ HJ Hi Ha) as HJ'.
        destruct (filled (<[i:=(c, Some v)]> slots1)) eqn:Hf'.
        * specialize (H _ _ _ HJ'). rewrite Hf' in H.
          rewrite (app_assoc tr) in H. by apply (H chs m').
        * apply (IH _ _ _ _ HJ' Hf'). by rewrite (app_assoc tr). }
  intros chs m' Hrun. apply (G chs [] slots0 s0 m'); [constructor|done|].
  by rewrite app_nil_r.
Qed.

Lemma always_logged_series Φ cmds final s tr :
  (∀ done c rest evs s1,
     cmds = done ++ c :: rest → Wrote s done evs s1 →
     Φ Running s1 (tr ++ evs ++ [Issued (Redis c)])) →
  (∀ evs s1 rs,
     Wrote s cmds evs s1 → length rs = length cmds →
     Always Φ (resume (final None rs) s1 (tr ++ evs))) →
  Always Φ (resume (series (logged_write <$> cmds) final) s tr).
Proof.
  revert final s tr. induction cmds as [|c cmds IH]; intros final s tr Hrun Hend.
  - simpl. specialize (Hend [] s [] (Wrote_nil s) eq_refl).
    by rewrite app_nil_r in Hend.
  - simpl. unfold logged_write at 1. rewrite resume_Do.
    apply always_waiting.
    { apply (Hrun [] c cmds [] s); [done|constructor]. }
    intros o [[e|] v] s' Ha.
    + rewrite resume_ConsoleError. apply IH.
      * intros done c' rest evs s1 -> HW.
        specialize (Hrun (c :: done) c' rest _ s1 eq_refl (Wrote_failed _ _ _ _ _ _ _ _ _ Ha HW)).
        by rewrite <- !app_assoc.
      * intros evs s1 rs HW Hlen.
        specialize (Hend _ s1 (PUndefined :: rs) (Wrote_failed _ _ _ _ _ _ _ _ _ Ha HW)).
        rewrite <- !app_assoc. apply Hend. simpl. by rewrite Hlen.
    + apply IH.
      * intros done c' rest evs s1 -> HW.
        specialize (Hrun (c :: done) c' rest _ s1 eq_refl (Wrote_ok _ _ _ _ _ _ _ _ Ha HW)).
        by rewrite <- !app_assoc.
      * intros evs s1 rs HW Hlen.
        specialize (Hend _ s1 (PUndefined :: rs) (Wrote_ok _ _ _ _ _ _ _ _ Ha HW)).
        rewrite <- !app_assoc. apply Hend. simpl. by rewrite Hlen.
Qed.

Lemma after_run t s chs :
  completes t s chs = true → run (boot t s) chs = Some (after t s chs).
Proof. unfold completes, after. by destruct (run (boot t s) chs). Qed.

Lemma answer_service s c o a s' :
  answer s (Service c) o = Some (a, s') →
  s' = s ∧ ((∃ e, a = (Some e, PUndefined)) ∨ (∃ v, a = (None, v) ∧ returns c v = true)).
Proof.
  destruct o as [e| |v]; simpl; [|done|].
  - intros [= <- <-]. eauto.
  - destruct (returns c v) eqn:Hr; [|done]. intros [= <- <-]. eauto.
Qed.

Lemma answer_hget s k f o a s' :
  answer s (Redis (HGet k f)) o = Some (a, s') →
  s' = s ∧ ((∃ e, a = (Some e, PUndefined)) ∨ a = (None, bulk_reply (hashes s !! (k, f)))).
Proof.
  destruct o as [e| |v]; simpl; [| |done].
  - intros [= <- <-]. eauto.
  - intros [= <- <-]. split; [done|right]. by destruct (hashes s !! (k, f)).
Qed.

Lemma answer_read s c o a s' :
  is_write c = false → answer s c o = Some (a, s') → s' = s.
Proof.
  destruct c as [[]|c]; try done; intros _ H.
  - by apply answer_hget in H as [-> _].
  - by apply answer_service in H as [-> _].
Qed.

Lemma answer_store s c o :
  store_outcome o = true → ∃ args s', answer s (Redis c) o = Some (args, s').
Proof.
  destruct o as [e| |v]; try done; intros _; simpl; [by eauto|].
  destruct (redis_exec c s) as [s' [e|v]]; eauto.
Qed.

Lemma run_logged_series cmds final s tr outs :
  length outs = length cmds →
  Forall (λ o, store_outcome o = true) outs →
  ∃ evs s1 rs,
    Wrote s cmds evs s1 ∧ length rs = length cmds ∧
    run (resume (series (logged_write <$> cmds) final) s tr) ((0%nat,.) <$> outs) =
      Some (resume (final None rs) s1 (tr ++ evs)).
Proof.
  revert final s tr outs. induction cmds as [|c cmds IH]; intros final s tr outs Hlen Hall.
  - destruct outs; [|done]. exists [], s, []. simpl. rewrite app_nil_r.
    split; [constructor|done].
  - destruct outs as [|o outs]; [done|]. apply Forall_cons in Hall as [Ho Hall].
    injection Hlen as Hlen.
    destruct (answer_store s c o Ho) as ([[e|] v] & s' & Ha).
    + destruct (IH (λ err' results, final err' (PUndefined :: results)) s'
        (tr ++ [Issued (Redis c); Replied (Redis c) (Some e, v); Logged (ErrorObject e)])
        outs Hlen Hall) as (evs & s1 & rs & HW & Hrs & Hrun).
      exists (Issued (Redis c) :: Replied (Redis c) (Some e, v) :: Logged (ErrorObject e) :: evs),
        s1, (PUndefined :: rs).
      split; [by eapply Wrote_failed|]. split; [simpl; by rewrite Hrs|].
      rewrite !fmap_cons. cbn [series]. unfold logged_write at 1. rewrite resume_Do.
      cbn [run step ctl store trace]. rewrite Ha.
      rewrite resume_ConsoleError. rewrite <- !app_assoc in *. exact Hrun.
    + destruct (IH (λ err' results, final err' (PUndefined :: results)) s'
        (tr ++ [Issued (Redis c); Replied (Redis c) (None, v)])
        outs Hlen Hall) as (evs & s1 & rs & HW & Hrs & Hrun).
      exists (Issued (Redis c) :: Replied (Redis c) (None, v) :: evs), s1, (PUndefined :: rs).
      split; [by eapply Wrote_ok|]. split; [simpl; by rewrite Hrs|].
      rewrite !fmap_cons. cbn [series]. unfold logged_write at 1. rewrite resume_Do.
      cbn [run step ctl store trace]. rewrite Ha.
      rewrite <- !app_assoc in *. exact Hrun.
Qed.

Lemma always_forwarded_series Φ cmds final s tr :
  (∀ done c rest evs s1,
     cmds = done ++ c :: rest → Stored s done evs s1 →
     Φ Running s1 (tr ++ evs ++ [Issued (Redis c)])) →
  (∀ done c rest evs s1 o e v s2 rs,
     cmds = done ++ c :: rest → Stored s done evs s1 →
     answer s1 (Redis c) o = Some ((Some e, v), s2) →
     Always Φ (resume (final (Some e) rs) s2
                 (tr ++ evs ++ [Issued (Redis c); Replied (Redis c) (Some e, v)]))) →
  (∀ evs s1 rs,
     Stored s cmds evs s1 →
     Always Φ (resume (final None rs) s1 (tr ++ evs))) →
  Always Φ (resume (series (forwarded_write <$> cmds) final) s tr).
Proof.
  revert final s tr. induction cmds as [|c cmds IH]; intros final s tr Hrun Hfail Hend.
  - simpl. specialize (Hend [] s [] (Stored_nil s)). by rewrite app_nil_r in Hend.
  - simpl. unfold forwarded_write at 1. rewrite resume_Do.
    apply always_waiting.
    { apply (Hrun [] c cmds [] s); [done|constructor]. }
    intros o [[e|] v] s' Ha.
    + rewrite <- app_assoc.
      apply (Hfail [] c cmds [] s o e v s' [v] eq_refl (Stored_nil s) Ha).
    + apply IH.
      * intros done c' rest evs s1 -> HW.
        specialize (Hrun (c :: done) c' rest _ s1 eq_refl (Stored_cons _ _ _ _ _ _ _ _ Ha HW)).
        by rewrite <- !app_assoc.
      * intros done c' rest evs s1 o' e v' s2 rs -> HW Ha'.
        specialize (Hfail (c :: done) c' rest _ s1 o' e v' s2 (v :: rs) eq_refl
                      (Stored_cons _ _ _ _ _ _ _ _ Ha HW) Ha').
        by rewrite <- !app_assoc.
      * intros evs s1 rs HW.
        specialize (Hend _ s1 (v :: rs) (Stored_cons _ _ _ _ _ _ _ _ Ha HW)).
        by rewrite <- !app_assoc.
Qed.

End Machine_lemmas.

(** ** Observations on the segments of a trace *)

Section Trace_lemmas.

Lemma responses_app tr1 tr2 : responses (tr1 ++ tr2) = responses tr1 ++ responses tr2.
Proof. apply omap_app. Qed.

Lemma issued_app tr1 tr2 : issued (tr1 ++ tr2) = issued tr1 ++ issued tr2.
Proof. apply omap_app. Qed.

Lemma logged_app tr1 tr2 : logged (tr1 ++ tr2) = logged tr1 ++ logged tr2.
Proof. apply omap_app. Qed.

Lemma replies_app tr1 tr2 : replies (tr1 ++ tr2) = replies tr1 ++ replies tr2.
Proof. apply omap_app. Qed.

Lemma answered_fill slots i c v :
  slots !! i = Some (c, None) →
  answered (<[i := (c, Some v)]> slots) ≡ₚ (c, (None, v)) :: answered slots.
Proof.
  intros Hi. rewrite insert_take_drop by (by eapply lookup_lt_Some).
  rewrite <- (take_drop_middle slots i (c, None)) at 3 by done.
  unfold answered. rewrite !omap_app. simpl.
  by rewrite Permutation_middle.
Qed.

Lemma Joined_facts slots0 s0 evs slots s :
  Joined slots0 s0 evs slots s →
  issued evs = [] ∧ responses evs = [] ∧ logged evs = [] ∧
  replies evs ++ answered slots0 ≡ₚ answered slots.
Proof.
  induction 1 as [|evs slots s i c o v s' HJ (Hi & Hr & Hl & Hp) Hs Ha].
  - done.
  - rewrite issued_app, responses_app, logged_app, replies_app, Hi, Hr, Hl.
    repeat split; try done.
    rewrite answered_fill by done. simpl.
    rewrite <- Hp, <- app_assoc. simpl. by rewrite <- Permutation_middle.
Qed.

Lemma Wrote_facts s cmds evs s' :
  Wrote s cmds evs s' →
  issued evs = Redis <$> cmds ∧ responses evs = [] ∧ (replies evs).*1 = Redis <$> cmds ∧
  logged evs = omap (λ r : Cmd * Args, ErrorObject <$> r.2.1) (replies evs).
Proof.
  induction 1 as [|s c cs o e v s1 evs s2 Ha HW (Hi & Hr & Hp & Hl)
                   |s c cs o v s1 evs s2 Ha HW (Hi & Hr & Hp & Hl)]; simpl.
  - done.
  - unfold issued, responses, replies, logged in *. cbn.
    repeat split; try done; by f_equal.
  - unfold issued, responses, replies, logged in *. cbn.
    repeat split; try done; by f_equal.
Qed.

End Trace_lemmas.

(** ** The support decision *)

Lemma indexOf_from_spec i l x : 0 ≤ i → (indexOf_from i l x = -1 ↔ x ∉ l) ∧ -1 ≤ indexOf_from i l x.
Proof.
  revert i. induction l as [|y l IH]; intros i Hi; simpl.
  - split; [|lia]. split; [intros _; apply not_elem_of_nil|lia].
  - destruct (String.eqb_spec y x) as [->|Hne].
    + split; [|lia]. split; [lia|]. intros H. exfalso. apply H. by left.
    + destruct (IH (i + 1)) as [IH1 IH2]; [lia|]. split; [|done].
      rewrite IH1, not_elem_of_cons. split; [by intros ?|by intros [_ ?]].
Qed.

Lemma indexOf_spec l x : negb (indexOf l x =? -1) = bool_decide (x ∈ l).
Proof.
  unfold indexOf. destruct (indexOf_from_spec 0 l x) as [H _]; [done|].
  destruct (Z.eqb_spec (indexOf_from 0 l x) (-1)) as [Heq|Hne]; simpl.
  - symmetry. apply bool_decide_eq_false. by apply H.
  - symmetry. apply bool_decide_eq_true. destruct (decide (x ∈ l)); [done|].
    exfalso. apply Hne. by apply H.
Qed.

Lemma support_of_spec ev p :
  support_of ev p =
  if bool_decide (pac_iden p ∈ supportPacs ev) then Some true
  else if bool_decide (pac_iden p ∈ opposePacs ev) then Some false
  else None.
Proof. unfold support_of. by rewrite !indexOf_spec. Qed.

(** ** Every state of create-contribution *)

Section Lookups.

Variables (req_user : User) (body : ContributionBody) (s0 : Store).

Lemma lookups_joined evs slots s :
  Joined (pending (lookups req_user body)) s0 evs slots s →
  s = s0 ∧
  ∃ o1 o2 o3,
    slots = [(customer_lookup req_user, o1); (event_lookup body, o2); (pac_lookup body, o3)] ∧
    (o1 = None ∨ o1 = Some (bulk_reply (stored_customer req_user s0))) ∧
    (o2 = None ∨ ∃ ev, o2 = Some (event_payload ev)) ∧
    (o3 = None ∨ ∃ p, o3 = Some (pac_payload p)).
Proof using Type.
  induction 1 as [|evs slots s i c o v s' HJ IH Hi Ha].
  - split; [done|]. exists None, None, None. simpl. naive_solver.
  - destruct IH as [-> (o1 & o2 & o3 & -> & H1 & H2 & H3)].
    destruct i as [|[|[|i]]]; simpl in Hi; try done.
    + injection Hi as <- ->.
      apply answer_hget in Ha as [-> [[e [=]]|[= ->]]].
      split; [done|]. eexists _, o2, o3. simpl. eauto.
    + injection Hi as <- ->.
      apply answer_service in Ha as [-> [[e [=]]|[v' [[= <-] Hr]]]].
      split; [done|]. eexists o1, _, o3. simpl. repeat split; eauto.
      right. destruct v; try done; [by exists None|by eexists (Some _)].
    + injection Hi as <- ->.
      apply answer_service in Ha as [-> [[e [=]]|[v' [[= <-] Hr]]]].
      split; [done|]. eexists o1, o2, _. simpl. repeat split; eauto.
      right. destruct v; try done; [by exists None|by eexists (Some _)].
Qed.

End Lookups.

Section Contribution.

Variable string_to_number : string → float.
Variable JSON_stringify_contribution : Contribution → string.
Variables (req_user : User) (body : ContributionBody).
Variables (random1 random2 : string) (date_now : float).
Variable s0 : Store.

Abbreviation lookups := (lookups req_user body).
Abbreviation customer_lookup := (customer_lookup req_user).
Abbreviation event_lookup := (event_lookup body).
Abbreviation pac_lookup := (pac_lookup body).
Abbreviation stored_customer := (stored_customer req_user s0).
Abbreviation Reached :=
  (Reached string_to_number JSON_stringify_contribution req_user body
     random1 random2 date_now s0).
Abbreviation Settled :=
  (Settled string_to_number JSON_stringify_contribution req_user body
     random1 random2 date_now s0).
Abbreviation Resolved := (Resolved req_user body s0).
Abbreviation bookkeeping :=
  (bookkeeping JSON_stringify_contribution req_user body random1 random2 date_now).
Abbreviation charge_call := (charge_call string_to_number body).

Lemma charge_callback_charged ev p b id :
  charge_callback JSON_stringify_contribution req_user body ev p b random1 random2 date_now
    (None, PCharge id) =
  series
    (logged_write <$> bookkeeping ev p b id)
    (λ _ _, Res (SendStatus 200) Idle).
Proof. done. Qed.

Lemma resolved_reached evs ev p :
  Resolved evs ev p →
  Always Reached
    (resume
       (resolved_callback string_to_number JSON_stringify_contribution req_user body
          random1 random2 date_now None
          [bulk_reply stored_customer; event_payload ev; pac_payload p])
       s0 ((Issued <$> lookups) ++ evs)).
Proof.
  intros HR. unfold resolved_callback. simpl nth.
  destruct (validated stored_customer ev p) as [[[[c ev'] p'] b]|] eqn:Hv.
  - assert (Hpay : bulk_reply stored_customer = PStr c ∧ str_truthy c = true ∧
       ev = Some ev' ∧ p = Some p' ∧ support_of ev' p' = Some b).
    { unfold validated in Hv.
      destruct stored_customer as [c0|]; [|done].
      destruct ev as [e0|]; [|done]. destruct p as [p0|]; [|done].
      destruct (str_truthy c0) eqn:Hc; [|done].
      destruct (support_of e0 p0) as [b0|] eqn:Hs; [|done].
      by injection Hv as -> -> -> ->. }
    destruct Hpay as (-> & Hc & -> & -> & Hs). simpl. rewrite Hc, Hs. simpl.
    rewrite resume_Do. apply always_waiting.
    { eapply reached_settled; [done|]. rewrite Hv. by eapply settled_charging. }
    intros o a s' Ha. apply answer_service in Ha as [-> [[e ->]|[v [-> Hr]]]].
    + simpl. rewrite resume_ConsoleError, resume_Res, resume_Idle.
      apply always_finished. norm_trace.
      eapply reached_settled; [done|]. rewrite Hv. by eapply settled_charge_failed.
    + destruct v; try done. rewrite charge_callback_charged.
      apply always_logged_series.
      * intros done w rest wevs s1 Hb HW. norm_trace.
        eapply reached_settled; [done|]. rewrite Hv. by eapply settled_recording.
      * intros wevs s1 rs HW _. rewrite resume_Res, resume_Idle.
        apply always_finished. norm_trace.
        eapply reached_settled; [done|]. rewrite Hv. by eapply settled_recorded.
  - assert (Hpay : resolved_callback string_to_number JSON_stringify_contribution req_user body
          random1 random2 date_now None
          [bulk_reply stored_customer; event_payload ev; pac_payload p]
          = Res (SendStatus 400) Idle).
    { unfold validated in Hv. unfold resolved_callback. simpl nth.
      destruct stored_customer as [c0|]; [|done]. simpl.
      destruct (str_truthy c0) eqn:Hc; [|done]. simpl.
      destruct ev as [e0|]; [|done]. destruct p as [p0|]; [|done]. simpl.
      by destruct (support_of e0 p0). }
    unfold resolved_callback in Hpay. simpl nth in Hpay. rewrite Hpay.
    rewrite resume_Res, resume_Idle. apply always_finished. norm_trace.
    eapply reached_settled; [done|]. by eapply settled_invalid.
Qed.

Lemma create_contribution_reached :
  Always Reached
    (boot (create_contribution string_to_number JSON_stringify_contribution req_user body
             random1 random2 date_now) s0).
Proof.
  unfold boot, create_contribution. destruct (missing_field body) eqn:Hm.
  - rewrite resume_Res, resume_Idle. apply always_finished. by constructor.
  - rewrite resume_Parallel. apply always_joining; [|done].
    intros evs slots s HJ.
    pose proof HJ as HJ'.
    apply lookups_joined in HJ' as [-> (o1 & o2 & o3 & -> & H1 & H2 & H3)].
    assert (Hfail : ∀ i c o e v s',
      [(customer_lookup, o1); (event_lookup, o2); (pac_lookup, o3)] !! i = Some (c, None) →
      answer s0 c o = Some ((Some e, v), s') →
      Always Reached
        (resume (resolved_callback string_to_number JSON_stringify_contribution req_user body
                   random1 random2 date_now (Some e)
                   (results [(customer_lookup, o1); (event_lookup, o2); (pac_lookup, o3)]))
           s' (([] ++ (Issued <$> lookups)) ++ evs ++ [Replied c (Some e, v)]))).
    { intros i c o e v s' Hi Ha.
      assert (s' = s0 ∧ v = PUndefined) as [-> ->].
      { destruct i as [|[|[|i]]]; simpl in Hi; try done; injection Hi as <- _.
        - apply answer_hget in Ha as [-> [[e' Heq]|Heq]]; by simplify_eq.
        - apply answer_service in Ha as [-> [[e' Heq]|[v' [Heq _]]]]; by simplify_eq.
        - apply answer_service in Ha as [-> [[e' Heq]|[v' [Heq _]]]]; by simplify_eq. }
      unfold resolved_callback, fail_with.
      rewrite resume_Res, resume_ConsoleError, resume_Idle.
      apply always_finished. norm_trace.
      eapply (reached_lookup_failed _ _ _ _ _ _ _ _ evs); eauto. }
    destruct H1 as [-> | ->], H2 as [-> | [ev ->]], H3 as [-> | [p ->]]; simpl filled; cbv iota;
      try (split; [by eapply reached_resolving|exact Hfail]).
    apply resolved_reached. by split.
Qed.
Lemma lookup_replies evs slots c a :
  Joined (pending lookups) s0 evs slots s0 →
  (c, a) ∈ replies evs →
  ∃ v, a = (None, v) ∧ (c, Some v) ∈ slots.
Proof using Type.
  intros HJ Hin. apply Joined_facts in HJ as (_ & _ & _ & Hp).
  simpl in Hp. rewrite app_nil_r in Hp. rewrite Hp in Hin.
  unfold answered in Hin. apply list_elem_of_omap in Hin as ([c' [v|]] & Hsl & Heq); [|done].
  simpl in Heq. injection Heq as <- <-. eauto.
Qed.

Lemma bookkeeping_writes ev p b id :
  Forall (λ w, is_write (Redis w) = true) (bookkeeping ev p b id).
Proof using Type. by repeat constructor. Qed.

Lemma wrote_replies s done wevs s1 c a :
  Wrote s done wevs s1 → Forall (λ w, is_write (Redis w) = true) done →
  (c, a) ∈ replies wevs → is_write c = true.
Proof using Type.
  intros HW Hd Hin. apply Wrote_facts in HW as (_ & _ & Hr & _).
  assert (c ∈ (replies wevs).*1) as Hc by (apply list_elem_of_fmap; by exists (c, a)).
  rewrite Hr in Hc. apply list_elem_of_fmap in Hc as (w & -> & Hw).
  by eapply Forall_forall in Hd.
Qed.

Lemma settled_replies v st s post c a :
  Settled v st s post → (c, a) ∈ replies post → is_lookup c = false.
Proof using Type.
  unfold is_lookup.
  destruct 1 as [?|????|?????|c0 ev p b id done w rest wevs s1 ? Hb HW|c0 ev p b id wevs s1 ? HW]; simpl; rewrite ?replies_app; simpl.
  - by intros ?%elem_of_nil.
  - by intros ?%elem_of_nil.
  - by intros [= -> _]%list_elem_of_singleton.
  - rewrite app_nil_r. intros [[= -> _]|Hin]%elem_of_cons; [done|].
    assert (is_write c = true) as ->; [|by rewrite orb_true_r].
    eapply wrote_replies; [exact HW| |exact Hin].
    pose proof (bookkeeping_writes ev p b id) as Hall. rewrite Hb in Hall.
    by apply Forall_app in Hall as [? _].
  - rewrite app_nil_r. intros [[= -> _]|Hin]%elem_of_cons; [done|].
    assert (is_write c = true) as ->; [|by rewrite orb_true_r].
    eapply wrote_replies; [exact HW| |exact Hin]. apply bookkeeping_writes.
Qed.

Lemma lookup_slots evs slots :
  Joined (pending lookups) s0 evs slots s0 →
  ∀ c v, is_lookup c = true → (c, (None, v)) ∈ replies evs →
  (c, Some v) ∈ slots.
Proof using Type.
  intros HJ c v _ Hin. eapply lookup_replies in Hin as (v' & [= <-] & Hsl); done.
Qed.

Lemma reached_after_lookups st s tr customer ev p :
  Reached st s tr →
  (customer_lookup, (None, PStr customer)) ∈ replies tr →
  (event_lookup, (None, PEvent ev)) ∈ replies tr →
  (pac_lookup, (None, PPac p)) ∈ replies tr →
  stored_customer = Some customer ∧
  ∃ evs post,
    tr = (Issued <$> lookups) ++ evs ++ post ∧
    Resolved evs (Some ev) (Some p) ∧
    Settled (validated (Some customer) (Some ev) (Some p)) st s post.
Proof using Type.
  intros HR Hc He Hp.
  destruct HR as [Hm|evs slots Hm HJ Hf|evs slots i c e Hm HJ Hi|evs ev0 p0 st s post HRes HS].
  - by apply elem_of_nil in Hc.
  - exfalso. rewrite replies_app in Hc, He, Hp. simpl in Hc, He, Hp.
    eapply lookup_slots in Hc, He, Hp; try done.
    apply lookups_joined in HJ as (_ & o1 & o2 & o3 & -> & _).
    repeat match goal with
    | H : _ ∈ _ :: _ |- _ => apply elem_of_cons in H as [[=]|H]
    | H : _ ∈ [] |- _ => by apply elem_of_nil in H
    end; by subst.
  - exfalso. rewrite !replies_app in Hc, He, Hp. simpl in Hc, He, Hp.
    rewrite elem_of_app, list_elem_of_singleton in Hc, He, Hp.
    destruct Hc as [Hc|[=]], He as [He|[=]], Hp as [Hp|[=]].
    eapply lookup_slots in Hc, He, Hp; try done.
    apply lookups_joined in HJ as (_ & o1 & o2 & o3 & -> & _).
    repeat match goal with
    | H : _ ∈ _ :: _ |- _ => apply elem_of_cons in H as [[=]|H]
    | H : _ ∈ [] |- _ => by apply elem_of_nil in H
    end; subst.
    by destruct i as [|[|[|i]]].
  - rewrite !replies_app in Hc, He, Hp. simpl in Hc, He, Hp.
    rewrite elem_of_app in Hc, He, Hp.
    destruct Hc as [Hc|Hc]; [|by apply (settled_replies _ _ _ _ _ _ HS) in Hc].
    destruct He as [He|He]; [|by apply (settled_replies _ _ _ _ _ _ HS) in He].
    destruct Hp as [Hp|Hp]; [|by apply (settled_replies _ _ _ _ _ _ HS) in Hp].
    pose proof HRes as [Hm HJ].
    eapply lookup_slots in Hc, He, Hp; try done. clear HJ.
    repeat match goal with
    | H : _ ∈ _ :: _ |- _ => apply elem_of_cons in H as [[=]|H]
    | H : _ ∈ [] |- _ => by apply elem_of_nil in H
    end.
    destruct stored_customer as [c0|] eqn:Hst; [|done].
    destruct ev0 as [ev0|]; [|done]. destruct p0 as [p0|]; [|done].
    simplify_eq/=. split; [done|]. by exists evs, post.
Qed.

Lemma charges_issued_app tr1 tr2 :
  charges_issued (tr1 ++ tr2) = charges_issued tr1 ++ charges_issued tr2.
Proof using Type. unfold charges_issued. by rewrite issued_app, filter_app. Qed.

Lemma writes_issued_app tr1 tr2 :
  writes_issued (tr1 ++ tr2) = writes_issued tr1 ++ writes_issued tr2.
Proof using Type. unfold writes_issued. by rewrite issued_app, filter_app. Qed.

Lemma no_charge_among_writes (ws : list RedisCmd) : filter is_charge (Redis <$> ws) = [].
Proof using Type.
  induction ws as [|w ws IH]; [done|].
  rewrite fmap_cons, filter_cons_False; [done|]. by intros ?.
Qed.

Lemma resolved_issues_nothing evs ev p :
  Resolved evs ev p → issued evs = [] ∧ responses evs = [] ∧ logged evs = [].
Proof using Type. intros [_ HJ]. by apply Joined_facts in HJ as (? & ? & ? & _). Qed.

Lemma settled_charges v st s post :
  Settled v st s post →
  charges_issued post =
  match v with Some (c, ev, p, b) => [charge_call c ev p b] | None => [] end.
Proof using Type.
  destruct 1 as [->|c ev p b ->|c ev p b e ->|c ev p b id done w rest wevs s1 -> Hb HW
                 |c ev p b id wevs s1 -> HW]; try reflexivity.
  - apply Wrote_facts in HW as (Hi & _).
    rewrite !charges_issued_app. unfold charges_issued at 2. rewrite Hi.
    by rewrite no_charge_among_writes.
  - apply Wrote_facts in HW as (Hi & _).
    rewrite !charges_issued_app. unfold charges_issued at 2. rewrite Hi.
    by rewrite no_charge_among_writes.
Qed.

Lemma settled_invalid_inv st s post :
  Settled None st s post → st = Finished ∧ s = s0 ∧ post = [Sent (SendStatus 400)].
Proof using Type. by destruct 1. Qed.

Lemma lookups_are_no_charges : charges_issued (Issued <$> lookups) = [].
Proof using Type. done. Qed.

Lemma lookup_slot_cmd evs slots i c o :
  Joined (pending lookups) s0 evs slots s0 → slots !! i = Some (c, o) → is_lookup c = true.
Proof using Type.
  intros HJ Hi. apply lookups_joined in HJ as (_ & o1 & o2 & o3 & -> & _).
  destruct i as [|[|[|i]]]; simpl in Hi; by simplify_eq.
Qed.

Lemma joined_replies evs slots c a :
  Joined (pending lookups) s0 evs slots s0 → (c, a) ∈ replies evs →
  is_lookup c = true ∧ a.1 = None.
Proof using Type.
  intros HJ Hin. destruct (lookup_replies _ _ _ _ HJ Hin) as (v & -> & Hsl).
  split; [|done]. apply list_elem_of_lookup in Hsl as [i Hi].
  by eapply lookup_slot_cmd.
Qed.

Lemma charge_is_no_lookup c : is_charge c = true → is_lookup c = false.
Proof using Type. unfold is_lookup. by intros ->. Qed.

Lemma write_is_no_charge c : is_write c = true → is_charge c = false.
Proof using Type. by destruct c. Qed.

Lemma no_errors_answered (rs : list (Cmd * Args)) :
  (∀ c a, (c, a) ∈ rs → a.1 = None) →
  omap (λ r : Cmd * Args, ErrorObject <$> r.2.1) rs = [].
Proof using Type.
  induction rs as [|[c a] rs IH]; intros H; [done|]. simpl.
  rewrite (H c a) by left. simpl. apply IH. intros c' a' Hin. apply (H c' a'). by right.
Qed.

Lemma joined_no_errors evs slots :
  Joined (pending lookups) s0 evs slots s0 → errors_answered evs = [].
Proof using Type.
  intros HJ. apply no_errors_answered. intros c a Hin.
  by apply (joined_replies _ _ _ _ HJ) in Hin as [_ ?].
Qed.

Lemma errors_answered_app tr1 tr2 :
  errors_answered (tr1 ++ tr2) = errors_answered tr1 ++ errors_answered tr2.
Proof using Type. unfold errors_answered. by rewrite replies_app, omap_app. Qed.

Lemma not_accepted_while_resolving evs slots c v :
  Joined (pending lookups) s0 evs slots s0 →
  is_charge c = true → (c, (None, v)) ∉ replies evs.
Proof using Type.
  intros HJ Hc Hin. apply (joined_replies _ _ _ _ HJ) in Hin as [Hl _].
  apply charge_is_no_lookup in Hc. congruence.
Qed.

Lemma no_writes_answered (rs : list (Cmd * Args)) :
  (∀ c a, (c, a) ∈ rs → is_write c = false) → filter is_write (rs.*1) = [].
Proof using Type.
  induction rs as [|[c a] rs IH]; intros H; [done|].
  rewrite fmap_cons, filter_cons_False.
  - apply IH. intros c' a' Hin. apply (H c' a'). by right.
  - simpl. rewrite (H c a) by left. by intros ?.
Qed.

Lemma lookup_is_no_write c : is_lookup c = true → is_write c = false.
Proof using Type. unfold is_lookup. by destruct (is_write c), (is_charge c). Qed.

Lemma joined_no_writes evs slots :
  Joined (pending lookups) s0 evs slots s0 →
  writes_issued evs = [] ∧ writes_answered evs = [].
Proof using Type.
  intros HJ. split.
  - apply Joined_facts in HJ as (Hi & _). unfold writes_issued. by rewrite Hi.
  - apply no_writes_answered. intros c a Hin.
    apply (joined_replies _ _ _ _ HJ) in Hin as [Hl _]. by apply lookup_is_no_write.
Qed.

Lemma writes_answered_app tr1 tr2 :
  writes_answered (tr1 ++ tr2) = writes_answered tr1 ++ writes_answered tr2.
Proof using Type. unfold writes_answered. by rewrite replies_app, fmap_app, filter_app. Qed.

Lemma all_writes (ws : list RedisCmd) :
  Forall (λ w, is_write (Redis w) = true) ws → filter is_write (Redis <$> ws) = Redis <$> ws.
Proof using Type.
  induction 1 as [|w ws Hw _ IH]; [done|].
  rewrite fmap_cons, filter_cons_True by (by rewrite Hw). by rewrite IH.
Qed.

Lemma wrote_writes s ws wevs s1 :
  Wrote s ws wevs s1 → Forall (λ w, is_write (Redis w) = true) ws →
  writes_issued wevs = Redis <$> ws ∧ writes_answered wevs = Redis <$> ws.
Proof using Type.
  intros HW Hall. apply Wrote_facts in HW as (Hi & _ & Hr & _).
  unfold writes_issued, writes_answered. rewrite Hi, Hr. by rewrite all_writes.
Qed.

Lemma reached_writes st s tr :
  Reached st s tr →
  ∃ ev p b id ws,
    ws `prefix_of` bookkeeping ev p b id ∧
    writes_issued tr = Redis <$> ws ∧
    (writes_answered tr = Redis <$> ws ∨
     ∃ ws' w, ws = ws' ++ [w] ∧ writes_answered tr = Redis <$> ws').
Proof using Type.
  assert (Hnone : ∀ tr, writes_issued tr = [] → writes_answered tr = [] →
    ∃ ev p b id ws,
      ws `prefix_of` bookkeeping ev p b id ∧ writes_issued tr = Redis <$> ws ∧
      (writes_answered tr = Redis <$> ws ∨
       ∃ ws' w, ws = ws' ++ [w] ∧ writes_answered tr = Redis <$> ws')).
  { intros tr' H1 H2. exists nowhere, {| pac_iden := "" |}, true, ""%string, [].
    split; [apply prefix_nil|]. split; [done|]. by left. }
  destruct 1 as [Hm|evs slots Hm HJ Hf|evs slots i c0 e0 Hm HJ Hi|evs ev p st s post HRes HS].
  - by apply Hnone.
  - apply joined_no_writes in HJ as [H1 H2].
    apply Hnone; [by rewrite writes_issued_app, H1|by rewrite writes_answered_app, H2].
  - pose proof (lookup_slot_cmd _ _ _ _ _ HJ Hi) as Hl%lookup_is_no_write.
    apply joined_no_writes in HJ as [H1 H2].
    apply Hnone.
    + by rewrite !writes_issued_app, H1.
    + rewrite !writes_answered_app, H2. unfold writes_answered. simpl.
      rewrite filter_cons_False; [done|]. rewrite Hl. by intros ?.
  - destruct HRes as [_ HJ]. apply joined_no_writes in HJ as [H1 H2].
    destruct HS as [Hv|c1 ev1 p1 b Hv|c1 ev1 p1 b e1 Hv
                    |c1 ev1 p1 b id done w rest wevs s1 Hv Hb HW
                    |c1 ev1 p1 b id wevs s1 Hv HW].
    + apply Hnone; [by rewrite !writes_issued_app, H1|by rewrite !writes_answered_app, H2].
    + apply Hnone; [by rewrite !writes_issued_app, H1|by rewrite !writes_answered_app, H2].
    + apply Hnone; [by rewrite !writes_issued_app, H1|by rewrite !writes_answered_app, H2].
    + pose proof (bookkeeping_writes ev1 p1 b id) as Hall. rewrite Hb in Hall.
      apply Forall_app in Hall as [Hd Hw]. apply Forall_cons in Hw as [Hw _].
      destruct (wrote_writes _ _ _ _ HW Hd) as [Hwi Hwa].
      exists ev1, p1, b, id, (done ++ [w]). split; [|split].
      * rewrite Hb. rewrite (cons_middle w done rest), app_assoc. by apply prefix_app_r.
      * rewrite !writes_issued_app, H1, Hwi, fmap_app. unfold writes_issued. simpl.
        rewrite filter_cons_True by (by rewrite Hw). done.
      * right. exists done, w. split; [done|].
        rewrite !writes_answered_app, H2, Hwa. by rewrite app_nil_r.
    + destruct (wrote_writes _ _ _ _ HW (bookkeeping_writes _ _ _ _)) as [Hwi Hwa].
      exists ev1, p1, b, id, (bookkeeping ev1 p1 b id). split; [done|]. split; [|left].
      * rewrite !writes_issued_app, H1, Hwi. by rewrite app_nil_r.
      * rewrite !writes_answered_app, H2, Hwa. by rewrite app_nil_r.
Qed.

Lemma bookkeeping_records_amount ev p b id :
  Forall (records_amount JSON_stringify_contribution (body_amount body))
    (Redis <$> bookkeeping ev p b id).
Proof using Type. repeat constructor. simpl. by eexists. Qed.

Lemma joined_slots evs slots c v :
  Joined (pending lookups) s0 evs slots s0 →
  (c, (None, v)) ∈ replies evs → (c, Some v) ∈ slots.
Proof.
  intros HJ Hin. by destruct (lookup_replies _ _ _ _ HJ Hin) as (v' & [= <-] & Hsl).
Qed.

Lemma resolved_replies evs ev p :
  Resolved evs ev p →
  replies evs ≡ₚ
    [(customer_lookup, (None, bulk_reply stored_customer));
     (event_lookup, (None, event_payload ev)); (pac_lookup, (None, pac_payload p))].
Proof.
  intros [_ HJ]. apply Joined_facts in HJ as (_ & _ & _ & Hp).
  simpl in Hp. by rewrite app_nil_r in Hp.
Qed.

(** Once the three lookups have been answered, the run is past them. *)
Lemma reached_resolved st s tr v1 v2 v3 :
  Reached st s tr →
  (customer_lookup, (None, v1)) ∈ replies tr →
  (event_lookup, (None, v2)) ∈ replies tr →
  (pac_lookup, (None, v3)) ∈ replies tr →
  ∃ evs ev p post,
    tr = (Issued <$> lookups) ++ evs ++ post ∧
    Resolved evs ev p ∧
    Settled (validated stored_customer ev p) st s post ∧
    v1 = bulk_reply stored_customer ∧ v2 = event_payload ev ∧ v3 = pac_payload p.
Proof.
  intros HR Hc He Hp.
  destruct HR as [Hm|evs slots Hm HJ Hf|evs slots i c e Hm HJ Hi|evs ev0 p0 st s post HRes HS].
  - by apply elem_of_nil in Hc.
  - exfalso. rewrite replies_app in Hc, He, Hp. simpl in Hc, He, Hp.
    eapply joined_slots in Hc, He, Hp; try done.
    apply lookups_joined in HJ as (_ & o1 & o2 & o3 & -> & _).
    repeat match goal with
    | H : _ ∈ _ :: _ |- _ => apply elem_of_cons in H as [[=]|H]
    | H : _ ∈ [] |- _ => by apply elem_of_nil in H
    end; by subst.
  - exfalso. rewrite !replies_app in Hc, He, Hp. simpl in Hc, He, Hp.
    rewrite elem_of_app, list_elem_of_singleton in Hc, He, Hp.
    destruct Hc as [Hc|[=]], He as [He|[=]], Hp as [Hp|[=]].
    eapply joined_slots in Hc, He, Hp; try done.
    apply lookups_joined in HJ as (_ & o1 & o2 & o3 & -> & _).
    repeat match goal with
    | H : _ ∈ _ :: _ |- _ => apply elem_of_cons in H as [[=]|H]
    | H : _ ∈ [] |- _ => by apply elem_of_nil in H
    end; subst.
    by destruct i as [|[|[|i]]].
  - rewrite !replies_app in Hc, He, Hp. simpl in Hc, He, Hp.
    rewrite elem_of_app in Hc, He, Hp.
    destruct Hc as [Hc|Hc]; [|by apply (settled_replies _ _ _ _ _ _ HS) in Hc].
    destruct He as [He|He]; [|by apply (settled_replies _ _ _ _ _ _ HS) in He].
    destruct Hp as [Hp|Hp]; [|by apply (settled_replies _ _ _ _ _ _ HS) in Hp].
    pose proof HRes as [Hm HJ].
    eapply joined_slots in Hc, He, Hp; try done. clear HJ.
    repeat match goal with
    | H : _ ∈ _ :: _ |- _ => apply elem_of_cons in H as [[=]|H]
    | H : _ ∈ [] |- _ => by apply elem_of_nil in H
    end.
    subst. by exists evs, ev0, p0, post.
Qed.

Lemma validated_inv c ev p c' ev' p' b :
  validated c ev p = Some (c', ev', p', b) →
  c = Some c' ∧ ev = Some ev' ∧ p = Some p' ∧ str_truthy c' = true ∧
  support_of ev' p' = Some b.
Proof.
  unfold validated. destruct c as [c0|]; [|done].
  destruct ev as [e0|]; [|done]. destruct p as [p0|]; [|done].
  destruct (str_truthy c0) eqn:Hc; [|done].
  destruct (support_of e0 p0) as [b0|] eqn:Hs; [|done].
  by intros [= -> -> -> ->].
Qed.

Lemma reached_charges st s tr :
  Reached st s tr →
  charges_issued tr = [] ∨
  ∃ evs ev p post c' ev' p' b,
    tr = (Issued <$> lookups) ++ evs ++ post ∧ Resolved evs ev p ∧
    validated stored_customer ev p = Some (c', ev', p', b) ∧
    Settled (Some (c', ev', p', b)) st s post ∧
    charges_issued tr = [charge_call c' ev' p' b].
Proof.
  destruct 1 as [Hm|evs slots Hm HJ Hf|evs slots i c0 e0 Hm HJ Hi|evs ev p st s post HRes HS].
  - by left.
  - left. apply Joined_facts in HJ as (Hi & _).
    rewrite charges_issued_app. unfold charges_issued at 2. by rewrite Hi.
  - left. apply Joined_facts in HJ as (Hi' & _).
    rewrite !charges_issued_app. unfold charges_issued at 2. by rewrite Hi'.
  - pose proof (resolved_issues_nothing _ _ _ HRes) as (Hi & _).
    pose proof (settled_charges _ _ _ _ HS) as Hch.
    assert (charges_issued ((Issued <$> lookups) ++ evs ++ post) = charges_issued post) as ->.
    { rewrite !charges_issued_app. unfold charges_issued at 2. by rewrite Hi. }
    destruct (validated stored_customer ev p) as [[[[c' ev'] p'] b]|] eqn:Hv; [|by left].
    right. by exists evs, ev, p, post, c', ev', p', b.
Qed.

Lemma accepted_inv st s tr :
  Reached st s tr → charge_accepted tr →
  ∃ evs c ev p b id,
    Resolved evs (Some ev) (Some p) ∧
    validated stored_customer (Some ev) (Some p) = Some (c, ev, p, b) ∧
    ((∃ done w rest wevs,
        st = Running ∧ bookkeeping ev p b id = done ++ w :: rest ∧ Wrote s0 done wevs s ∧
        tr = (Issued <$> lookups) ++ evs ++
             ([Issued (charge_call c ev p b); Replied (charge_call c ev p b) (None, PCharge id)]
              ++ wevs ++ [Issued (Redis w)])) ∨
     (∃ wevs,
        st = Finished ∧ Wrote s0 (bookkeeping ev p b id) wevs s ∧
        tr = (Issued <$> lookups) ++ evs ++
             ([Issued (charge_call c ev p b); Replied (charge_call c ev p b) (None, PCharge id)]
              ++ wevs ++ [Sent (SendStatus 200)]))).
Proof.
  intros HR (c & v & Hc & Hin).
  destruct HR as [Hm|evs slots Hm HJ Hf|evs slots i c0 e0 Hm HJ Hi|evs ev p st s post HRes HS].
  - by apply elem_of_nil in Hin.
  - exfalso. rewrite replies_app in Hin. simpl in Hin.
    by apply (not_accepted_while_resolving _ _ _ _ HJ Hc) in Hin.
  - exfalso. rewrite !replies_app in Hin. simpl in Hin.
    apply elem_of_app in Hin as [Hin|[=]%list_elem_of_singleton].
    by apply (not_accepted_while_resolving _ _ _ _ HJ Hc) in Hin.
  - pose proof HRes as [_ HJ].
    rewrite !replies_app in Hin. simpl in Hin.
    apply elem_of_app in Hin as [Hin|Hin];
      [exfalso; by apply (not_accepted_while_resolving _ _ _ _ HJ Hc) in Hin|].
    destruct HS as [Hv|c1 ev1 p1 b Hv|c1 ev1 p1 b e1 Hv
                    |c1 ev1 p1 b id done w rest wevs s1 Hv Hb HW
                    |c1 ev1 p1 b id wevs s1 Hv HW].
    + by apply elem_of_nil in Hin.
    + by apply elem_of_nil in Hin.
    + by apply list_elem_of_singleton in Hin.
    + pose proof (validated_inv _ _ _ _ _ _ _ Hv) as (_ & -> & -> & _).
      exists evs, c1, ev1, p1, b, id. split; [done|]. split; [done|]. left.
      by exists done, w, rest, wevs.
    + pose proof (validated_inv _ _ _ _ _ _ _ Hv) as (_ & -> & -> & _).
      exists evs, c1, ev1, p1, b, id. split; [done|]. split; [done|]. right.
      by exists wevs.
Qed.

Abbreviation handler :=
  (create_contribution string_to_number JSON_stringify_contribution req_user body
     random1 random2 date_now).

(** ** The claims about create-contribution *)

(** C1 (as the code has it): once the three lookups have been answered with a
    truthy customer identifier, an event and a PAC, the PAC's identifier is
    looked for in the event's support list first: when it is there, the
    charge is made with support = true, whether or not the oppose list names
    it too; otherwise, when the oppose list names it, the charge is made with
    support = false; when neither list names it, the handler answers
    BadRequest and no charge is attempted. *)
Theorem support_follows_the_first_matching_list chs m customer ev p :
  run (boot handler s0) chs = Some m →
  (customer_lookup, (None, PStr customer)) ∈ replies (trace m) →
  str_truthy customer = true →
  (event_lookup, (None, PEvent ev)) ∈ replies (trace m) →
  (pac_lookup, (None, PPac p)) ∈ replies (trace m) →
  if bool_decide (pac_iden p ∈ supportPacs ev)
  then charges_issued (trace m) = [charge_call customer ev p true]
  else if bool_decide (pac_iden p ∈ opposePacs ev)
  then charges_issued (trace m) = [charge_call customer ev p false]
  else charges_issued (trace m) = [] ∧
       responses (trace m) = [reported_as BadRequest] ∧
       status (ctl m) = Finished.
Proof.
  intros Hrun Hc Ht He Hp.
  apply create_contribution_reached in Hrun.
  destruct (reached_after_lookups _ _ _ _ _ _ Hrun Hc He Hp)
    as (_ & evs & post & -> & HRes & HS).
  apply resolved_issues_nothing in HRes as (Hi & Hr & _).
  assert (charges_issued evs = []) as Hce by (unfold charges_issued; by rewrite Hi).
  rewrite !charges_issued_app, !responses_app, Hr, Hce.
  rewrite (settled_charges _ _ _ _ HS).
  unfold validated in *. rewrite Ht, support_of_spec in *.
  rewrite lookups_are_no_charges. simpl.
  destruct (bool_decide (pac_iden p ∈ supportPacs ev)); [done|].
  destruct (bool_decide (pac_iden p ∈ opposePacs ev)); [done|].
  by apply settled_invalid_inv in HS as (-> & _ & ->).
Qed.

(** C2: in every run of create-contribution in which the gateway accepted the
    charge, the handler does not abort, and once it has finished the one
    response it has sent is status 200, whatever the six bookkeeping writes
    were answered, the errors of the writes being what was logged; and from
    the moment the charge callback runs, any six outcomes of the writes, each
    a failure or the store's answer, lead to that response. *)
Theorem accepted_charge_ends_with_success chs m :
  run (boot handler s0) chs = Some m →
  charge_accepted (trace m) →
  status (ctl m) ≠ Aborted ∧
  (status (ctl m) = Finished →
     responses (trace m) = [SendStatus 200] ∧
     logged (trace m) = errors_answered (trace m)) ∧
  (∀ ev p b id s tr outs,
     length outs = 6%nat →
     Forall (λ o, store_outcome o = true) outs →
     ∃ m',
       run (resume (charge_callback JSON_stringify_contribution req_user body ev p b
                      random1 random2 date_now (None, PCharge id)) s tr)
         ((0%nat,.) <$> outs) = Some m' ∧
       status (ctl m') = Finished ∧
       responses (trace m') = responses tr ++ [SendStatus 200]).
Proof.
  intros Hrun (c & v & Hc & Hin). apply create_contribution_reached in Hrun.
  split; [|split].
  3: { intros ev p b id s tr outs Hlen Hall. rewrite charge_callback_charged.
       destruct (run_logged_series (bookkeeping ev p b id) (λ _ _, Res (SendStatus 200) Idle)
                   s tr outs Hlen Hall) as (evs & s1 & rs & HW & _ & Hr).
       eexists. split; [exact Hr|]. rewrite resume_Res, resume_Idle. cbn [ctl trace status].
       apply Wrote_facts in HW as (_ & HWr & _).
       split; [done|]. rewrite !responses_app, HWr. by rewrite app_nil_r. }
  all: destruct Hrun as [Hm|evs slots Hm HJ Hf|evs slots i c0 e0 Hm HJ Hi|evs ev p st s post HRes HS].
  all: try (exfalso; by apply elem_of_nil in Hin).
  all: try (exfalso; rewrite replies_app in Hin; simpl in Hin;
            by apply (not_accepted_while_resolving _ _ _ _ HJ Hc) in Hin).
  all: try (exfalso; rewrite !replies_app in Hin; simpl in Hin;
            apply elem_of_app in Hin as [Hin|[=]%list_elem_of_singleton];
            by apply (not_accepted_while_resolving _ _ _ _ HJ Hc) in Hin).
  all: pose proof HRes as [_ HJ]; apply resolved_issues_nothing in HRes as (Hi & Hr & Hlg);
    rewrite !replies_app in Hin; simpl in Hin;
    apply elem_of_app in Hin as [Hin|Hin];
    [exfalso; by apply (not_accepted_while_resolving _ _ _ _ HJ Hc) in Hin|].
  all: destruct HS as [Hv|c1 ev1 p1 b Hv|c1 ev1 p1 b e1 Hv
                    |c1 ev1 p1 b id done w rest wevs s1 Hv Hb HW
                    |c1 ev1 p1 b id wevs s1 Hv HW]; try done.
  all: try (exfalso; by apply elem_of_nil in Hin).
  all: try (exfalso; by apply list_elem_of_singleton in Hin).
  all: try (intros ?; discriminate).
  intros _. apply Wrote_facts in HW as (_ & HWr & _ & HWl).
  rewrite !responses_app, !logged_app, !errors_answered_app, Hr, Hlg, HWr, HWl.
  by rewrite (joined_no_errors _ _ HJ).
Qed.

Lemma one_write_in_flight st s tr :
  Reached st s tr →
  (length (writes_issued tr) ≤ S (length (writes_answered tr)))%nat.
Proof using Type.
  intros (ev & p & b & id & ws & _ & -> & Ha)%reached_writes.
  destruct Ha as [->|(ws' & w & -> & ->)]; rewrite !length_fmap, ?length_app; simpl; lia.
Qed.

Lemma bookkeeping_order st s tr :
  Reached st s tr →
  (∃ ev p b id, writes_issued tr `prefix_of` (Redis <$> bookkeeping ev p b id)) ∧
  writes_answered tr `prefix_of` writes_issued tr ∧
  (length (writes_issued tr) ≤ S (length (writes_answered tr)))%nat.
Proof.
  intros (ev & p & b & id & ws & [rest Hpre] & -> & Ha)%reached_writes.
  split; [|split].
  - exists ev, p, b, id. rewrite Hpre, fmap_app. by apply prefix_app_r.
  - destruct Ha as [->|(ws' & w & -> & ->)]; [done|]. rewrite fmap_app. by apply prefix_app_r.
  - destruct Ha as [->|(ws' & w & -> & ->)]; rewrite !length_fmap, ?length_app; simpl; lia.
Qed.

(** What the run has written once the gateway accepted the charge: the
    event, the PAC and the side are the ones the lookups returned, the
    charge is the one the gateway answered. *)
Lemma accepted_writes st s tr :
  Reached st s tr → charge_accepted tr →
  ∃ customer ev p b id,
    (event_lookup, (None, PEvent ev)) ∈ replies tr ∧
    (pac_lookup, (None, PPac p)) ∈ replies tr ∧
    support_of ev p = Some b ∧
    (charge_call customer ev p b, (None, PCharge id)) ∈ replies tr ∧
    ((st = Running ∧
      ∃ done w rest,
        bookkeeping ev p b id = done ++ w :: rest ∧
        writes_issued tr = Redis <$> (done ++ [w]) ∧
        writes_answered tr = Redis <$> done) ∨
     (st = Finished ∧
      writes_issued tr = Redis <$> bookkeeping ev p b id ∧
      writes_answered tr = Redis <$> bookkeeping ev p b id)).
Proof.
  intros HR Hacc.
  destruct (accepted_inv _ _ _ HR Hacc)
    as (evs & c & ev & p & b & id & HRes & Hv & Hcases).
  pose proof (resolved_replies _ _ _ HRes) as Hrep.
  pose proof HRes as [_ HJ]. apply joined_no_writes in HJ as [Hw1 Hw2].
  apply validated_inv in Hv as (_ & _ & _ & _ & Hs).
  assert (∀ post, (event_lookup, (None, PEvent ev)) ∈ replies ((Issued <$> lookups) ++ evs ++ post) ∧
                  (pac_lookup, (None, PPac p)) ∈ replies ((Issued <$> lookups) ++ evs ++ post))
    as Hlook.
  { intros post. rewrite !replies_app.
    split; apply elem_of_app; right; apply elem_of_app; left; rewrite Hrep.
    - apply elem_of_cons; right. by apply elem_of_cons; left.
    - apply elem_of_cons; right. apply elem_of_cons; right. by apply elem_of_cons; left. }
  exists c, ev, p, b, id.
  destruct Hcases as [(done & w & rest & wevs & -> & Hb & HW & ->)|(wevs & -> & HW & ->)].
  - destruct (Hlook ([Issued (charge_call c ev p b);
                      Replied (charge_call c ev p b) (None, PCharge id)]
                     ++ wevs ++ [Issued (Redis w)])) as [He Hp].
    split; [done|]. split; [done|]. split; [done|]. split.
    { rewrite !replies_app. apply elem_of_app; right. apply elem_of_app; right.
      simpl. by apply elem_of_cons; left. }
    left. split; [done|]. exists done, w, rest. split; [done|].
    pose proof (bookkeeping_writes ev p b id) as Hall. rewrite Hb in Hall.
    apply Forall_app in Hall as [Hd Hw]. apply Forall_cons in Hw as [Hw _].
    destruct (wrote_writes _ _ _ _ HW Hd) as [Hwi Hwa]. split.
    + rewrite !writes_issued_app, Hw1, Hwi, fmap_app. unfold writes_issued. simpl.
      rewrite filter_cons_True by (by rewrite Hw). done.
    + rewrite !writes_answered_app, Hw2, Hwa. by rewrite app_nil_r.
  - destruct (Hlook ([Issued (charge_call c ev p b);
                      Replied (charge_call c ev p b) (None, PCharge id)]
                     ++ wevs ++ [Sent (SendStatus 200)])) as [He Hp].
    split; [done|]. split; [done|]. split; [done|]. split.
    { rewrite !replies_app. apply elem_of_app; right. apply elem_of_app; right.
      simpl. by apply elem_of_cons; left. }
    right. split; [done|].
    destruct (wrote_writes _ _ _ _ HW (bookkeeping_writes _ _ _ _)) as [Hwi Hwa]. split.
    + rewrite !writes_issued_app, Hw1, Hwi. by rewrite app_nil_r.
    + rewrite !writes_answered_app, Hw2, Hwa. by rewrite app_nil_r.
Qed.

(** C3 (as the code has it): the six bookkeeping writes run in series, in the
    order of the task list: at any moment the writes issued are the first
    ones of the list, every one of them but possibly the last has been
    answered, so a write is issued only after the one before it was
    answered.  Once the gateway has accepted the charge the list is the one
    of the event and the PAC the lookups returned and of the charge the
    gateway answered; while the request runs exactly one write is in flight,
    and when it has finished all six have been issued and answered, whatever
    the earlier ones were answered. *)
Theorem bookkeeping_runs_in_series chs m :
  run (boot handler s0) chs = Some m →
  (∃ ev p b id, writes_issued (trace m) `prefix_of` (Redis <$> bookkeeping ev p b id)) ∧
  writes_answered (trace m) `prefix_of` writes_issued (trace m) ∧
  (length (writes_issued (trace m)) ≤ S (length (writes_answered (trace m))))%nat ∧
  (charge_accepted (trace m) →
     ∃ customer ev p b id,
       (event_lookup, (None, PEvent ev)) ∈ replies (trace m) ∧
       (pac_lookup, (None, PPac p)) ∈ replies (trace m) ∧
       support_of ev p = Some b ∧
       (charge_call customer ev p b, (None, PCharge id)) ∈ replies (trace m) ∧
       writes_issued (trace m) `prefix_of` (Redis <$> bookkeeping ev p b id) ∧
       (status (ctl m) = Running →
          ∃ w, writes_issued (trace m) = writes_answered (trace m) ++ [w]) ∧
       (status (ctl m) = Finished →
          writes_issued (trace m) = Redis <$> bookkeeping ev p b id ∧
          writes_answered (trace m) = Redis <$> bookkeeping ev p b id ∧
          length (writes_issued (trace m)) = 6%nat)).
Proof.
  intros Hrun%create_contribution_reached.
  destruct (bookkeeping_order _ _ _ Hrun) as (H1 & H2 & H3).
  split; [done|]. split; [done|]. split; [done|]. intros Hacc.
  destruct (accepted_writes _ _ _ Hrun Hacc)
    as (c & ev & p & b & id & He & Hp & Hs & Hch & Hcases).
  exists c, ev, p, b, id.
  split; [done|]. split; [done|]. split; [done|]. split; [done|].
  destruct Hcases as [(Hst & done & w & rest & Hb & Hwi & Hwa)|(Hst & Hwi & Hwa)].
  - split; [|split].
    + rewrite Hwi, Hb, (cons_middle w done rest), app_assoc, (fmap_app _ (done ++ [w])).
      by apply prefix_app_r.
    + intros _. exists (Redis w). by rewrite Hwi, Hwa, fmap_app.
    + intros Hf. congruence.
  - split; [|split].
    + by rewrite Hwi.
    + intros Hr. congruence.
    + intros _. by rewrite Hwi, Hwa.
Qed.

(** C4: in every run of create-contribution in which the gateway answered the
    charge with an error, the request has finished with the status of a
    PaymentGatewayError, the store is the one the request started with, and
    no write has been issued. *)
Theorem refused_charge_changes_nothing chs m :
  run (boot handler s0) chs = Some m →
  charge_refused (trace m) →
  status (ctl m) = Finished ∧
  responses (trace m) = [reported_as PaymentGatewayError] ∧
  store m = s0 ∧
  writes_issued (trace m) = [].
Proof.
  intros Hrun (c & e & v & Hc & Hin). apply create_contribution_reached in Hrun.
  pose proof (charge_is_no_lookup c Hc) as Hl.
  destruct Hrun as [Hm|evs slots Hm HJ Hf|evs slots i c0 e0 Hm HJ Hi|evs ev p st s post HRes HS].
  - by apply elem_of_nil in Hin.
  - rewrite replies_app in Hin. simpl in Hin.
    by apply (joined_replies _ _ _ _ HJ) in Hin as [_ [=]].
  - rewrite !replies_app in Hin. simpl in Hin.
    apply elem_of_app in Hin as [Hin|Hin].
    + by apply (joined_replies _ _ _ _ HJ) in Hin as [_ [=]].
    + apply list_elem_of_singleton in Hin as [= -> _ _].
      apply (lookup_slot_cmd _ _ _ _ _ HJ) in Hi. congruence.
  - pose proof HRes as [_ HJ].
    apply resolved_issues_nothing in HRes as (Hi & Hr & _).
    rewrite !replies_app in Hin. simpl in Hin.
    apply elem_of_app in Hin as [Hin|Hin].
    { by apply (joined_replies _ _ _ _ HJ) in Hin as [_ [=]]. }
    rewrite !responses_app, !writes_issued_app, Hr. unfold writes_issued at 2. rewrite Hi.
    destruct HS as [Hv|c1 ev1 p1 b Hv|c1 ev1 p1 b e1 Hv
                    |c1 ev1 p1 b id done w rest wevs s1 Hv Hb HW
                    |c1 ev1 p1 b id wevs s1 Hv HW].
    + by apply elem_of_nil in Hin.
    + by apply elem_of_nil in Hin.
    + done.
    + rewrite replies_app in Hin. simpl in Hin.
      apply elem_of_cons in Hin as [[=]|Hin]. rewrite replies_app, app_nil_r in Hin. simpl in Hin.
      assert (is_write c = true) as Hw.
      { eapply wrote_replies; [exact HW| |exact Hin].
        pose proof (bookkeeping_writes ev1 p1 b id) as Hall. rewrite Hb in Hall.
        by apply Forall_app in Hall as [? _]. }
      apply write_is_no_charge in Hw. congruence.
    + rewrite replies_app in Hin. simpl in Hin.
      apply elem_of_cons in Hin as [[=]|Hin]. rewrite replies_app, app_nil_r in Hin. simpl in Hin.
      assert (is_write c = true) as Hw.
      { eapply wrote_replies; [exact HW| |exact Hin]. apply bookkeeping_writes. }
      apply write_is_no_charge in Hw. congruence.
Qed.

Lemma amount_carried st s tr :
  Reached st s tr →
  Forall (λ c, ∃ customer meta,
            c = Service (ChargesCreate
                  (PrimFloat.mul (to_number string_to_number (body_amount body)) 100)
                  "usd" customer meta))
    (charges_issued tr) ∧
  Forall (records_amount JSON_stringify_contribution (body_amount body))
    (writes_issued tr) ∧
  (∀ ev p b id,
     amount (new_contribution body ev p b id random1 random2 date_now) = body_amount body).
Proof.
  intros Hrun. split; [|split; [|done]].
  - destruct Hrun as [Hm|evs slots Hm HJ Hf|evs slots i c0 e0 Hm HJ Hi|evs ev p st s post HRes HS].
    + constructor.
    + apply Joined_facts in HJ as (Hi & _).
      rewrite charges_issued_app. unfold charges_issued at 2. rewrite Hi. constructor.
    + apply Joined_facts in HJ as (Hi' & _).
      rewrite !charges_issued_app. unfold charges_issued at 2. rewrite Hi'. constructor.
    + apply resolved_issues_nothing in HRes as (Hi & _).
      rewrite !charges_issued_app. unfold charges_issued at 2. rewrite Hi.
      rewrite (settled_charges _ _ _ _ HS). simpl.
      destruct (validated stored_customer ev p) as [[[[c1 ev1] p1] b1]|]; repeat constructor.
      by eexists _, _.
  - apply reached_writes in Hrun as (ev & p & b & id & ws & [rest Hpre] & -> & _).
    pose proof (bookkeeping_records_amount ev p b id) as Hall.
    rewrite Hpre, fmap_app in Hall. by apply Forall_app in Hall as [? _].
Qed.

(** C8: in every run of create-contribution, a charge requested from the
    gateway is for the request's amount times 100, while the contribution
    record stored and the four increments carry the request's amount
    itself.  Once the lookups have been answered with a customer, an event
    and a PAC on one of the event's lists, the one charge requested is for
    the amount times 100; and when a request whose charge was accepted has
    finished, the six writes issued are the record that holds the amount,
    the entry of the user's list, and the four increments by the amount. *)
Theorem amount_is_converted_only_for_the_gateway chs m :
  run (boot handler s0) chs = Some m →
  Forall (λ c, ∃ customer meta,
            c = Service (ChargesCreate
                  (PrimFloat.mul (to_number string_to_number (body_amount body)) 100)
                  "usd" customer meta))
    (charges_issued (trace m)) ∧
  Forall (records_amount JSON_stringify_contribution (body_amount body))
    (writes_issued (trace m)) ∧
  (∀ ev p b id,
     amount (new_contribution body ev p b id random1 random2 date_now) = body_amount body) ∧
  (∀ customer ev p b,
     (customer_lookup, (None, PStr customer)) ∈ replies (trace m) →
     (event_lookup, (None, PEvent ev)) ∈ replies (trace m) →
     (pac_lookup, (None, PPac p)) ∈ replies (trace m) →
     str_truthy customer = true →
     support_of ev p = Some b →
     charges_issued (trace m) =
       [Service (ChargesCreate
          (PrimFloat.mul (to_number string_to_number (body_amount body)) 100) "usd" customer
          {| meta_eventIden := event_iden ev; meta_pacIden := pac_iden p;
             meta_support := b |})]) ∧
  (status (ctl m) = Finished → charge_accepted (trace m) →
     ∃ customer ev p b id ct,
       (charge_call customer ev p b, (None, PCharge id)) ∈ replies (trace m) ∧
       ct = new_contribution body ev p b id random1 random2 date_now ∧
       amount ct = body_amount body ∧
       writes_issued (trace m) =
         [ Redis (HSet contributions (contribution_iden ct)
                    (JSON_stringify_contribution ct));
           Redis (LPush (userReverseChronologicalContributions (user_iden req_user))
                    (contribution_iden ct));
           Redis (HIncrBy (eventContributionTotals (event_iden ev)) (support_key b)
                    (body_amount body));
           Redis (HIncrBy (politicianContributionTotals (politician ev)) (support_key b)
                    (body_amount body));
           Redis (IncrBy contributionsSum (body_amount body));
           Redis (IncrBy (userContributionsSum (user_iden req_user)) (body_amount body)) ]).
Proof.
  intros Hrun%create_contribution_reached.
  destruct (amount_carried _ _ _ Hrun) as (H1 & H2 & H3).
  split; [done|]. split; [done|]. split; [done|]. split.
  - intros customer ev p b Hc He Hp Ht Hs.
    destruct (reached_resolved _ _ _ _ _ _ Hrun Hc He Hp)
      as (evs & ev0 & p0 & post & Htr & HRes & HS & Hv1 & Hv2 & Hv3).
    destruct ev0 as [ev0|]; [|done]. destruct p0 as [p0|]; [|done].
    injection Hv2 as ->. injection Hv3 as ->.
    destruct stored_customer as [c0|] eqn:Hsc; [|done]. injection Hv1 as ->.
    apply resolved_issues_nothing in HRes as (Hi & _).
    rewrite Htr, !charges_issued_app. unfold charges_issued at 2. rewrite Hi.
    rewrite (settled_charges _ _ _ _ HS), lookups_are_no_charges.
    unfold validated. by rewrite Ht, Hs.
  - intros Hfin Hacc.
    destruct (accepted_writes _ _ _ Hrun Hacc)
      as (c & ev & p & b & id & _ & _ & _ & Hch & [(Hst & _)|(_ & Hwi & _)]); [congruence|].
    exists c, ev, p, b, id, (new_contribution body ev p b id random1 random2 date_now).
    split; [done|]. split; [done|]. split; [done|]. by rewrite Hwi.
Qed.

(** C10: the only check create-contribution makes on the amount is that it
    is truthy: whatever truthy value it has, once the lookups have been
    answered and the PAC is on one of the event's lists, the gateway is asked
    to charge that amount times 100. *)
Theorem amount_is_only_checked_for_truthiness (customer : string) (ev : Event) (p : Pac)
    (b : bool) :
  truthy (eventIden body) = true →
  truthy (pacIden body) = true →
  truthy (body_amount body) = true →
  hashes s0 !! (userIdenToStripeCustomerId, user_iden req_user) = Some customer →
  str_truthy customer = true →
  support_of ev p = Some b →
  ∃ m,
    run (boot handler s0)
      [(0%nat, Completes); (1%nat, Returns (PEvent ev)); (2%nat, Returns (PPac p))] = Some m ∧
    status (ctl m) = Running ∧
    responses (trace m) = [] ∧
    charges_issued (trace m) =
      [Service (ChargesCreate
         (PrimFloat.mul (to_number string_to_number (body_amount body)) 100) "usd" customer
         {| meta_eventIden := event_iden ev; meta_pacIden := pac_iden p; meta_support := b |})].
Proof.
  intros He Hp Ha Hc Hct Hs.
  unfold boot, create_contribution, missing_field. rewrite He, Hp, Ha. simpl.
  rewrite Hc. simpl. rewrite Hct. simpl. rewrite Hs. simpl.
  eexists. split; [done|]. done.
Qed.

End Contribution.


(** The run of C1 on the sample request, the event supporting the PAC. *)
Lemma support_follows_the_first_matching_list_witness :
  ∃ m,
    run (boot (Sample.contribute (JNum 25)) Sample.card_on_file)
      (Sample.lookups_answered Sample.rally) = Some m ∧
    charges_issued (trace m) =
      [Service (ChargesCreate 2500 "usd" "cus_1"
         {| meta_eventIden := "E1"; meta_pacIden := "P1"; meta_support := true |})].
Proof.
  exists (after (Sample.contribute (JNum 25)) Sample.card_on_file
            (Sample.lookups_answered Sample.rally)).
  split; [apply after_run; vm_compute; reflexivity|].
  apply (support_follows_the_first_matching_list Sample.not_numeric
    Sample.stringify_contribution Sample.alice (Sample.pledge (JNum 25)) "0.abc" "0.def"
    2000000 Sample.card_on_file (Sample.lookups_answered Sample.rally) _ "cus_1"
    Sample.rally Sample.committee).
  - apply after_run; vm_compute; reflexivity.
  - vm_compute. repeat constructor.
  - reflexivity.
  - vm_compute. repeat constructor.
  - vm_compute. repeat constructor.
Defined.

(** C1, as stated, fails when both lists name the PAC: the charge is made,
    with support = true, and the request ends with status 200. *)
Lemma listed_on_both_sides_is_charged_as_support :
  pac_iden Sample.committee ∈ supportPacs Sample.contested ∧
  pac_iden Sample.committee ∈ opposePacs Sample.contested ∧
  ∃ m,
    run (boot (Sample.contribute (JNum 25)) Sample.card_on_file)
      (Sample.writes_answered_one_failing Sample.contested) = Some m ∧
    charges_issued (trace m) =
      [Service (ChargesCreate 2500 "usd" "cus_1"
         {| meta_eventIden := "E1"; meta_pacIden := "P1"; meta_support := true |})] ∧
    responses (trace m) = [SendStatus 200].
Proof.
  split; [by left|]. split; [by left|].
  exists (after (Sample.contribute (JNum 25)) Sample.card_on_file
            (Sample.writes_answered_one_failing Sample.contested)).
  split; [apply after_run; vm_compute; reflexivity|].
  split; vm_compute; reflexivity.
Qed.

(** C10 at the amounts -5 and "lots": both pass the check, and the charge
    is requested for -500 and for NaN. *)
Lemma amount_is_only_checked_for_truthiness_witness :
  (∃ m,
     run (boot (Sample.contribute (JNum (-5))) Sample.card_on_file)
       [(0%nat, Completes); (1%nat, Returns (PEvent Sample.rally));
        (2%nat, Returns (PPac Sample.committee))] = Some m ∧
     status (ctl m) = Running ∧
     responses (trace m) = [] ∧
     charges_issued (trace m) =
       [Service (ChargesCreate (-500) "usd" "cus_1"
          {| meta_eventIden := "E1"; meta_pacIden := "P1"; meta_support := true |})]) ∧
  (∃ m,
     run (boot (Sample.contribute (JStr "lots")) Sample.card_on_file)
       [(0%nat, Completes); (1%nat, Returns (PEvent Sample.rally));
        (2%nat, Returns (PPac Sample.committee))] = Some m ∧
     status (ctl m) = Running ∧
     responses (trace m) = [] ∧
     charges_issued (trace m) =
       [Service (ChargesCreate PrimFloat.nan "usd" "cus_1"
          {| meta_eventIden := "E1"; meta_pacIden := "P1"; meta_support := true |})]).
Proof.
  split.
  - apply (amount_is_only_checked_for_truthiness Sample.not_numeric
      Sample.stringify_contribution Sample.alice (Sample.pledge (JNum (-5)))
      "0.abc" "0.def" 2000000 Sample.card_on_file "cus_1" Sample.rally
      Sample.committee true); reflexivity.
  - apply (amount_is_only_checked_for_truthiness Sample.not_numeric
      Sample.stringify_contribution Sample.alice (Sample.pledge (JStr "lots"))
      "0.abc" "0.def" 2000000 Sample.card_on_file "cus_1" Sample.rally
      Sample.committee true); reflexivity.
Defined.

(** The run of C2 on the sample request: the charge is accepted, the fourth
    write fails. *)
Lemma accepted_charge_ends_with_success_witness :
  ∃ m,
    run (boot (Sample.contribute (JNum 25)) Sample.card_on_file)
      (Sample.writes_answered_one_failing Sample.rally) = Some m ∧
    responses (trace m) = [SendStatus 200] ∧
    logged (trace m) = [ErrorObject "connection lost"].
Proof.
  exists (after (Sample.contribute (JNum 25)) Sample.card_on_file
            (Sample.writes_answered_one_failing Sample.rally)).
  split; [apply after_run; vm_compute; reflexivity|].
  destruct (accepted_charge_ends_with_success Sample.not_numeric
    Sample.stringify_contribution Sample.alice (Sample.pledge (JNum 25)) "0.abc" "0.def"
    2000000 Sample.card_on_file (Sample.writes_answered_one_failing Sample.rally)
    (after (Sample.contribute (JNum 25)) Sample.card_on_file
       (Sample.writes_answered_one_failing Sample.rally)))
    as (_ & H & _).
  - apply after_run; vm_compute; reflexivity.
  - exists (Service (ChargesCreate 2500 "usd" "cus_1"
      {| meta_eventIden := "E1"; meta_pacIden := "P1"; meta_support := true |})),
      (PCharge "ch_1").
    split; [reflexivity|]. vm_compute. repeat constructor.
  - destruct H as [H1 H2]; [vm_compute; reflexivity|].
    split; [exact H1|]. rewrite H2. vm_compute; reflexivity.
Defined.

(** The run of C3 on the sample request, the fourth write failing: the six
    writes have been issued, and each has been answered. *)
Lemma bookkeeping_runs_in_series_witness :
  ∃ m,
    run (boot (Sample.contribute (JNum 25)) Sample.card_on_file)
      (Sample.writes_answered_one_failing Sample.rally) = Some m ∧
    writes_answered (trace m) `prefix_of` writes_issued (trace m) ∧
    length (writes_issued (trace m)) = 6%nat ∧
    writes_answered (trace m) = writes_issued (trace m).
Proof.
  exists (after (Sample.contribute (JNum 25)) Sample.card_on_file
            (Sample.writes_answered_one_failing Sample.rally)).
  split; [apply after_run; vm_compute; reflexivity|].
  destruct (bookkeeping_runs_in_series Sample.not_numeric
    Sample.stringify_contribution Sample.alice (Sample.pledge (JNum 25)) "0.abc" "0.def"
    2000000 Sample.card_on_file (Sample.writes_answered_one_failing Sample.rally)
    (after (Sample.contribute (JNum 25)) Sample.card_on_file
       (Sample.writes_answered_one_failing Sample.rally)))
    as (_ & Hpre & _ & H).
  - apply after_run; vm_compute; reflexivity.
  - destruct H as (c & ev & p & b & id & _ & _ & _ & _ & _ & _ & Hfin).
    + exists (Service (ChargesCreate 2500 "usd" "cus_1"
        {| meta_eventIden := "E1"; meta_pacIden := "P1"; meta_support := true |})),
        (PCharge "ch_1").
      split; [reflexivity|]. vm_compute. repeat constructor.
    + destruct Hfin as (Hwi & Hwa & Hlen); [vm_compute; reflexivity|].
      split; [exact Hpre|]. split; [exact Hlen|]. rewrite Hwi. exact Hwa.
Defined.

(** C3, as stated, fails on the sample request: when the charge callback has
    run, the first write is the only one issued, there is no second pending
    call to answer, and no run ever has two writes in flight. *)
Lemma bookkeeping_is_not_fired_concurrently :
  (∃ m,
     run (boot (Sample.contribute (JNum 25)) Sample.card_on_file)
       (Sample.charge_accepted Sample.rally) = Some m ∧
     writes_issued (trace m) =
       [Redis (HSet contributions "abcdef" "contribution abcdef")] ∧
     writes_answered (trace m) = [] ∧
     step m (1%nat, Completes) = None) ∧
  (∀ chs m,
     run (boot (Sample.contribute (JNum 25)) Sample.card_on_file) chs = Some m →
     (length (writes_issued (trace m)) ≤ S (length (writes_answered (trace m))))%nat).
Proof.
  split.
  - exists (after (Sample.contribute (JNum 25)) Sample.card_on_file
              (Sample.charge_accepted Sample.rally)).
    split; [apply after_run; vm_compute; reflexivity|].
    repeat split; vm_compute; reflexivity.
  - intros chs m Hrun. eapply one_write_in_flight.
    by apply create_contribution_reached in Hrun.
Qed.

(** The run of C4 on the sample request, the gateway declining the card. *)
Lemma refused_charge_changes_nothing_witness :
  ∃ m,
    run (boot (Sample.contribute (JNum 25)) Sample.card_on_file)
      (Sample.charge_declined Sample.rally) = Some m ∧
    status (ctl m) = Finished ∧
    responses (trace m) = [SendStatus 400] ∧
    store m = Sample.card_on_file ∧
    writes_issued (trace m) = [].
Proof.
  exists (after (Sample.contribute (JNum 25)) Sample.card_on_file
            (Sample.charge_declined Sample.rally)).
  split; [apply after_run; vm_compute; reflexivity|].
  apply (refused_charge_changes_nothing Sample.not_numeric
    Sample.stringify_contribution Sample.alice (Sample.pledge (JNum 25)) "0.abc" "0.def"
    2000000 Sample.card_on_file (Sample.charge_declined Sample.rally)).
  - apply after_run; vm_compute; reflexivity.
  - exists (Service (ChargesCreate 2500 "usd" "cus_1"
      {| meta_eventIden := "E1"; meta_pacIden := "P1"; meta_support := true |})),
      "card declined"%string, PUndefined.
    split; [reflexivity|]. vm_compute. repeat constructor.
Defined.

(** The run of C8 on the sample request: 2500 is charged, 25 is recorded
    and counted. *)
Lemma amount_is_converted_only_for_the_gateway_witness :
  ∃ m,
    run (boot (Sample.contribute (JNum 25)) Sample.card_on_file)
      (Sample.writes_answered_one_failing Sample.rally) = Some m ∧
    charges_issued (trace m) =
      [Service (ChargesCreate 2500 "usd" "cus_1"
         {| meta_eventIden := "E1"; meta_pacIden := "P1"; meta_support := true |})] ∧
    Forall (records_amount Sample.stringify_contribution (JNum 25)) (writes_issued (trace m)) ∧
    ∃ ev b ct,
      amount ct = JNum 25 ∧
      writes_issued (trace m) =
        [ Redis (HSet contributions (contribution_iden ct)
                   (Sample.stringify_contribution ct));
          Redis (LPush (userReverseChronologicalContributions (user_iden Sample.alice))
                   (contribution_iden ct));
          Redis (HIncrBy (eventContributionTotals (event_iden ev)) (support_key b) (JNum 25));
          Redis (HIncrBy (politicianContributionTotals (politician ev)) (support_key b)
                   (JNum 25));
          Redis (IncrBy contributionsSum (JNum 25));
          Redis (IncrBy (userContributionsSum (user_iden Sample.alice)) (JNum 25)) ].
Proof.
  exists (after (Sample.contribute (JNum 25)) Sample.card_on_file
            (Sample.writes_answered_one_failing Sample.rally)).
  split; [apply after_run; vm_compute; reflexivity|]. split; [vm_compute; reflexivity|].
  destruct (amount_is_converted_only_for_the_gateway Sample.not_numeric
    Sample.stringify_contribution Sample.alice (Sample.pledge (JNum 25)) "0.abc" "0.def"
    2000000 Sample.card_on_file (Sample.writes_answered_one_failing Sample.rally)
    (after (Sample.contribute (JNum 25)) Sample.card_on_file
       (Sample.writes_answered_one_failing Sample.rally)))
    as (_ & Hall & _ & _ & H).
  - apply after_run; vm_compute; reflexivity.
  - split; [exact Hall|].
    destruct H as (c & ev & p & b & id & ct & _ & _ & Ha & Hwi).
    + vm_compute; reflexivity.
    + exists (Service (ChargesCreate 2500 "usd" "cus_1"
        {| meta_eventIden := "E1"; meta_pacIden := "P1"; meta_support := true |})),
        (PCharge "ch_1").
      split; [reflexivity|]. vm_compute. repeat constructor.
    + exists ev, b, ct. split; [exact Ha|exact Hwi].
Defined.

(** ** Every state of authenticate, and the claims about it *)

Section Authentication.

Variable JSON_stringify_user : User → string.
Variables (body : AuthenticateBody) (random1 random2 : string).
Variables (randomBytes : list Byte.byte) (date_now : float).
Variable s0 : Store.

Abbreviation Authenticating :=
  (Authenticating JSON_stringify_user body random1 random2 randomBytes date_now s0).
Abbreviation Identified :=
  (Identified JSON_stringify_user random1 random2 randomBytes date_now s0).
Abbreviation Registering :=
  (Registering JSON_stringify_user random1 random2 randomBytes date_now s0).
Abbreviation registration :=
  (registration JSON_stringify_user random1 random2 randomBytes date_now).
Abbreviation sign_in :=
  (authenticate JSON_stringify_user body random1 random2 randomBytes date_now).

Lemma authenticate_reached : Always Authenticating (boot sign_in s0).
Proof.
  unfold boot, authenticate, getFacebookUserInfo. rewrite resume_Do.
  apply always_waiting; [constructor|].
  intros o a s' Ha. apply answer_service in Ha as [-> [[e ->]|[v [-> Hr]]]].
  { rewrite resume_TypeError. apply always_aborted. constructor. }
  destruct v as [| | | |code is_valid| | | | | |code|]; try done.
  2: { destruct (code =? 200) eqn:Hcode.
       - apply Z.eqb_eq in Hcode as ->. rewrite resume_TypeError.
         apply always_aborted. by constructor.
       - rewrite resume_Res, resume_Idle. apply always_finished. by constructor. }
  destruct ((code =? 200) && truthy is_valid) eqn:Hvalid.
  2: { rewrite resume_Res, resume_Idle. apply always_finished. by constructor. }
  rewrite resume_Do. apply always_waiting; [by constructor|].
  intros o' a s' Ha. apply answer_service in Ha as [-> [[e ->]|[v [-> Hr']]]].
  { rewrite resume_TypeError. apply always_aborted. by constructor. }
  destruct v as [| | | | |code' info| | | | |code'|code']; try done.
  2: { destruct (code' =? 200) eqn:Hcode.
       - apply Z.eqb_eq in Hcode as ->. rewrite resume_TypeError.
         apply always_aborted. by constructor.
       - rewrite resume_Res, resume_Idle. apply always_finished. by constructor. }
  2: { destruct (code' =? 200); rewrite resume_Res, resume_Idle;
         apply always_finished; by constructor. }
  destruct (code' =? 200) eqn:Hcode.
  2: { rewrite resume_Res, resume_Idle. apply always_finished. by constructor. }
  apply Z.eqb_eq in Hcode as ->.
  pose proof (λ st s post, auth_identified JSON_stringify_user body random1 random2
    randomBytes date_now s0 code is_valid info st s post Hvalid) as Hid.
  rewrite resume_Do. apply always_waiting.
  { apply Hid. constructor. }
  intros o'' a s' Ha. apply answer_hget in Ha as [-> [[e ->] | ->]].
  { unfold fail_with. rewrite resume_Res, resume_ConsoleError, resume_Idle.
    apply always_finished. apply Hid. constructor. }
  fold (stored_user s0 info).
  destruct (payload_truthy (bulk_reply (stored_user s0 info))) eqn:Hknown.
  - destruct (stored_user s0 info) as [iden|] eqn:Hst; [|done]. simpl in Hknown.
    simpl bulk_reply. simpl as_string.
    rewrite resume_Do. apply always_waiting.
    { apply Hid. by constructor. }
    intros o3 a s' Ha. apply answer_hget in Ha as [-> [[e ->] | ->]].
    { unfold fail_with. rewrite resume_Res, resume_ConsoleError, resume_Idle.
      apply always_finished. apply Hid. by constructor. }
    fold (stored_token s0 iden).
    destruct (payload_truthy (bulk_reply (stored_token s0 iden))) eqn:Htok.
    + destruct (stored_token s0 iden) as [token|] eqn:Hstt; [|done]. simpl in Htok.
      simpl. rewrite resume_Res, resume_Idle. apply always_finished.
      apply Hid. by eapply identified_token_found.
    + rewrite resume_Res, resume_ConsoleError, resume_Idle. apply always_finished.
      apply Hid. by eapply identified_token_missing.
  - pose proof (λ st s post, identified_new JSON_stringify_user random1 random2
      randomBytes date_now s0 info st s post Hknown) as Hnew.
    change (series _ ?f) with (series (forwarded_write <$> registration info) f).
    apply always_forwarded_series.
    + intros done c rest evs s1 Hreg HS. norm_trace.
      apply Hid, Hnew. by eapply registering_writing.
    + intros done c rest evs s1 o3 e v s2 rs Hreg HS Ha.
      unfold fail_with. rewrite resume_Res, resume_ConsoleError, resume_Idle.
      apply always_finished. norm_trace.
      apply Hid, Hnew. by eapply registering_failed.
    + intros evs s1 rs HS. rewrite resume_Res, resume_Idle.
      apply always_finished. norm_trace.
      apply Hid, Hnew. by eapply registering_done.
Qed.

Lemma registration_writes info :
  Forall (λ w, is_write (Redis w) = true) (registration info).
Proof using Type. by repeat constructor. Qed.

Lemma stored_facts s ws evs s1 :
  Stored s ws evs s1 →
  issued evs = Redis <$> ws ∧ responses evs = [] ∧ logged evs = [] ∧
  (replies evs).*1 = Redis <$> ws ∧
  (∀ c a, (c, a) ∈ replies evs → a.1 = None).
Proof using Type.
  induction 1 as [|s c cs o v s1 evs s2 Ha HS (Hi & Hr & Hl & Hp & He)].
  - repeat split; try done. by intros c a ?%elem_of_nil.
  - unfold issued, responses, replies, logged in *. cbn.
    repeat split; try done; try (by f_equal).
    intros c' a Hin. apply elem_of_cons in Hin as [Heq|Hin]; [by simplify_eq|by eapply He].
Qed.

Lemma stored_writes s ws evs s1 :
  Stored s ws evs s1 → Forall (λ w, is_write (Redis w) = true) ws →
  writes_issued evs = Redis <$> ws ∧ writes_answered evs = Redis <$> ws.
Proof using Type.
  intros HS Hall. apply stored_facts in HS as (Hi & _ & _ & Hr & _).
  unfold writes_issued, writes_answered. rewrite Hi, Hr. by rewrite all_writes.
Qed.

Lemma last_snoc_fmap (ws : list RedisCmd) w : last (Redis <$> ws ++ [w]) = Some (Redis w).
Proof using Type. rewrite fmap_app. apply last_snoc. Qed.

Lemma registering_writes info st s post :
  Registering info st s post →
  ∃ ws,
    ws `prefix_of` registration info ∧
    writes_issued post = Redis <$> ws ∧
    (writes_answered post = Redis <$> ws ∨
     ∃ ws' w, ws = ws' ++ [w] ∧ writes_answered post = Redis <$> ws') ∧
    (∀ c e v, (c, (Some e, v)) ∈ replies post →
       st = Finished ∧ responses post = [SendStatus 500] ∧
       last (writes_issued post) = Some c).
Proof using Type.
  pose proof (registration_writes info) as Hall.
  destruct 1 as [done w rest evs s1 Hreg HS|done w rest evs s1 o e v s2 Hreg HS Ha
                 |evs s1 HS].
  - rewrite Hreg in Hall. apply Forall_app in Hall as [Hd Hw].
    apply Forall_cons in Hw as [Hw _].
    destruct (stored_writes _ _ _ _ HS Hd) as [Hwi Hwa].
    apply stored_facts in HS as (_ & _ & _ & _ & Hnone).
    exists (done ++ [w]). split; [|split; [|split]].
    + rewrite Hreg, (cons_middle w done rest), app_assoc. by apply prefix_app_r.
    + rewrite writes_issued_app, Hwi, fmap_app. unfold writes_issued. simpl.
      by rewrite filter_cons_True by (by rewrite Hw).
    + right. exists done, w. split; [done|]. by rewrite writes_answered_app, Hwa, app_nil_r.
    + intros c e v Hin. rewrite replies_app, app_nil_r in Hin. by apply Hnone in Hin.
  - rewrite Hreg in Hall. apply Forall_app in Hall as [Hd Hw].
    apply Forall_cons in Hw as [Hw _].
    destruct (stored_writes _ _ _ _ HS Hd) as [Hwi Hwa].
    apply stored_facts in HS as (_ & Hresp & _ & _ & Hnone).
    assert (writes_issued (evs ++ [Issued (Redis w); Replied (Redis w) (Some e, v);
              Sent (SendStatus 500); Logged (ErrorObject e)]) = Redis <$> (done ++ [w])) as Hi.
    { rewrite writes_issued_app, Hwi, fmap_app. unfold writes_issued. simpl.
      by rewrite filter_cons_True by (by rewrite Hw). }
    exists (done ++ [w]). split; [|split; [|split]].
    + rewrite Hreg, (cons_middle w done rest), app_assoc. by apply prefix_app_r.
    + done.
    + left. rewrite writes_answered_app, Hwa, fmap_app. unfold writes_answered. simpl.
      by rewrite filter_cons_True by (by rewrite Hw).
    + intros c e' v' Hin. rewrite replies_app in Hin. simpl in Hin.
      apply elem_of_app in Hin as [Hin|Hin]; [by apply Hnone in Hin|].
      apply list_elem_of_singleton in Hin as [= -> _ _].
      split; [done|]. split; [by rewrite responses_app, Hresp|].
      rewrite Hi. apply last_snoc_fmap.
  - destruct (stored_writes _ _ _ _ HS Hall) as [Hwi Hwa].
    apply stored_facts in HS as (_ & _ & _ & _ & Hnone).
    exists (registration info). split; [done|]. split; [|split].
    + by rewrite writes_issued_app, Hwi, app_nil_r.
    + left. by rewrite writes_answered_app, Hwa, app_nil_r.
    + intros c e v Hin. rewrite replies_app, app_nil_r in Hin. by apply Hnone in Hin.
Qed.

Lemma registration_order chs m :
  run (boot sign_in s0) chs = Some m →
  (writes_issued (trace m) = [] ∨
   ∃ info, (me_request body, (None, PMeResponse 200 info)) ∈ replies (trace m) ∧
           writes_issued (trace m) `prefix_of` (Redis <$> registration info)) ∧
  writes_answered (trace m) `prefix_of` writes_issued (trace m) ∧
  (length (writes_issued (trace m)) ≤ S (length (writes_answered (trace m))))%nat ∧
  (∀ c e v, is_write c = true → (c, (Some e, v)) ∈ replies (trace m) →
     status (ctl m) = Finished ∧
     responses (trace m) = [reported_as StorageError] ∧
     last (writes_issued (trace m)) = Some c).
Proof.
  intros Hrun%authenticate_reached.
  assert (Hquiet : ∀ tr : list Event_,
    writes_issued tr = [] → writes_answered tr = [] →
    (∀ c a, (c, a) ∈ replies tr → is_write c = false) →
    (writes_issued tr = [] ∨
     ∃ info, (me_request body, (None, PMeResponse 200 info)) ∈ replies tr ∧
             writes_issued tr `prefix_of` (Redis <$> registration info)) ∧
    writes_answered tr `prefix_of` writes_issued tr ∧
    (length (writes_issued tr) ≤ S (length (writes_answered tr)))%nat ∧
    (∀ c e v, is_write c = true → (c, (Some e, v)) ∈ replies tr →
       status (ctl m) = Finished ∧ responses tr = [reported_as StorageError] ∧
       last (writes_issued tr) = Some c)).
  { intros tr Hi Ha Hno. rewrite Hi, Ha. split; [by left|]. split; [done|].
    split; [simpl; lia|]. intros c e v Hw Hin. apply Hno in Hin. congruence. }
  destruct Hrun as [|e|code is_valid Hv|code is_valid Hv|code is_valid e Hv
                    |code is_valid code' info Hv Hc|code is_valid info st s post Hv HI
                    |code Hc| |code is_valid code' Hv Hc|code is_valid Hv|code is_valid code' Hv].
  1-6, 8-12: apply Hquiet; [done|done|]; intros c a Hin; simpl in Hin;
       repeat (apply elem_of_cons in Hin as [[= -> _]|Hin]; [reflexivity|]);
       by apply elem_of_nil in Hin.
  destruct HI as [|e|iden Hst Ht|iden e Hst Ht|iden token Hst Ht Hstt Htt|iden Hst Ht Hm
                  |st s post Hnew HR].
  1-6: apply Hquiet; [done|done|]; intros c a Hin; simpl in Hin;
       repeat (apply elem_of_cons in Hin as [[= -> _]|Hin]; [reflexivity|]);
       by apply elem_of_nil in Hin.
  clear Hquiet.
  apply registering_writes in HR as (ws & [rest Hpre] & Hi & Ha & Herr).
  rewrite !writes_issued_app, !writes_answered_app, !responses_app, !replies_app.
  change (writes_issued [_; _; _; _]) with (@nil Cmd).
  change (writes_issued [_; _]) with (@nil Cmd).
  change (writes_answered [_; _; _; _]) with (@nil Cmd).
  change (writes_answered [_; _]) with (@nil Cmd).
  change (responses [_; _; _; _]) with (@nil Response).
  change (responses [_; _]) with (@nil Response).
  rewrite !app_nil_l, Hi. split; [|split; [|split]].
  - right. exists info. split.
    + apply elem_of_app. left. simpl. right. by left.
    + rewrite Hpre, fmap_app. by apply prefix_app_r.
  - destruct Ha as [->|(ws' & w & -> & ->)]; [done|]. rewrite fmap_app. by apply prefix_app_r.
  - destruct Ha as [->|(ws' & w & -> & ->)]; rewrite !length_fmap, ?length_app; simpl; lia.
  - intros c e v Hw Hin. rewrite <- Hi. apply Herr with e v.
    simpl in Hin. repeat (apply elem_of_cons in Hin as [Heq|Hin]; [by simplify_eq|]). done.
Qed.

Lemma answer_completed s c o v s1 :
  answer s (Redis c) o = Some ((None, v), s1) → s1 = (redis_exec c s).1.
Proof using Type.
  destruct o as [e| |v']; simpl; try done.
  destruct (redis_exec c s) as [s' [e|v']]; by intros [= <- <-].
Qed.

Lemma stored_store s ws evs s1 :
  Stored s ws evs s1 → s1 = foldl (λ s c, (redis_exec c s).1) s ws.
Proof using Type.
  induction 1 as [|s c cs o v s1 evs s2 Ha HS IH]; [done|].
  simpl. by rewrite <- (answer_completed _ _ _ _ _ Ha).
Qed.


Lemma stored_commands s ws evs s1 c a :
  Stored s ws evs s1 → (c, a) ∈ replies evs → ∃ r, c = Redis r.
Proof using Type.
  intros (_ & _ & _ & Hr & _)%stored_facts Hin.
  assert (c ∈ (replies evs).*1) as Hc by (apply list_elem_of_fmap; by exists (c, a)).
  rewrite Hr in Hc. apply list_elem_of_fmap in Hc as (r & -> & _). by exists r.
Qed.

Lemma identified_commands info st s post c a :
  Identified info st s post → (c, a) ∈ replies post → ∃ r, c = Redis r.
Proof using Type.
  destruct 1 as [|e|iden Hst Ht|iden e Hst Ht|iden token Hst Ht Hstt Htt|iden Hst Ht Hm
                 |st s post Hnew HR]; simpl; intros Hin.
  1-6: repeat (apply elem_of_cons in Hin as [[= -> _]|Hin]; [by eexists|]);
       by apply elem_of_nil in Hin.
  apply elem_of_cons in Hin as [[= -> _]|Hin]; [by eexists|].
  destruct HR as [done w rest evs s1 Hreg HS|done w rest evs s1 o e v s2 Hreg HS Ha
                  |evs s1 HS]; rewrite replies_app in Hin; simpl in Hin;
    apply elem_of_app in Hin as [Hin|Hin]; try (by eapply stored_commands);
    try (by apply elem_of_nil in Hin).
  apply list_elem_of_singleton in Hin as [= -> _]. by eexists.
Qed.

Lemma identified_info st s tr id :
  Authenticating st s tr → identified_as tr id →
  ∃ code is_valid info post,
    info_id info = id ∧
    Identified info st s post ∧
    tr = [Issued (debug_request body);
          Replied (debug_request body) (None, PDebugResponse code is_valid);
          Issued (me_request body);
          Replied (me_request body) (None, PMeResponse 200 info)] ++ post.
Proof using Type.
  intros HA (token & info' & Hin & Hid).
  destruct HA as [|e|code is_valid Hv|code is_valid Hv|code is_valid e Hv
                  |code is_valid code' info Hv Hc|code is_valid info st s post Hv HI
                    |code Hc| |code is_valid code' Hv Hc|code is_valid Hv|code is_valid code' Hv];
    simpl in Hin.
  1-6, 8-12: repeat (apply elem_of_cons in Hin as [Heq|Hin]; [by simplify_eq|]);
       by apply elem_of_nil in Hin.
  apply elem_of_cons in Hin as [Heq|Hin]; [by simplify_eq|].
  apply elem_of_cons in Hin as [Heq|Hin].
  - simplify_eq. by exists code, is_valid, info, post.
  - by apply (identified_commands _ _ _ _ _ _ HI) in Hin as [r [=]].
Qed.



Lemma identified_by st s tr info :
  Authenticating st s tr →
  (me_request body, (None, PMeResponse 200 info)) ∈ replies tr →
  ∃ code is_valid post,
    Identified info st s post ∧
    tr = [Issued (debug_request body);
          Replied (debug_request body) (None, PDebugResponse code is_valid);
          Issued (me_request body);
          Replied (me_request body) (None, PMeResponse 200 info)] ++ post.
Proof using Type.
  intros HA Hin.
  destruct HA as [|e|code is_valid Hv|code is_valid Hv|code is_valid e Hv
                  |code is_valid code' info' Hv Hc|code is_valid info' st s post Hv HI
                  |code Hc| |code is_valid code' Hv Hc|code is_valid Hv|code is_valid code' Hv];
    simpl in Hin.
  1-6, 8-12: repeat (apply elem_of_cons in Hin as [Heq|Hin]; [by simplify_eq|]);
       by apply elem_of_nil in Hin.
  apply elem_of_cons in Hin as [Heq|Hin]; [by simplify_eq|].
  apply elem_of_cons in Hin as [Heq|Hin].
  - simplify_eq. by exists code, is_valid, post.
  - by apply (identified_commands _ _ _ _ _ _ HI) in Hin as [r [=]].
Qed.

Lemma registering_done_inv info st s post :
  Registering info st s post →
  (st = Finished → (∀ c e v, (Redis c, (Some e, v)) ∉ replies post) →
   responses post = [JsonAccessToken (to_hex randomBytes)]) ∧
  (∀ t, responses post = [JsonAccessToken t] →
     t = to_hex randomBytes ∧
     writes_issued post = Redis <$> registration info ∧
     writes_answered post = Redis <$> registration info).
Proof using Type.
  destruct 1 as [ws w rest evs s1 Hreg HS|ws w rest evs s1 o e v s2 Hreg HS Ha
                 |evs s1 HS];
    pose proof (stored_facts _ _ _ _ HS) as (_ & Hr & _).
  - split; [done|]. intros t Hresp. rewrite responses_app, Hr in Hresp. discriminate Hresp.
  - split.
    + intros _ Hno. exfalso. apply (Hno w e v). rewrite replies_app.
      apply elem_of_app. right. simpl. by left.
    + intros t Hresp. rewrite responses_app, Hr in Hresp. discriminate Hresp.
  - destruct (stored_writes _ _ _ _ HS (registration_writes info)) as [Hwi Hwa].
    split; [intros _ _; by rewrite responses_app, Hr|].
    intros t Hresp. rewrite responses_app, Hr in Hresp. injection Hresp as <-.
    split; [done|]. by rewrite writes_issued_app, writes_answered_app, Hwi, Hwa, !app_nil_r.
Qed.

(** C5 (as the code has it): for a new identity, authenticate writes the user
    record, then the user-iden-to-token map, then the token-to-user-iden map,
    then the external-identity-to-user-iden map, last: at any moment the
    writes issued are the first ones of that list, every one of them but
    possibly the last has been answered, and a write that is answered with
    an error is the last one issued, the request ending there with the
    status of a StorageError; a registration that finishes without a storage
    error returns the new token, and one that has returned it has issued all
    four writes, and had them answered, in that order. *)
Theorem registration_is_written_in_order chs m :
  run (boot sign_in s0) chs = Some m →
  (writes_issued (trace m) = [] ∨
   ∃ info, (me_request body, (None, PMeResponse 200 info)) ∈ replies (trace m) ∧
           writes_issued (trace m) `prefix_of` (Redis <$> registration info)) ∧
  writes_answered (trace m) `prefix_of` writes_issued (trace m) ∧
  (length (writes_issued (trace m)) ≤ S (length (writes_answered (trace m))))%nat ∧
  (∀ c e v, is_write c = true → (c, (Some e, v)) ∈ replies (trace m) →
     status (ctl m) = Finished ∧
     responses (trace m) = [reported_as StorageError] ∧
     last (writes_issued (trace m)) = Some c) ∧
  (∀ info,
     (me_request body, (None, PMeResponse 200 info)) ∈ replies (trace m) →
     payload_truthy (bulk_reply (hashes s0 !! (facebookUserIdToUserIden, info_id info)))
       = false →
     (status (ctl m) = Finished → no_storage_error (trace m) →
      responses (trace m) = [JsonAccessToken (to_hex randomBytes)]) ∧
     (∀ t, responses (trace m) = [JsonAccessToken t] →
        t = to_hex randomBytes ∧
        writes_issued (trace m) =
          [ Redis (HSet users (generateIden random1 random2)
                     (JSON_stringify_user (new_user info random1 random2 date_now)));
            Redis (HSet userIdenToAccessToken (generateIden random1 random2) t);
            Redis (HSet accessTokenToUserIden t (generateIden random1 random2));
            Redis (HSet facebookUserIdToUserIden (info_id info)
                     (generateIden random1 random2)) ] ∧
        writes_answered (trace m) = writes_issued (trace m))).
Proof.
  intros Hrun.
  destruct (registration_order _ _ Hrun) as (H1 & H2 & H3 & H4).
  do 4 (split; [done|]). clear H1 H2 H3 H4.
  apply authenticate_reached in Hrun.
  intros info Hin Hnew.
  destruct m as [mc ms mt]. cbn [ctl store trace] in *.
  destruct (identified_by _ _ _ _ Hrun Hin) as (code & is_valid & post & HI & ->).
  assert (∃ post', Registering info (status mc) ms post' ∧
            post = [Issued (user_lookup info);
                    Replied (user_lookup info)
                      (None, bulk_reply (stored_user s0 info))] ++ post' ∨
          (responses post = [] ∧ status mc = Running) ∨
          (∃ e v, (user_lookup info, (Some e, v)) ∈ replies post ∧
                  responses post = [SendStatus 500])) as Hcases.
  { destruct HI as [|e|iden Hst Ht|iden e Hst Ht|iden token Hst Ht Hstt Htt|iden Hst Ht Hm
                    |st s post' Hnew' HR].
    - exists []. right. by left.
    - exists []. right. right. exists e, PUndefined. split; [|done]. simpl. by left.
    - unfold stored_user in Hst. rewrite Hst in Hnew. simpl in Hnew. congruence.
    - unfold stored_user in Hst. rewrite Hst in Hnew. simpl in Hnew. congruence.
    - unfold stored_user in Hst. rewrite Hst in Hnew. simpl in Hnew. congruence.
    - unfold stored_user in Hst. rewrite Hst in Hnew. simpl in Hnew. congruence.
    - exists post'. by left. }
  destruct Hcases as (post' & [[HR ->]|[[Hr Hst]|(e & v & Herr & Hr)]]).
  - destruct (registering_done_inv _ _ _ _ HR) as [Hfin Htok]. split.
    + intros Hst Hno. rewrite !responses_app. simpl. apply Hfin; [done|].
      intros c e v Hc. apply (Hno c e v). rewrite !replies_app.
      apply elem_of_app. right. apply elem_of_app. by right.
    + intros t Hresp. rewrite !responses_app in Hresp. simpl in Hresp.
      destruct (Htok t Hresp) as (-> & Hwi & Hwa).
      rewrite !writes_issued_app, !writes_answered_app, Hwi, Hwa. done.
  - split.
    + intros Hfin. congruence.
    + intros t Hresp. rewrite responses_app, Hr in Hresp. discriminate Hresp.
  - split.
    + intros _ Hno. exfalso. apply (Hno (HGet facebookUserIdToUserIden (info_id info)) e v).
      rewrite replies_app. apply elem_of_app. by right.
    + intros t Hresp. rewrite responses_app, Hr in Hresp. discriminate Hresp.
Qed.

End Authentication.


(** The run of C5 on the sample sign-in, the third write failing. *)
Lemma registration_is_written_in_order_witness :
  ∃ m,
    run (boot Sample.sign_in empty_store) Sample.third_write_fails = Some m ∧
    status (ctl m) = Finished ∧
    responses (trace m) = [SendStatus 500] ∧
    last (writes_issued (trace m)) =
      Some (Redis (HSet accessTokenToUserIden Sample.token "abcdef")).
Proof.
  exists (after Sample.sign_in empty_store Sample.third_write_fails).
  split; [apply after_run; vm_compute; reflexivity|].
  destruct (registration_is_written_in_order Sample.stringify_user Sample.login
    "0.abc" "0.def" Sample.entropy 2000000 empty_store Sample.third_write_fails
    (after Sample.sign_in empty_store Sample.third_write_fails)) as (_ & _ & _ & H & _).
  - apply after_run; vm_compute; reflexivity.
  - apply (H (Redis (HSet accessTokenToUserIden Sample.token "abcdef"))
      "connection lost"%string PUndefined); [reflexivity|].
    vm_compute. repeat constructor.
Defined.

(** C5, as stated, fails on the sample sign-in: the second write is the
    user-iden-to-token map, the third the token-to-user-iden map. *)
Lemma token_map_is_written_third :
  ∃ m,
    run (boot Sample.sign_in empty_store) Sample.registered = Some m ∧
    responses (trace m) = [JsonAccessToken Sample.token] ∧
    writes_issued (trace m) =
      [ Redis (HSet users "abcdef" "user abcdef");
        Redis (HSet userIdenToAccessToken "abcdef" Sample.token);
        Redis (HSet accessTokenToUserIden Sample.token "abcdef");
        Redis (HSet facebookUserIdToUserIden "fb1" "abcdef") ].
Proof.
  exists (after Sample.sign_in empty_store Sample.registered).
  split; [apply after_run; vm_compute; reflexivity|].
  split; vm_compute; reflexivity.
Qed.



(** ** The claims about set-card *)

(** C7 fails on the code: for a user without a billing customer, when the
    customer-create call fails the callback reads [customer.id] of
    [undefined] and no response is sent, and when the mapping cannot be
    stored the status sent is 400, that of a gateway rejection, not that of
    a StorageError. *)
Theorem create_path_misreports_failures (req_user : User) (body : CardBody) (s : Store)
    (e : Error) (id : string) :
  truthy (cardToken body) = true →
  hashes s !! (userIdenToStripeCustomerId, user_iden req_user) = None →
  (∃ m,
     run (boot (set_card req_user body) s) [(0%nat, Completes); (0%nat, Fails e)] = Some m ∧
     status (ctl m) = Aborted ∧
     responses (trace m) = []) ∧
  (∃ m,
     run (boot (set_card req_user body) s)
       [(0%nat, Completes); (0%nat, Returns (PCustomer id)); (0%nat, Fails e)] = Some m ∧
     status (ctl m) = Finished ∧
     responses (trace m) = [reported_as PaymentGatewayError] ∧
     responses (trace m) ≠ [reported_as StorageError] ∧
     store m = s).
Proof.
  intros Ht Hc. unfold boot, set_card. rewrite Ht. simpl. rewrite Hc. simpl.
  split; eexists; (split; [reflexivity|]); done.
Qed.

(** C7's failures on the sample user, who has no billing customer yet. *)
Lemma create_path_misreports_failures_witness :
  (∃ m,
     run (boot (set_card Sample.alice Sample.new_card) empty_store)
       [(0%nat, Completes); (0%nat, Fails "connection lost")] = Some m ∧
     status (ctl m) = Aborted ∧
     responses (trace m) = []) ∧
  (∃ m,
     run (boot (set_card Sample.alice Sample.new_card) empty_store)
       [(0%nat, Completes); (0%nat, Returns (PCustomer "cus_2"));
        (0%nat, Fails "connection lost")] = Some m ∧
     status (ctl m) = Finished ∧
     responses (trace m) = [SendStatus 400] ∧
     responses (trace m) ≠ [SendStatus 500] ∧
     store m = empty_store).
Proof.
  apply (create_path_misreports_failures Sample.alice Sample.new_card empty_store);
    reflexivity.
Defined.

(** ** The claims about update-profile *)

Section Profile_claims.

Variable JSON_stringify_user : User → string.

(** C9: update-profile stores the profile in which each of name, occupation,
    employer, streetAddress and cityStateZip is the patch's value when that
    value is truthy (for a text field: present and not empty) and the old
    value otherwise, in which last-modified is the current time, and in which
    every other field is unchanged; a patch with only a non-empty name
    changes the name and last-modified and nothing else. *)
Theorem update_profile_patches (u : User) (body : ProfileBody) (date_now : float) (s : Store) :
  let now := PrimFloat.div date_now 1000 in
  let u' := patch_user u body now in
  issued (trace (boot (update_profile JSON_stringify_user u body date_now) s)) =
    [Redis (HSet users (user_iden u) (JSON_stringify_user u'))] ∧
  name u' = (if truthy (body_name body) then body_name body else name u) ∧
  occupation u' = (if truthy (body_occupation body) then body_occupation body else occupation u) ∧
  employer u' = (if truthy (body_employer body) then body_employer body else employer u) ∧
  streetAddress u' =
    (if truthy (body_streetAddress body) then body_streetAddress body else streetAddress u) ∧
  cityStateZip u' =
    (if truthy (body_cityStateZip body) then body_cityStateZip body else cityStateZip u) ∧
  user_modified u' = now ∧
  user_iden u' = user_iden u ∧ facebookId u' = facebookId u ∧ email u' = email u ∧
  user_created u' = user_created u ∧
  (∀ o : option string, truthy (text_field o) = true ↔ ∃ x, o = Some x ∧ x ≠ ""%string) ∧
  (∀ a x,
     patch_user u
       {| body_name := JStr (String a x); body_occupation := JUndefined;
          body_employer := JUndefined; body_streetAddress := JUndefined;
          body_cityStateZip := JUndefined |} now =
     with_profile u (JStr (String a x)) (occupation u) (employer u) (streetAddress u)
       (cityStateZip u) now).
Proof.
  simpl. repeat split; try done.
  - destruct o as [[|a x]|]; simpl; [done| |done]. intros _. by exists (String a x).
  - intros (x & -> & Hx). by destruct x.
Qed.

End Profile_claims.

(** * Further properties of the handlers *)

(** ** The answers of the store *)

Section Store_lemmas.

Lemma answer_hset s k f v o a s' :
  answer s (Redis (HSet k f v)) o = Some (a, s') →
  (∃ e, a = (Some e, PUndefined) ∧ s' = s) ∨
  (∃ r, a = (None, r) ∧ s' = set_hashes s (<[(k, f) := v]> (hashes s))).
Proof.
  destruct o as [e| |r]; simpl; [| |done].
  - intros [= <- <-]. left. eauto.
  - intros [= <- <-]. right. eauto.
Qed.

Lemma answer_accepted s c o v s1 :
  answer s (Redis c) o = Some ((None, v), s1) → redis_exec c s = (s1, inr v).
Proof.
  destruct o as [e| |v']; simpl; try done.
  destruct (redis_exec c s) as [s' [e|v']]; by intros [= <- <-].
Qed.

Lemma answer_refused s c o e v s1 :
  answer s (Redis c) o = Some ((Some e, v), s1) → s1 = s.
Proof.
  destruct o as [e'| |v']; simpl; try done; [by intros [= _ _ <-]|].
  destruct c; simpl; try done.
  - destruct (redis_integer increment); [|by intros [= _ _ <-]].
    destruct (in_int64 _); [done|by intros [= _ _ <-]].
  - destruct (redis_integer increment); [|by intros [= _ _ <-]].
    destruct (in_int64 _); [done|by intros [= _ _ <-]].
Qed.

(** A number is read by the store as the client prints it: 25 and 1e15 as
    themselves, 2^60 as the 1152921504606847000 that [String] gives for it,
    while 2.5, 1e21 (printed with an exponent) and the two ends of the
    64-bit range, printed as 9223372036854776000, are no integers for it. *)
Example amounts_are_read_as_printed :
  redis_integer (JNum 25) = Some 25 ∧
  redis_integer (JNum 1e15) = Some 1000000000000000 ∧
  redis_integer (JNum 0x1p60) = Some 1152921504606847000 ∧
  redis_integer (JNum 2.5) = None ∧
  redis_integer (JNum 1e21) = None ∧
  redis_integer (JNum 0x1p63) = None ∧
  redis_integer (JNum (-0x1p63)) = None ∧
  redis_integer (JStr "25") = Some 25 ∧
  redis_integer (JStr "25.0") = None.
Proof. repeat split; vm_compute; reflexivity. Qed.

Lemma hincrby_accepted s k f a v s1 :
  redis_exec (HIncrBy k f a) s = (s1, inr v) →
  ∃ n, redis_integer a = Some n ∧
    s1 = set_hash_counters s
           (<[(k, f) := default 0 (hash_counters s !! (k, f)) + n]> (hash_counters s)).
Proof.
  simpl. destruct (redis_integer a) as [n|]; [|done].
  destruct (in_int64 _); [|done]. intros [= <- _]. by exists n.
Qed.

Lemma incrby_accepted s k a v s1 :
  redis_exec (IncrBy k a) s = (s1, inr v) →
  ∃ n, redis_integer a = Some n ∧
    s1 = set_counters s (<[k := default 0 (counters s !! k) + n]> (counters s)).
Proof.
  simpl. destruct (redis_integer a) as [n|]; [|done].
  destruct (in_int64 _); [|done]. intros [= <- _]. by exists n.
Qed.

Lemma wrote_stored s ws evs s1 :
  Wrote s ws evs s1 → (∀ c e v, (Redis c, (Some e, v)) ∉ replies evs) → Stored s ws evs s1.
Proof.
  induction 1 as [|s c cs o e v s1 evs s2 Ha HW IH|s c cs o v s1 evs s2 Ha HW IH]; intros Hno.
  - constructor.
  - exfalso. apply (Hno c e v). simpl. by left.
  - econstructor; [done|]. apply IH. intros c' e' v' Hin. apply (Hno c' e' v'). simpl. by right.
Qed.

(** An increment whose argument is no integer is answered with an error,
    and no answer to it changes a counter. *)
Lemma wrote_no_increment s ws evs s1 :
  Wrote s ws evs s1 →
  Forall (λ c, match c with
               | HIncrBy _ _ a | IncrBy _ a => redis_integer a = None
               | _ => True
               end) ws →
  hash_counters s1 = hash_counters s ∧ counters s1 = counters s ∧
  (length (filter (λ c, is_increment c = true) ws) ≤ length (logged evs))%nat.
Proof.
  induction 1 as [|s c cs o e v s1 evs s2 Ha HW IH|s c cs o v s1 evs s2 Ha HW IH];
    intros Hall; [done|..]; apply Forall_cons in Hall as [Hc Hall];
    destruct (IH Hall) as (IH1 & IH2 & IH3).
  - apply answer_refused in Ha as ->. split; [done|]. split; [done|].
    change (logged (?a :: ?b :: Logged ?x :: evs)) with (x :: logged evs).
    destruct (is_increment c) eqn:Hi.
    + rewrite filter_cons_True by done. simpl. lia.
    + rewrite filter_cons_False by (by rewrite Hi). simpl. lia.
  - apply answer_accepted in Ha.
    change (logged (?a :: ?b :: evs)) with (logged evs).
    destruct c; simpl in Ha.
    + injection Ha as <- _. rewrite filter_cons_False by done. done.
    + injection Ha as <- _. rewrite filter_cons_False by done. done.
    + injection Ha as <- _. rewrite filter_cons_False by done. done.
    + by rewrite Hc in Ha.
    + by rewrite Hc in Ha.
Qed.

(** The writes of a contribution leave the hashes other than the
    contribution records as they were. *)
Lemma wrote_hashes s ws evs s1 k f :
  Wrote s ws evs s1 →
  Forall (λ c, match c with HSet k' _ _ => k' = contributions | _ => True end) ws →
  k ≠ contributions →
  hashes s1 !! (k, f) = hashes s !! (k, f).
Proof.
  intros HW Hall Hk. revert Hall.
  induction HW as [|s c cs o e v s1 evs s2 Ha HW IH|s c cs o v s1 evs s2 Ha HW IH];
    intros Hall; [done|..]; apply Forall_cons in Hall as [Hc Hall]; rewrite (IH Hall).
  - by apply answer_refused in Ha as ->.
  - apply answer_accepted in Ha. destruct c.
    + simpl in Ha. by injection Ha as <- _.
    + simpl in Ha. injection Ha as <- _. simpl. apply lookup_insert_ne. congruence.
    + simpl in Ha. by injection Ha as <- _.
    + by apply hincrby_accepted in Ha as (n & _ & ->).
    + by apply incrby_accepted in Ha as (n & _ & ->).
Qed.

End Store_lemmas.

(** ** Tokens and identifiers *)

Section Hex.

Lemma hex_pair_decodes b :
  let n := Byte.to_N b in
  match hex_value (hex_digit (N.div n 16)), hex_value (hex_digit (N.modulo n 16)) with
  | Some h, Some l => Byte.of_N (16 * h + l) = Some b
  | _, _ => False
  end.
Proof. by destruct b. Qed.

(** X8: the token is a faithful rendering of the random bytes: two hexadecimal
    digits per byte, from which the bytes can be read back, so that two
    different draws never give the same token. *)
Theorem hex_token_is_faithful (bytes bytes' : list Byte.byte) :
  String.length (to_hex bytes) = (2 * length bytes)%nat ∧
  of_hex (to_hex bytes) = Some bytes ∧
  (to_hex bytes = to_hex bytes' → bytes = bytes').
Proof.
  assert (Hround : ∀ bs, of_hex (to_hex bs) = Some bs).
  { induction bs as [|b bs IH]; [done|]. cbn [to_hex of_hex].
    pose proof (hex_pair_decodes b) as Hb. cbv zeta in Hb.
    destruct (hex_value (hex_digit (Byte.to_N b / 16))) as [h|]; [|done].
    destruct (hex_value (hex_digit (Byte.to_N b mod 16))) as [l|]; [|done].
    by rewrite IH, Hb. }
  split; [|split; [done|]].
  - induction bytes as [|b bs IH]; [done|]. cbn [to_hex String.length length]. rewrite IH. lia.
  - intros Heq. apply (f_equal of_hex) in Heq. rewrite !Hround in Heq. by injection Heq.
Qed.

End Hex.

Section Identifiers.

Lemma length_slice n s : String.length (slice n s) = (String.length s - n)%nat.
Proof.
  revert s. induction n as [|n IH]; intros s; simpl; [lia|].
  destruct s as [|a s]; [done|]. simpl. apply IH.
Qed.

Lemma length_append_string s1 s2 :
  String.length (String.append s1 s2) = (String.length s1 + String.length s2)%nat.
Proof. induction s1 as [|a s1 IH]; simpl; [done|]. by rewrite IH. Qed.

(** X9: the identifier keeps what each rendering of a random number has beyond
    its first two characters; it is empty exactly when neither rendering is
    longer than that, as when [Math.random()] returns 0 twice. *)
Theorem generated_identifier_length (random1 random2 : string) :
  String.length (generateIden random1 random2) =
    ((String.length random1 - 2) + (String.length random2 - 2))%nat ∧
  (generateIden random1 random2 = ""%string ↔
   (String.length random1 ≤ 2)%nat ∧ (String.length random2 ≤ 2)%nat).
Proof.
  assert (Hlen : String.length (generateIden random1 random2) =
    ((String.length random1 - 2) + (String.length random2 - 2))%nat).
  { unfold generateIden. by rewrite length_append_string, !length_slice. }
  split; [done|]. split.
  - intros Heq. rewrite Heq in Hlen. simpl in Hlen. lia.
  - intros [H1 H2]. destruct (generateIden random1 random2); [done|]. simpl in Hlen. lia.
Qed.

End Identifiers.

(** ** Further properties of authenticate *)

Section Authentication_further.

Variable JSON_stringify_user : User → string.
Variables (body : AuthenticateBody) (random1 random2 : string).
Variables (randomBytes : list Byte.byte) (date_now : float).
Variable s0 : Store.

Abbreviation Authenticating :=
  (Authenticating JSON_stringify_user body random1 random2 randomBytes date_now s0).
Abbreviation Identified :=
  (Identified JSON_stringify_user random1 random2 randomBytes date_now s0).
Abbreviation Registering :=
  (Registering JSON_stringify_user random1 random2 randomBytes date_now s0).
Abbreviation registration :=
  (registration JSON_stringify_user random1 random2 randomBytes date_now).
Abbreviation sign_in :=
  (authenticate JSON_stringify_user body random1 random2 randomBytes date_now).

Lemma store_commands_app tr1 tr2 :
  store_commands (tr1 ++ tr2) = store_commands tr1 ++ store_commands tr2.
Proof. unfold store_commands. by rewrite issued_app, filter_app. Qed.

Lemma identified_replies info st s post c a :
  Identified info st s post → (c, a) ∈ replies post → is_store_command c = true.
Proof.
  intros HI Hin. by destruct (identified_commands _ _ _ _ _ _ _ _ _ _ _ _ HI Hin) as [r ->].
Qed.

(** X1: what authenticate does with an answer of the identity provider that
    does not confirm the token.  An answer the callback can read (a
    debug_token response that is not a 200 saying the token is valid, a /me
    response that is not a 200 or whose body parses to a falsy value) is
    refused with status 400: the store is not consulted, nothing is logged,
    nothing changes.  A 200 whose body cannot be read makes the callback
    throw: no response is sent, and the store is not consulted either.
    Every answer of the provider is of one of these two kinds or confirms
    the token. *)
Theorem unverified_token_is_refused chs m :
  run (boot sign_in s0) chs = Some m →
  (token_refused body (trace m) →
     status (ctl m) = Finished ∧
     responses (trace m) = [SendStatus 400] ∧
     logged (trace m) = [] ∧
     store_commands (trace m) = [] ∧
     store m = s0) ∧
  (body_unreadable body (trace m) →
     status (ctl m) = Aborted ∧
     responses (trace m) = [] ∧
     store_commands (trace m) = [] ∧
     store m = s0) ∧
  (∀ v, (debug_request body, (None, v)) ∈ replies (trace m) →
     (∃ code is_valid,
        v = PDebugResponse code is_valid ∧ (code =? 200) && truthy is_valid = true) ∨
     token_refused body (trace m) ∨ body_unreadable body (trace m)) ∧
  (∀ v, (me_request body, (None, v)) ∈ replies (trace m) →
     (∃ info, v = PMeResponse 200 info) ∨
     token_refused body (trace m) ∨ body_unreadable body (trace m)).
Proof.
  intros Hrun%authenticate_reached.
  split; [|split; [|split]].
  - intros Href.
    destruct Hrun as [|e|code is_valid Hv|code is_valid Hv|code is_valid e Hv
                      |code is_valid code' info Hv Hc|code is_valid info st s post Hv HI
                      |code Hc| |code is_valid code' Hv Hc|code is_valid Hv|code is_valid code' Hv].
    all: destruct Href as [(c1 & v1 & Hin & Hbad)|[(c1 & Hin & Hbad)
           |[(c1 & i1 & Hin & Hbad)|[(c1 & Hin & Hbad)|(c1 & Hin)]]]]; simpl in Hin.
    all: repeat (apply elem_of_cons in Hin as [Heq|Hin]; [simplify_eq|]);
         try (by apply elem_of_nil in Hin); try done; try congruence.
    all: try (apply Z.eqb_neq in Hc; done).
    all: by apply (identified_replies _ _ _ _ _ _ HI) in Hin.
  - intros Hbad.
    destruct Hrun as [|e|code is_valid Hv|code is_valid Hv|code is_valid e Hv
                      |code is_valid code' info Hv Hc|code is_valid info st s post Hv HI
                      |code Hc| |code is_valid code' Hv Hc|code is_valid Hv|code is_valid code' Hv].
    all: destruct Hbad as [Hin|Hin]; simpl in Hin.
    all: repeat (apply elem_of_cons in Hin as [Heq|Hin]; [simplify_eq|]);
         try (by apply elem_of_nil in Hin); try done.
    all: by apply (identified_replies _ _ _ _ _ _ HI) in Hin.
  - intros v Hin.
    destruct Hrun as [|e|code is_valid Hv|code is_valid Hv|code is_valid e Hv
                      |code is_valid code' info Hv Hc|code is_valid info st s post Hv HI
                      |code Hc| |code is_valid code' Hv Hc|code is_valid Hv|code is_valid code' Hv].
    all: simpl in Hin.
    all: repeat (apply elem_of_cons in Hin as [Heq|Hin]; [simplify_eq|]);
         try (by apply elem_of_nil in Hin).
    all: try (by apply (identified_replies _ _ _ _ _ _ HI) in Hin).
    all: try (left; by eexists _, _).
    + right; left. left. exists code, is_valid. split; [simpl; by left|done].
    + right; left. right; left. exists code. split; [simpl; by left|].
      by apply Z.eqb_neq.
    + right; right. left. simpl. by left.
  - intros v Hin.
    destruct Hrun as [|e|code is_valid Hv|code is_valid Hv|code is_valid e Hv
                      |code is_valid code' info Hv Hc|code is_valid info st s post Hv HI
                      |code Hc| |code is_valid code' Hv Hc|code is_valid Hv|code is_valid code' Hv].
    all: simpl in Hin.
    all: repeat (apply elem_of_cons in Hin as [Heq|Hin]; [simplify_eq|]);
         try (by apply elem_of_nil in Hin).
    all: try (by apply (identified_replies _ _ _ _ _ _ HI) in Hin).
    all: try (left; by eexists).
    + right; left. do 2 right. left. exists code', info. split.
      * simpl. apply elem_of_cons; right. by apply elem_of_cons; left.
      * by apply Z.eqb_neq.
    + right; left. do 3 right. left. exists code'. split.
      * simpl. apply elem_of_cons; right. by apply elem_of_cons; left.
      * by apply Z.eqb_neq.
    + right; right. right. simpl. apply elem_of_cons; right. by apply elem_of_cons; left.
    + right; left. do 4 right. exists code'. simpl.
      apply elem_of_cons; right. by apply elem_of_cons; left.
Qed.

(** X2: when a request to the identity provider itself fails, the callback
    reads the status of a response that is not there: the handler throws, no
    response is sent and the store is not touched. *)
Theorem failed_provider_request_throws chs m c e v :
  run (boot sign_in s0) chs = Some m →
  (Service c, (Some e, v)) ∈ replies (trace m) →
  status (ctl m) = Aborted ∧
  responses (trace m) = [] ∧
  store_commands (trace m) = [] ∧
  store m = s0.
Proof.
  intros Hrun%authenticate_reached Hin.
  destruct Hrun as [|e'|code is_valid Hv|code is_valid Hv|code is_valid e' Hv
                    |code is_valid code' info Hv Hc|code is_valid info st s post Hv HI
                    |code Hc| |code is_valid code' Hv Hc|code is_valid Hv|code is_valid code' Hv].
  all: simpl in Hin.
  all: repeat (apply elem_of_cons in Hin as [Heq|Hin]; [simplify_eq|]);
       try (by apply elem_of_nil in Hin); try done.
  by apply (identified_replies _ _ _ _ _ _ HI) in Hin.
Qed.

Lemma registering_store info st s post :
  Registering info st s post →
  ∃ ws, ws `prefix_of` registration info ∧
        s = foldl (λ s c, (redis_exec c s).1) s0 ws ∧
        (ws = registration info →
         st = Finished ∧ responses post = [JsonAccessToken (to_hex randomBytes)]) ∧
        (responses post = [] ∨ responses post = [SendStatus 500] ∨
         ws = registration info).
Proof.
  destruct 1 as [ws w rest evs s1 Hreg HS|ws w rest evs s1 o e v s2 Hreg HS Ha
                 |evs s1 HS].
  - exists ws. pose proof (stored_facts _ _ _ _ HS) as (_ & Hr & _).
    split; [rewrite Hreg; by apply prefix_app_r|].
    split; [by apply stored_store in HS|]. split.
    + intros ->. apply (f_equal length) in Hreg. rewrite length_app in Hreg.
      simpl in Hreg. lia.
    + left. by rewrite responses_app, Hr.
  - exists ws. pose proof (stored_facts _ _ _ _ HS) as (_ & Hr & _).
    split; [rewrite Hreg; by apply prefix_app_r|].
    apply answer_refused in Ha as ->.
    split; [by apply stored_store in HS|]. split.
    + intros ->. apply (f_equal length) in Hreg. rewrite length_app in Hreg.
      simpl in Hreg. lia.
    + right. left. by rewrite responses_app, Hr.
  - exists (registration info). pose proof (stored_facts _ _ _ _ HS) as (_ & Hr & _).
    split; [done|]. split; [by apply stored_store in HS|].
    split; [|by right; right]. intros _. split; [done|]. by rewrite responses_app, Hr.
Qed.

Lemma prefix_of_registration info ws :
  ws `prefix_of` registration info →
  ws = registration info ∨
  Forall (λ c, ∃ k f v, c = HSet k f v ∧ k ≠ facebookUserIdToUserIden) ws.
Proof.
  intros [rest Hreg].
  let t := eval hnf in (registration info) in change (registration info) with t in *.
  destruct ws as [|w1 [|w2 [|w3 [|w4 [|w5 ws]]]]]; simplify_eq/=.
  1-4: right; repeat constructor; by eexists _, _, _.
  by left.
Qed.

Lemma other_writes_keep_identities ws s id' :
  Forall (λ c, ∃ k f v, c = HSet k f v ∧ k ≠ facebookUserIdToUserIden) ws →
  hashes (foldl (λ s c, (redis_exec c s).1) s ws) !! (facebookUserIdToUserIden, id') =
  hashes s !! (facebookUserIdToUserIden, id').
Proof.
  intros Hall. revert s. induction Hall as [|c ws (k & f & v & -> & Hk) _ IH]; intros s; [done|].
  simpl. rewrite IH. simpl. apply lookup_insert_ne. congruence.
Qed.

(** X6: the mapping from the external identity to the user is the last thing a
    registration writes: in every state of every run, the identities on
    record are those the request started with, unless the request has
    finished by returning the new token. A registration that fails half-way
    leaves the identity unregistered. *)
Theorem identity_is_registered_last chs m id' :
  run (boot sign_in s0) chs = Some m →
  hashes (store m) !! (facebookUserIdToUserIden, id') =
    hashes s0 !! (facebookUserIdToUserIden, id') ∨
  (status (ctl m) = Finished ∧
   responses (trace m) = [JsonAccessToken (to_hex randomBytes)]).
Proof.
  intros Hrun%authenticate_reached.
  destruct Hrun as [|e'|code is_valid Hv|code is_valid Hv|code is_valid e' Hv
                    |code is_valid code' info Hv Hc|code is_valid info st s post Hv HI
                    |code Hc| |code is_valid code' Hv Hc|code is_valid Hv|code is_valid code' Hv];
    try (by left).
  destruct HI as [|e|iden Hst Ht|iden e Hst Ht|iden token Hst Ht Hstt Htt|iden Hst Ht Hm
                  |st s post Hnew HR]; try (by left).
  apply registering_store in HR as (ws & Hpre & -> & Hfull & _).
  apply prefix_of_registration in Hpre as [->|Hall].
  - right. destruct Hfull as [-> Hr]; [done|]. split; [done|].
    rewrite !responses_app, Hr. done.
  - left. by apply other_writes_keep_identities.
Qed.

(** X7: a registration that returns its token has stored the four mappings
    consistently: the identity maps to the new user, the user to the token,
    the token back to the user, and the user's record is on file; nothing
    else in the store has changed. *)
Theorem registration_stores_consistent_maps chs m id t :
  run (boot sign_in s0) chs = Some m →
  identified_as (trace m) id →
  payload_truthy (bulk_reply (hashes s0 !! (facebookUserIdToUserIden, id))) = false →
  responses (trace m) = [JsonAccessToken t] →
  let iden := generateIden random1 random2 in
  t = to_hex randomBytes ∧
  hashes (store m) !! (facebookUserIdToUserIden, id) = Some iden ∧
  hashes (store m) !! (userIdenToAccessToken, iden) = Some t ∧
  hashes (store m) !! (accessTokenToUserIden, t) = Some iden ∧
  (∃ info, info_id info = id ∧
     hashes (store m) !! (users, iden) =
       Some (JSON_stringify_user (new_user info random1 random2 date_now))) ∧
  (∀ k, k ∉ [(users, iden); (userIdenToAccessToken, iden); (accessTokenToUserIden, t);
             (facebookUserIdToUserIden, id)] →
        hashes (store m) !! k = hashes s0 !! k) ∧
  lists (store m) = lists s0 ∧ hash_counters (store m) = hash_counters s0 ∧
  counters (store m) = counters s0.
Proof.
  intros Hrun%authenticate_reached Hid Hnew Hresp iden.
  destruct m as [mc ms mt]. cbn [ctl store trace] in *.
  destruct (identified_info _ _ _ _ _ _ _ _ _ _ _ Hrun Hid)
    as (code & is_valid & info & post & <- & HI & ->).
  rewrite responses_app in Hresp. simpl in Hresp.
  destruct HI as [|e|iden' Hst Ht|iden' e Hst Ht|iden' token Hst Ht Hstt Htt|iden' Hst Ht Hm
                  |st s post Hnew' HR]; try discriminate Hresp.
  { unfold stored_user in Hst. rewrite Hst in Hnew. simpl in Hnew. congruence. }
  rewrite responses_app in Hresp. simpl in Hresp.
  apply registering_store in HR as (ws & Hpre & -> & Hfull & [Hr|[Hr| ->]]);
    try (rewrite Hr in Hresp; discriminate Hresp).
  destruct Hfull as [_ Hr]; [done|]. rewrite Hr in Hresp. injection Hresp as <-.
  let t := eval hnf in (registration info) in change (registration info) with t.
  unfold new_token. simpl.
  split; [done|]. split; [by rewrite lookup_insert_eq|].
  split; [rewrite lookup_insert_ne by done; rewrite lookup_insert_ne by done;
          by rewrite lookup_insert_eq|].
  split; [rewrite lookup_insert_ne by done; by rewrite lookup_insert_eq|].
  split; [exists info; split; [done|]; rewrite !lookup_insert_ne by done;
          by rewrite lookup_insert_eq|].
  split; [|done]. intros k Hk.
  apply not_elem_of_cons in Hk as [Hk1 Hk]. apply not_elem_of_cons in Hk as [Hk2 Hk].
  apply not_elem_of_cons in Hk as [Hk3 Hk]. apply not_elem_of_cons in Hk as [Hk4 _].
  by rewrite !lookup_insert_ne.
Qed.

Lemma identified_known info st s post iden :
  Identified info st s post →
  stored_user s0 info = Some iden → str_truthy iden = true →
  s = s0 ∧ writes_issued post = [] ∧
  (st = Finished → (∀ c e v, (Redis c, (Some e, v)) ∉ replies post) →
   payload_truthy (bulk_reply (stored_token s0 iden)) = false →
   responses post = [SendStatus 500] ∧
   logged post = [MissingEntry iden userIdenToAccessToken]).
Proof.
  intros HI Hst Ht.
  destruct HI as [|e|iden' Hst' Ht'|iden' e Hst' Ht'|iden' token Hst' Ht' Hstt Htt
                  |iden' Hst' Ht' Hm|st s post Hnew HR].
  7: { rewrite Hst in Hnew. simpl in Hnew. congruence. }
  all: split; [done|]; split; [done|]; intros Hfin Hno Hmiss; try discriminate Hfin.
  - exfalso. eapply Hno. by left.
  - exfalso. eapply Hno. right. by left.
  - rewrite Hst in Hst'. injection Hst' as <-.
    rewrite Hstt in Hmiss. simpl in Hmiss. congruence.
  - rewrite Hst in Hst'. by injection Hst' as <-.
Qed.

(** X4: for an identity that is already registered, authenticate only reads:
    no write is ever issued and the store is never changed. *)
Theorem known_identity_is_only_read chs m id iden :
  run (boot sign_in s0) chs = Some m →
  identified_as (trace m) id →
  hashes s0 !! (facebookUserIdToUserIden, id) = Some iden →
  str_truthy iden = true →
  writes_issued (trace m) = [] ∧ store m = s0.
Proof.
  intros Hrun%authenticate_reached Hid Hst Ht.
  destruct m as [mc ms mt]. cbn [ctl store trace] in *.
  destruct (identified_info _ _ _ _ _ _ _ _ _ _ _ Hrun Hid)
    as (code & is_valid & info & post & <- & HI & ->).
  destruct (identified_known _ _ _ _ _ HI Hst Ht) as (-> & Hw & _).
  split; [|done]. by rewrite writes_issued_app, Hw.
Qed.

(** X5: a registered identity whose user has no token on record is an internal
    inconsistency: the request is answered 500, the missing entry is logged,
    and nothing is repaired. *)
Theorem missing_token_is_reported chs m id iden :
  run (boot sign_in s0) chs = Some m →
  status (ctl m) = Finished →
  identified_as (trace m) id →
  no_storage_error (trace m) →
  hashes s0 !! (facebookUserIdToUserIden, id) = Some iden →
  str_truthy iden = true →
  payload_truthy (bulk_reply (hashes s0 !! (userIdenToAccessToken, iden))) = false →
  responses (trace m) = [SendStatus 500] ∧
  logged (trace m) = [MissingEntry iden userIdenToAccessToken] ∧
  store m = s0.
Proof.
  intros Hrun%authenticate_reached Hfin Hid Hno Hst Ht Hm.
  destruct m as [mc ms mt]. cbn [ctl store trace] in *.
  destruct (identified_info _ _ _ _ _ _ _ _ _ _ _ Hrun Hid)
    as (code & is_valid & info & post & <- & HI & ->).
  destruct (identified_known _ _ _ _ _ HI Hst Ht) as (-> & _ & H).
  destruct H as [Hr Hl]; [done| |done|].
  { intros c e v Hin. apply (Hno c e v). rewrite replies_app. apply elem_of_app. by right. }
  by rewrite responses_app, logged_app, Hr, Hl.
Qed.

(** X3: every error the store answers to authenticate, on a lookup or on a
    write, ends the request with status 500 and is logged. *)
Theorem storage_error_ends_authenticate chs m c e v :
  run (boot sign_in s0) chs = Some m →
  (Redis c, (Some e, v)) ∈ replies (trace m) →
  status (ctl m) = Finished ∧
  responses (trace m) = [SendStatus 500] ∧
  logged (trace m) = [ErrorObject e].
Proof.
  intros Hrun%authenticate_reached Hin.
  destruct Hrun as [|e'|code is_valid Hv|code is_valid Hv|code is_valid e' Hv
                    |code is_valid code' info Hv Hc|code is_valid info st s post Hv HI
                    |code Hc| |code is_valid code' Hv Hc|code is_valid Hv|code is_valid code' Hv].
  1-6, 8-12: simpl in Hin;
       repeat (apply elem_of_cons in Hin as [Heq|Hin]; [by simplify_eq|]);
       by apply elem_of_nil in Hin.
  rewrite replies_app in Hin. simpl in Hin.
  apply elem_of_cons in Hin as [Heq|Hin]; [by simplify_eq|].
  apply elem_of_cons in Hin as [Heq|Hin]; [by simplify_eq|].
  assert (st = Finished ∧ responses post = [SendStatus 500] ∧ logged post = [ErrorObject e])
    as (-> & Hrp & Hlp); [|by rewrite responses_app, logged_app, Hrp, Hlp].
  destruct HI as [|e1|iden Hst Ht|iden e1 Hst Ht|iden token Hst Ht Hstt Htt|iden Hst Ht Hm
                  |st s post Hnew HR].
  1-6: simpl in Hin;
       repeat (apply elem_of_cons in Hin as [Heq|Hin]; [by simplify_eq|]);
       by apply elem_of_nil in Hin.
  simpl in Hin. apply elem_of_cons in Hin as [Heq|Hin]; [by simplify_eq|].
  destruct HR as [ws w rest evs s1 Hreg HS|ws w rest evs s1 o e1 v1 s2 Hreg HS Ha
                  |evs s1 HS];
    pose proof (stored_facts _ _ _ _ HS) as (_ & Hr & Hl & _ & Hnone);
    rewrite replies_app in Hin; apply elem_of_app in Hin as [Hin|Hin];
    try (by apply Hnone in Hin); simpl in Hin.
  - by apply elem_of_nil in Hin.
  - apply list_elem_of_singleton in Hin as [= -> -> ->].
    split; [done|]. rewrite !responses_app, !logged_app, Hr, Hl. done.
  - by apply elem_of_nil in Hin.
Qed.

End Authentication_further.

Ltac no_error_replied :=
  let c := fresh "c" in let e := fresh "e" in let v := fresh "v" in
  let Hin := fresh "Hin" in let Heq := fresh "Heq" in
  intros c e v Hin; vm_compute in Hin;
  repeat (apply elem_of_cons in Hin as [Heq|Hin]; [discriminate Heq|]);
  by apply elem_of_nil in Hin.

(** A token the identity provider does not confirm, and an answer that is
    not JSON, on the sample sign-in. *)
Lemma unverified_token_is_refused_witness :
  (∃ m,
     run (boot Sample.sign_in empty_store) Scenario.token_rejected = Some m ∧
     status (ctl m) = Finished ∧
     responses (trace m) = [SendStatus 400] ∧
     logged (trace m) = [] ∧
     store_commands (trace m) = [] ∧
     store m = empty_store) ∧
  (∃ m,
     run (boot Sample.sign_in empty_store) Scenario.body_garbled = Some m ∧
     status (ctl m) = Aborted ∧
     responses (trace m) = [] ∧
     store_commands (trace m) = [] ∧
     store m = empty_store).
Proof.
  split.
  - exists (after Sample.sign_in empty_store Scenario.token_rejected).
    split; [apply after_run; vm_compute; reflexivity|].
    apply (unverified_token_is_refused Sample.stringify_user Sample.login "0.abc" "0.def"
      Sample.entropy 2000000 empty_store Scenario.token_rejected).
    + apply after_run; vm_compute; reflexivity.
    + left. exists 200, (JBool false). split; [|reflexivity].
      vm_compute. repeat constructor.
  - exists (after Sample.sign_in empty_store Scenario.body_garbled).
    split; [apply after_run; vm_compute; reflexivity|].
    apply (unverified_token_is_refused Sample.stringify_user Sample.login "0.abc" "0.def"
      Sample.entropy 2000000 empty_store Scenario.body_garbled).
    + apply after_run; vm_compute; reflexivity.
    + left. vm_compute. repeat constructor.
Defined.

(** The request to the identity provider fails, on the sample sign-in. *)
Lemma failed_provider_request_throws_witness :
  ∃ m,
    run (boot Sample.sign_in empty_store) Scenario.provider_unreachable = Some m ∧
    status (ctl m) = Aborted ∧
    responses (trace m) = [] ∧
    store_commands (trace m) = [] ∧
    store m = empty_store.
Proof.
  exists (after Sample.sign_in empty_store Scenario.provider_unreachable).
  split; [apply after_run; vm_compute; reflexivity|].
  apply (failed_provider_request_throws Sample.stringify_user Sample.login "0.abc" "0.def"
    Sample.entropy 2000000 empty_store Scenario.provider_unreachable _
    (RequestGet (DebugToken (JStr "fb-token"))) "socket hang up"%string PUndefined).
  - apply after_run; vm_compute; reflexivity.
  - vm_compute. repeat constructor.
Defined.

(** The sample registration whose third write fails: the user and the token
    are on record, the identity is not. *)
Lemma identity_is_registered_last_witness :
  ∃ m,
    run (boot Sample.sign_in empty_store) Sample.third_write_fails = Some m ∧
    responses (trace m) = [SendStatus 500] ∧
    hashes (store m) !! (userIdenToAccessToken, "abcdef"%string) = Some Sample.token ∧
    hashes (store m) !! (facebookUserIdToUserIden, "fb1"%string) = None.
Proof.
  exists (after Sample.sign_in empty_store Sample.third_write_fails).
  split; [apply after_run; vm_compute; reflexivity|].
  split; [vm_compute; reflexivity|]. split; [vm_compute; reflexivity|].
  destruct (identity_is_registered_last Sample.stringify_user Sample.login "0.abc" "0.def"
    Sample.entropy 2000000 empty_store Sample.third_write_fails
    (after Sample.sign_in empty_store Sample.third_write_fails) "fb1") as [H|[_ H]].
  - apply after_run; vm_compute; reflexivity.
  - exact H.
  - vm_compute in H. discriminate H.
Defined.

(** The sample registration that succeeds. *)
Lemma registration_stores_consistent_maps_witness :
  ∃ m,
    run (boot Sample.sign_in empty_store) Sample.registered = Some m ∧
    hashes (store m) !! (facebookUserIdToUserIden, "fb1"%string) = Some "abcdef"%string ∧
    hashes (store m) !! (userIdenToAccessToken, "abcdef"%string) = Some Sample.token ∧
    hashes (store m) !! (accessTokenToUserIden, Sample.token) = Some "abcdef"%string.
Proof.
  exists (after Sample.sign_in empty_store Sample.registered).
  split; [apply after_run; vm_compute; reflexivity|].
  pose proof (registration_stores_consistent_maps Sample.stringify_user Sample.login
    "0.abc" "0.def" Sample.entropy 2000000 empty_store Sample.registered
    (after Sample.sign_in empty_store Sample.registered) "fb1" Sample.token) as H.
  cbv zeta in H. destruct H as (_ & H1 & H2 & H3 & _).
  - apply after_run; vm_compute; reflexivity.
  - exists (JStr "fb-token"), Sample.identity. split; [|reflexivity].
    vm_compute. repeat constructor.
  - reflexivity.
  - vm_compute; reflexivity.
  - split; [exact H1|]. split; [exact H2|exact H3].
Defined.

(** The sample sign-in for an identity that is registered. *)
Lemma known_identity_is_only_read_witness :
  ∃ m,
    run (boot Sample.sign_in Scenario.enrolled) Sample.recognised = Some m ∧
    responses (trace m) = [JsonAccessToken "t0k3n"] ∧
    writes_issued (trace m) = [] ∧
    store m = Scenario.enrolled.
Proof.
  exists (after Sample.sign_in Scenario.enrolled Sample.recognised).
  split; [apply after_run; vm_compute; reflexivity|].
  split; [vm_compute; reflexivity|].
  apply (known_identity_is_only_read Sample.stringify_user Sample.login "0.abc" "0.def"
    Sample.entropy 2000000 Scenario.enrolled Sample.recognised _ "fb1" "u1").
  - apply after_run; vm_compute; reflexivity.
  - exists (JStr "fb-token"), Sample.identity. split; [|reflexivity].
    vm_compute. repeat constructor.
  - reflexivity.
  - reflexivity.
Defined.

(** The sample sign-in for a registered identity whose user has no token. *)
Lemma missing_token_is_reported_witness :
  ∃ m,
    run (boot Sample.sign_in Scenario.dangling) Sample.recognised = Some m ∧
    responses (trace m) = [SendStatus 500] ∧
    logged (trace m) = [MissingEntry "u1" userIdenToAccessToken] ∧
    store m = Scenario.dangling.
Proof.
  exists (after Sample.sign_in Scenario.dangling Sample.recognised).
  split; [apply after_run; vm_compute; reflexivity|].
  apply (missing_token_is_reported Sample.stringify_user Sample.login "0.abc" "0.def"
    Sample.entropy 2000000 Scenario.dangling Sample.recognised _ "fb1" "u1").
  - apply after_run; vm_compute; reflexivity.
  - vm_compute; reflexivity.
  - exists (JStr "fb-token"), Sample.identity. split; [|reflexivity].
    vm_compute. repeat constructor.
  - no_error_replied.
  - reflexivity.
  - reflexivity.
  - reflexivity.
Defined.

(** The lookup of the user fails, on the sample sign-in. *)
Lemma storage_error_ends_authenticate_witness :
  ∃ m,
    run (boot Sample.sign_in empty_store) Scenario.lookup_fails = Some m ∧
    status (ctl m) = Finished ∧
    responses (trace m) = [SendStatus 500] ∧
    logged (trace m) = [ErrorObject "connection lost"].
Proof.
  exists (after Sample.sign_in empty_store Scenario.lookup_fails).
  split; [apply after_run; vm_compute; reflexivity|].
  apply (storage_error_ends_authenticate Sample.stringify_user Sample.login "0.abc" "0.def"
    Sample.entropy 2000000 empty_store Scenario.lookup_fails _
    (HGet facebookUserIdToUserIden "fb1") "connection lost"%string PUndefined).
  - apply after_run; vm_compute; reflexivity.
  - vm_compute. repeat constructor.
Defined.

(** ** Properties of set-card *)

Section Billing_lemmas.

Variables (req_user : User) (body : CardBody) (s0 : Store).

Lemma set_card_reached : Always (Billing req_user body s0) (boot (set_card req_user body) s0).
Proof.
  unfold boot, set_card. destruct (truthy (cardToken body)) eqn:Ht; simpl negb; cbv iota.
  2: { rewrite resume_Res, resume_Idle. apply always_finished. by constructor. }
  rewrite resume_Do. apply always_waiting; [by constructor|].
  intros o a s' Ha. apply answer_hget in Ha as [-> [[e ->] | ->]].
  { unfold fail_with. rewrite resume_Res, resume_ConsoleError, resume_Idle.
    apply always_finished. by constructor. }
  fold (billing_customer req_user s0).
  pose proof (λ st s post, billing_carded req_user body s0 st s post Ht) as Hc.
  destruct (payload_truthy (bulk_reply (billing_customer req_user s0))) eqn:Hknown.
  - destruct (billing_customer req_user s0) as [c|] eqn:Hst; [|done]. simpl in Hknown.
    simpl bulk_reply. simpl as_string.
    rewrite resume_Do. apply always_waiting.
    { apply Hc. by constructor. }
    intros o' a s' Ha. apply answer_service in Ha as [-> [[e ->]|[v [-> Hr]]]].
    + unfold fail_with. rewrite resume_Res, resume_ConsoleError, resume_Idle.
      apply always_finished. apply Hc. by constructor.
    + destruct v; try done. rewrite resume_Res, resume_Idle.
      apply always_finished. apply Hc. by constructor.
  - rewrite resume_Do. apply always_waiting.
    { apply Hc. by constructor. }
    intros o' a s' Ha. apply answer_service in Ha as [-> [[e ->]|[v [-> Hr]]]].
    + simpl. rewrite resume_TypeError. apply always_aborted. apply Hc. by constructor.
    + destruct v; try done. simpl prop_id. cbv iota. rewrite resume_Do.
      apply always_waiting.
      { apply Hc. by constructor. }
      intros o'' a s' Ha. apply answer_hset in Ha as [(e & -> & ->)|(r & -> & ->)].
      * unfold fail_with. rewrite resume_Res, resume_ConsoleError, resume_Idle.
        apply always_finished. apply Hc. by constructor.
      * rewrite resume_Res, resume_Idle. apply always_finished.
        apply Hc. by constructor.
Qed.

Lemma carded_facts st s post :
  Carded req_user body s0 st s post →
  ∀ c a, (c, a) ∈ replies post → c ≠ billing_lookup req_user.
Proof.
  intros HC c a Hin. destruct HC; simpl in Hin;
    repeat (apply elem_of_cons in Hin as [Heq|Hin]; [by simplify_eq|]);
    by apply elem_of_nil in Hin.
Qed.

(** X10: set-card with a missing card token is rejected before any call is made,
    and a failed lookup of the customer is a server failure: the gateway is
    not called and the store is not changed. *)
Theorem set_card_rejections chs m :
  run (boot (set_card req_user body) s0) chs = Some m →
  (truthy (cardToken body) = false →
     status (ctl m) = Finished ∧ responses (trace m) = [SendStatus 400] ∧
     issued (trace m) = [] ∧ store m = s0) ∧
  (∀ e v, (billing_lookup req_user, (Some e, v)) ∈ replies (trace m) →
     status (ctl m) = Finished ∧ responses (trace m) = [SendStatus 500] ∧
     logged (trace m) = [ErrorObject e] ∧
     issued (trace m) = [billing_lookup req_user] ∧ store m = s0).
Proof.
  intros Hrun%set_card_reached.
  destruct Hrun as [Ht|Ht|e Ht|st s post Ht HC]; (split; [intros Hf|intros e' v' Hin]);
    try congruence; try done; simpl in Hin.
  all: try (by apply elem_of_nil in Hin).
  - apply elem_of_cons in Hin as [Heq|Hin]; [by simplify_eq|]. by apply elem_of_nil in Hin.
  - apply elem_of_cons in Hin as [Heq|Hin]; [by simplify_eq|].
    by apply (carded_facts _ _ _ HC) in Hin.
Qed.

(** X11: for a user who has a billing customer, set-card only updates that
    customer at the gateway: it creates no customer and never changes the
    store; a gateway error is answered 400 and logged, a success 200. *)
Theorem set_card_updates_the_stored_customer chs m c :
  run (boot (set_card req_user body) s0) chs = Some m →
  truthy (cardToken body) = true →
  billing_customer req_user s0 = Some c →
  str_truthy c = true →
  store m = s0 ∧
  issued (trace m) `prefix_of` [billing_lookup req_user; customer_update body c] ∧
  (∀ e v, (customer_update body c, (Some e, v)) ∈ replies (trace m) →
     status (ctl m) = Finished ∧ responses (trace m) = [SendStatus 400] ∧
     logged (trace m) = [ErrorObject e]) ∧
  (∀ v, (customer_update body c, (None, v)) ∈ replies (trace m) →
     status (ctl m) = Finished ∧ responses (trace m) = [SendStatus 200] ∧
     logged (trace m) = []).
Proof.
  intros Hrun%set_card_reached Ht Hc Hct.
  destruct Hrun as [Ht'|Ht'|e Ht'|st s post Ht' HC]; [congruence|..].
  - split; [done|]. split; [by exists [customer_update body c]|].
    split; intros; by apply elem_of_nil in H.
  - split; [done|]. split; [by exists [customer_update body c]|].
    split; [intros e' v' Hin|intros v' Hin]; simpl in Hin;
      apply elem_of_cons in Hin as [Heq|Hin]; try (by simplify_eq);
      by apply elem_of_nil in Hin.
  - destruct HC as [c' Hc' _|c' e Hc' _|c' id Hc' _|Hn|e Hn|id Hn|id e Hn|id v Hn];
      rewrite Hc in *; simpl bulk_reply in *;
      try (simpl in Hn; congruence); injection Hc' as <-.
    all: split; [done|]; split; [by apply prefix_of_nil_r || by exists []|].
    all: split; [intros e' v' Hin|intros v' Hin]; simpl in Hin;
      repeat (apply elem_of_cons in Hin as [Heq|Hin]; [by simplify_eq|]);
      by apply elem_of_nil in Hin.
Qed.

(** X12: when set-card answers 200 the user has a billing customer on record:
    the one already stored, left as it was, or the one the gateway has just
    created. *)
Theorem set_card_success_leaves_a_customer chs m :
  run (boot (set_card req_user body) s0) chs = Some m →
  responses (trace m) = [SendStatus 200] →
  ∃ c,
    hashes (store m) !! (userIdenToStripeCustomerId, user_iden req_user) = Some c ∧
    ((billing_customer req_user s0 = Some c ∧ str_truthy c = true ∧ store m = s0) ∨
     (payload_truthy (bulk_reply (billing_customer req_user s0)) = false ∧
      (customer_create req_user body, (None, PCustomer c)) ∈ replies (trace m) ∧
      store m = with_customer req_user s0 c)).
Proof.
  intros Hrun%set_card_reached Hresp.
  destruct Hrun as [Ht'|Ht'|e Ht'|st s post Ht' HC]; try discriminate Hresp.
  destruct HC as [c' Hc' Hct|c' e Hc' Hct|c' id Hc' Hct|Hn|e Hn|id Hn|id e Hn|id v Hn];
    try discriminate Hresp.
  - exists c'. split; [done|]. by left.
  - exists id. split; [simpl; by rewrite lookup_insert_eq|]. right.
    split; [done|]. split; [|done]. simpl. right. by left.
Qed.

(** X13: set-card changes the store in one way only: it records the customer the
    gateway has just created for the user, in the state in which it answers
    200; every other entry of the store is left as it was. *)
Theorem set_card_frame chs m :
  run (boot (set_card req_user body) s0) chs = Some m →
  (store m = s0 ∨
   ∃ id, (customer_create req_user body, (None, PCustomer id)) ∈ replies (trace m) ∧
         status (ctl m) = Finished ∧ responses (trace m) = [SendStatus 200] ∧
         store m = with_customer req_user s0 id) ∧
  (∀ k, k ≠ (userIdenToStripeCustomerId, user_iden req_user) →
        hashes (store m) !! k = hashes s0 !! k) ∧
  lists (store m) = lists s0 ∧ hash_counters (store m) = hash_counters s0 ∧
  counters (store m) = counters s0.
Proof.
  intros Hrun%set_card_reached.
  destruct Hrun as [Ht'|Ht'|e Ht'|st s post Ht' HC]; try (split; [by left|done]).
  destruct HC as [c' Hc' Hct|c' e Hc' Hct|c' id Hc' Hct|Hn|e Hn|id Hn|id e Hn|id v Hn];
    try (split; [by left|done]).
  split; [|split; [|done]].
  - right. exists id. split; [|done]. simpl. right. by left.
  - intros k Hk. simpl. by rewrite lookup_insert_ne.
Qed.

End Billing_lemmas.

(** set-card without a card token, for the sample user. *)
Lemma set_card_rejections_witness :
  ∃ m,
    run (boot (set_card Sample.alice Scenario.no_card) empty_store) [] = Some m ∧
    status (ctl m) = Finished ∧
    responses (trace m) = [SendStatus 400] ∧
    issued (trace m) = [] ∧
    store m = empty_store.
Proof.
  exists (after (set_card Sample.alice Scenario.no_card) empty_store []).
  split; [apply after_run; vm_compute; reflexivity|].
  destruct (set_card_rejections Sample.alice Scenario.no_card empty_store []
    (after (set_card Sample.alice Scenario.no_card) empty_store [])) as [H _].
  - apply after_run; vm_compute; reflexivity.
  - apply H. reflexivity.
Defined.

(** set-card for the sample user, who has a customer, the gateway declining
    the new card. *)
Lemma set_card_updates_the_stored_customer_witness :
  ∃ m,
    run (boot (set_card Sample.alice Sample.new_card) Sample.card_on_file)
      Scenario.update_declined = Some m ∧
    store m = Sample.card_on_file ∧
    status (ctl m) = Finished ∧
    responses (trace m) = [SendStatus 400] ∧
    logged (trace m) = [ErrorObject "card declined"].
Proof.
  exists (after (set_card Sample.alice Sample.new_card) Sample.card_on_file
            Scenario.update_declined).
  split; [apply after_run; vm_compute; reflexivity|].
  destruct (set_card_updates_the_stored_customer Sample.alice Sample.new_card
    Sample.card_on_file Scenario.update_declined
    (after (set_card Sample.alice Sample.new_card) Sample.card_on_file
       Scenario.update_declined) "cus_1") as (H1 & _ & H2 & _).
  - apply after_run; vm_compute; reflexivity.
  - reflexivity.
  - reflexivity.
  - reflexivity.
  - split; [exact H1|]. apply (H2 "card declined"%string PUndefined).
    vm_compute. repeat constructor.
Defined.

(** set-card for the sample user without a customer: the gateway creates
    one and the store records it. *)
Lemma set_card_success_leaves_a_customer_witness :
  ∃ m,
    run (boot (set_card Sample.alice Sample.new_card) empty_store)
      Scenario.customer_created = Some m ∧
    ∃ c,
      hashes (store m) !! (userIdenToStripeCustomerId, "u1"%string) = Some c ∧
      ((billing_customer Sample.alice empty_store = Some c ∧ str_truthy c = true ∧
        store m = empty_store) ∨
       (payload_truthy (bulk_reply (billing_customer Sample.alice empty_store)) = false ∧
        (customer_create Sample.alice Sample.new_card, (None, PCustomer c))
          ∈ replies (trace m) ∧
        store m = with_customer Sample.alice empty_store c)).
Proof.
  exists (after (set_card Sample.alice Sample.new_card) empty_store
            Scenario.customer_created).
  split; [apply after_run; vm_compute; reflexivity|].
  apply (set_card_success_leaves_a_customer Sample.alice Sample.new_card empty_store
    Scenario.customer_created).
  - apply after_run; vm_compute; reflexivity.
  - vm_compute; reflexivity.
Defined.

(** The same run: the mapping of the sample user is what has changed. *)
Lemma set_card_frame_witness :
  ∃ m,
    run (boot (set_card Sample.alice Sample.new_card) empty_store)
      Scenario.customer_created = Some m ∧
    hashes (store m) !! (userIdenToStripeCustomerId, "u1"%string) = Some "cus_2"%string ∧
    (∀ k, k ≠ (userIdenToStripeCustomerId, "u1"%string) →
          hashes (store m) !! k = hashes empty_store !! k) ∧
    lists (store m) = lists empty_store ∧
    hash_counters (store m) = hash_counters empty_store ∧
    counters (store m) = counters empty_store.
Proof.
  exists (after (set_card Sample.alice Sample.new_card) empty_store
            Scenario.customer_created).
  split; [apply after_run; vm_compute; reflexivity|].
  split; [vm_compute; reflexivity|].
  apply (set_card_frame Sample.alice Sample.new_card empty_store Scenario.customer_created).
  apply after_run; vm_compute; reflexivity.
Defined.

(** ** Further properties of update-profile *)

Section Profile_further.

Variable JSON_stringify_user : User → string.
Variables (req_user : User) (body : ProfileBody) (date_now : float) (s0 : Store).

Lemma update_profile_reached :
  Always (Profiled JSON_stringify_user req_user body date_now s0)
    (boot (update_profile JSON_stringify_user req_user body date_now) s0).
Proof.
  unfold boot, update_profile. rewrite resume_Do.
  apply always_waiting; [constructor|].
  intros o a s' Ha. apply answer_hset in Ha as [(e & -> & ->)|(r & -> & ->)].
  - unfold fail_with. rewrite resume_Res, resume_ConsoleError, resume_Idle.
    apply always_finished. constructor.
  - rewrite resume_Res, resume_Idle. apply always_finished. apply profiled_written.
Qed.

(** X14: update-profile either stores the patched profile under the user's
    identifier and answers 200, changing nothing else in the store, or, when
    the store refuses the write, answers 500, logs the error and leaves the
    store as it was. *)
Theorem update_profile_outcomes chs m :
  run (boot (update_profile JSON_stringify_user req_user body date_now) s0) chs = Some m →
  let u' := patch_user req_user body (PrimFloat.div date_now 1000) in
  match status (ctl m) with
  | Running => responses (trace m) = [] ∧ store m = s0
  | Finished =>
      (responses (trace m) = [SendStatus 200] ∧ logged (trace m) = [] ∧
       hashes (store m) !! (users, user_iden req_user) = Some (JSON_stringify_user u') ∧
       (∀ k, k ≠ (users, user_iden req_user) → hashes (store m) !! k = hashes s0 !! k) ∧
       lists (store m) = lists s0 ∧ hash_counters (store m) = hash_counters s0 ∧
       counters (store m) = counters s0) ∨
      (∃ e, responses (trace m) = [SendStatus 500] ∧ logged (trace m) = [ErrorObject e] ∧
            store m = s0)
  | Aborted => False
  end.
Proof.
  intros Hrun%update_profile_reached. destruct Hrun as [|e|v]; cbv zeta.
  - done.
  - right. by exists e.
  - left. simpl. split; [done|]. split; [done|].
    split; [by rewrite lookup_insert_eq|]. split; [|done].
    intros k Hk. by rewrite lookup_insert_ne.
Qed.

End Profile_further.

(** The sample user changes her name, and the store accepts the write. *)
Lemma update_profile_outcomes_witness :
  ∃ m,
    run (boot Scenario.renamed empty_store) [(0%nat, Completes)] = Some m ∧
    status (ctl m) = Finished ∧
    responses (trace m) = [SendStatus 200] ∧
    hashes (store m) !! (users, "u1"%string) = Some "user u1"%string.
Proof.
  exists (after Scenario.renamed empty_store [(0%nat, Completes)]).
  split; [apply after_run; vm_compute; reflexivity|].
  split; [vm_compute; reflexivity|].
  pose proof (update_profile_outcomes Sample.stringify_user Sample.alice Scenario.rename
    3000000 empty_store [(0%nat, Completes)]
    (after Scenario.renamed empty_store [(0%nat, Completes)])) as H.
  cbv zeta in H.
  change (status (ctl (after Scenario.renamed empty_store [(0%nat, Completes)])))
    with Finished in H.
  destruct H as [(H1 & _ & H2 & _)|(e & H1 & _)].
  - apply after_run; vm_compute; reflexivity.
  - split; [exact H1|exact H2].
  - vm_compute in H1. discriminate H1.
Defined.

(** X15: a patch cannot clear a field: a field that holds a non-empty value still
    holds one after any patch, since an empty or missing value in the patch
    is skipped; and applying the same patch again changes nothing. *)
Theorem patch_cannot_clear_a_field (u : User) (body : ProfileBody) (now : float) :
  let u' := patch_user u body now in
  (truthy (name u) = true → truthy (name u') = true) ∧
  (truthy (occupation u) = true → truthy (occupation u') = true) ∧
  (truthy (employer u) = true → truthy (employer u') = true) ∧
  (truthy (streetAddress u) = true → truthy (streetAddress u') = true) ∧
  (truthy (cityStateZip u) = true → truthy (cityStateZip u') = true) ∧
  patch_user u' body now = u'.
Proof.
  cbv zeta. unfold patch_user, with_profile. simpl.
  repeat split.
  1-5: intros H; match goal with |- context [if ?b then _ else _] => by destruct b eqn:? end.
  f_equal; match goal with |- context [truthy ?x] => by destruct (truthy x) eqn:Hx; rewrite ?Hx end.
Qed.

(** ** Further properties of create-contribution *)

Section Contribution_further.

Variable string_to_number : string → float.
Variable JSON_stringify_contribution : Contribution → string.
Variables (req_user : User) (body : ContributionBody).
Variables (random1 random2 : string) (date_now : float).
Variable s0 : Store.

Abbreviation lookups := (lookups req_user body).
Abbreviation customer_lookup := (customer_lookup req_user).
Abbreviation event_lookup := (event_lookup body).
Abbreviation pac_lookup := (pac_lookup body).
Abbreviation stored_customer := (stored_customer req_user s0).
Abbreviation Reached :=
  (Reached string_to_number JSON_stringify_contribution req_user body
     random1 random2 date_now s0).
Abbreviation Settled :=
  (Settled string_to_number JSON_stringify_contribution req_user body
     random1 random2 date_now s0).
Abbreviation Resolved := (Resolved req_user body s0).
Abbreviation bookkeeping :=
  (bookkeeping JSON_stringify_contribution req_user body random1 random2 date_now).
Abbreviation charge_call := (charge_call string_to_number body).
Abbreviation handler :=
  (create_contribution string_to_number JSON_stringify_contribution req_user body
     random1 random2 date_now).

(** X16: a charge is requested only for a request that passed every check: no
    field is missing, the caller has a non-empty customer identifier on
    record, the event and the PAC were found, and the PAC is on one of the
    event's lists; the charge is then the only one of the request, made to
    the caller's customer. *)
Theorem only_a_validated_request_is_charged chs m c :
  run (boot handler s0) chs = Some m →
  c ∈ charges_issued (trace m) →
  missing_field body = false ∧
  ∃ customer ev p b,
    stored_customer = Some customer ∧ str_truthy customer = true ∧
    (event_lookup, (None, PEvent ev)) ∈ replies (trace m) ∧
    (pac_lookup, (None, PPac p)) ∈ replies (trace m) ∧
    support_of ev p = Some b ∧
    charges_issued (trace m) = [charge_call customer ev p b].
Proof.
  intros Hrun%create_contribution_reached Hin.
  destruct (reached_charges _ _ _ _ _ _ _ _ _ _ _ Hrun)
    as [Hn|(evs & ev & p & post & c' & ev' & p' & b & Htr & HRes & Hv & HS & Hch)].
  { rewrite Hn in Hin. by apply elem_of_nil in Hin. }
  apply validated_inv in Hv as (Hc & -> & -> & Hct & Hs).
  pose proof (resolved_replies _ _ _ _ _ _ HRes) as Hp.
  split; [by destruct HRes|]. exists c', ev', p', b. repeat split; try done.
  - rewrite Htr, !replies_app. apply elem_of_app. right. apply elem_of_app. left.
    rewrite Hp. simpl. right. by left.
  - rewrite Htr, !replies_app. apply elem_of_app. right. apply elem_of_app. left.
    rewrite Hp. simpl. right. right. by left.
Qed.

(** X17: a lookup that fails makes the request a server failure: status 500, the
    error logged, no charge, no write, the store as it was. *)
Theorem failed_lookup_is_a_server_failure chs m c e v :
  run (boot handler s0) chs = Some m →
  is_lookup c = true →
  (c, (Some e, v)) ∈ replies (trace m) →
  status (ctl m) = Finished ∧
  responses (trace m) = [SendStatus 500] ∧
  logged (trace m) = [ErrorObject e] ∧
  charges_issued (trace m) = [] ∧
  writes_issued (trace m) = [] ∧
  store m = s0.
Proof.
  intros Hrun%create_contribution_reached Hl Hin.
  destruct Hrun as [Hm|evs slots Hm HJ Hf|evs slots i c0 e0 Hm HJ Hi|evs ev p st s post HRes HS].
  - by apply elem_of_nil in Hin.
  - rewrite replies_app in Hin. simpl in Hin.
    by apply (joined_replies _ _ _ _ _ _ _ HJ) in Hin as [_ [=]].
  - rewrite !replies_app in Hin. simpl in Hin.
    pose proof (joined_no_writes _ _ _ _ _ HJ) as [Hw _].
    pose proof (Joined_facts _ _ _ _ _ HJ) as (Hi' & Hr & Hlg & _).
    apply elem_of_app in Hin as [Hin|Hin].
    { by apply (joined_replies _ _ _ _ _ _ _ HJ) in Hin as [_ [=]]. }
    apply list_elem_of_singleton in Hin as [= -> -> ->].
    rewrite !responses_app, !logged_app, !charges_issued_app, !writes_issued_app, Hr, Hlg, Hw.
    unfold charges_issued at 2. rewrite Hi'. done.
  - exfalso. rewrite !replies_app in Hin. simpl in Hin.
    destruct HRes as [_ HJ].
    apply elem_of_app in Hin as [Hin|Hin].
    { by apply (joined_replies _ _ _ _ _ _ _ HJ) in Hin as [_ [=]]. }
    apply (settled_replies _ _ _ _ _ _ _ _ _ _ _ _ _ _ HS) in Hin. congruence.
Qed.

(** X18: when the three lookups are answered but the caller has no customer
    identifier on record, or the event or the PAC is not found, the request
    is rejected with status 400 and nothing else is done. *)
Theorem unresolved_request_is_rejected chs m v1 v2 v3 :
  run (boot handler s0) chs = Some m →
  (customer_lookup, (None, v1)) ∈ replies (trace m) →
  (event_lookup, (None, v2)) ∈ replies (trace m) →
  (pac_lookup, (None, v3)) ∈ replies (trace m) →
  payload_truthy v1 = false ∨ v2 = PNull ∨ v3 = PNull →
  status (ctl m) = Finished ∧
  responses (trace m) = [SendStatus 400] ∧
  logged (trace m) = [] ∧
  issued (trace m) = lookups ∧
  store m = s0.
Proof.
  intros Hrun%create_contribution_reached H1 H2 H3 Hbad.
  destruct (reached_resolved _ _ _ _ _ _ _ _ _ _ _ _ _ _ Hrun H1 H2 H3)
    as (evs & ev & p & post & -> & HRes & HS & -> & -> & ->).
  assert (validated stored_customer ev p = None) as Hv.
  { unfold validated. destruct stored_customer as [c0|]; [|done].
    destruct ev as [e0|]; [|by destruct Hbad as [?|[?|?]]].
    destruct p as [p0|]; [|by destruct Hbad as [?|[?|?]]].
    destruct Hbad as [Hb|[?|?]]; try done. simpl in Hb. by rewrite Hb. }
  rewrite Hv in HS. apply settled_invalid_inv in HS as (-> & -> & ->).
  apply resolved_issues_nothing in HRes as (Hi & Hr & Hlg).
  rewrite !responses_app, !logged_app, !issued_app, Hi, Hr, Hlg. done.
Qed.

(** X19: nothing is recorded before the gateway has accepted the charge: until
    then no write is issued and the store is as it was. *)
Theorem nothing_is_recorded_before_the_charge chs m :
  run (boot handler s0) chs = Some m →
  (writes_issued (trace m) = [] ∧ store m = s0) ∨ charge_accepted (trace m).
Proof.
  intros Hrun%create_contribution_reached.
  destruct Hrun as [Hm|evs slots Hm HJ Hf|evs slots i c0 e0 Hm HJ Hi|evs ev p st s post HRes HS].
  - by left.
  - left. destruct (joined_no_writes _ _ _ _ _ HJ) as [Hw _].
    by rewrite writes_issued_app, Hw.
  - left. destruct (joined_no_writes _ _ _ _ _ HJ) as [Hw _].
    by rewrite !writes_issued_app, Hw.
  - destruct HRes as [_ HJ]. destruct (joined_no_writes _ _ _ _ _ HJ) as [Hw _].
    destruct HS as [Hv|c1 ev1 p1 b Hv|c1 ev1 p1 b e1 Hv
                    |c1 ev1 p1 b id done w rest wevs s1 Hv Hb HW
                    |c1 ev1 p1 b id wevs s1 Hv HW].
    1-3: left; by rewrite !writes_issued_app, Hw.
    all: right; exists (charge_call c1 ev1 p1 b), (PCharge id); split; [done|];
      rewrite !replies_app; apply elem_of_app; right; apply elem_of_app; right;
      simpl; by left.
Qed.

(** X20: once the charge is accepted every one of the six writes is attempted,
    whatever the earlier ones were answered: when the request has finished,
    the writes issued and the writes answered are the whole task list. *)
Theorem every_bookkeeping_write_is_attempted chs m :
  run (boot handler s0) chs = Some m →
  status (ctl m) = Finished →
  charge_accepted (trace m) →
  ∃ ev p b id,
    writes_issued (trace m) = Redis <$> bookkeeping ev p b id ∧
    writes_answered (trace m) = Redis <$> bookkeeping ev p b id ∧
    length (writes_issued (trace m)) = 6%nat.
Proof.
  intros Hrun%create_contribution_reached Hfin Hacc.
  destruct (accepted_inv _ _ _ _ _ _ _ _ _ _ _ Hrun Hacc)
    as (evs & c & ev & p & b & id & [_ HJ] & _ &
        [(done & w & rest & wevs & Hst & _)|(wevs & _ & HW & Htr)]); [congruence|].
  destruct (joined_no_writes _ _ _ _ _ HJ) as [Hw1 Hw2].
  destruct (wrote_writes _ _ _ _ HW (bookkeeping_writes _ _ _ _ _ _ _ _ _ _)) as [Hi Ha].
  exists ev, p, b, id.
  rewrite Htr, !writes_issued_app, !writes_answered_app, Hw1, Hw2, Hi, Ha.
  by rewrite !app_nil_r.
Qed.

Lemma bookkeeping_no_integer ev p b id :
  redis_integer (body_amount body) = None →
  Forall (λ c, match c with
               | HIncrBy _ _ a | IncrBy _ a => redis_integer a = None
               | _ => True
               end) (bookkeeping ev p b id).
Proof. intros H. by repeat constructor. Qed.

(** X22: an amount the store does not read as an integer (a fraction, a text
    that is no decimal number) is charged all the same, but never counted:
    no counter of the store changes, the request still ends with status 200,
    and the four increments are logged as errors. *)
Theorem amount_that_is_no_integer_is_never_counted chs m :
  run (boot handler s0) chs = Some m →
  redis_integer (body_amount body) = None →
  hash_counters (store m) = hash_counters s0 ∧
  counters (store m) = counters s0 ∧
  (status (ctl m) = Finished → charge_accepted (trace m) →
     responses (trace m) = [SendStatus 200] ∧ (4 ≤ length (logged (trace m)))%nat).
Proof.
  intros Hrun%create_contribution_reached Hnone.
  assert (Hcounters : hash_counters (store m) = hash_counters s0 ∧
                      counters (store m) = counters s0).
  { destruct Hrun as [Hm|evs slots Hm HJ Hf|evs slots i c0 e0 Hm HJ Hi|evs ev p st s post HRes HS];
      try done.
    destruct HS as [Hv|c1 ev1 p1 b Hv|c1 ev1 p1 b e1 Hv
                    |c1 ev1 p1 b id ws w rest wevs s1 Hv Hb HW
                    |c1 ev1 p1 b id wevs s1 Hv HW].
    1-3: done.
    - pose proof (bookkeeping_no_integer ev1 p1 b id Hnone) as Hall.
      rewrite Hb in Hall. apply Forall_app in Hall as [Hall _].
      by destruct (wrote_no_increment _ _ _ _ HW Hall) as (? & ? & _).
    - by destruct (wrote_no_increment _ _ _ _ HW (bookkeeping_no_integer ev1 p1 b id Hnone))
        as (? & ? & _). }
  destruct Hcounters as [H1 H2]. split; [done|]. split; [done|].
  intros Hfin Hacc.
  destruct (accepted_inv _ _ _ _ _ _ _ _ _ _ _ Hrun Hacc)
    as (evs & c & ev & p & b & id & HRes & _ &
        [(done & w & rest & wevs & Hst & _)|(wevs & _ & HW & Htr)]); [congruence|].
  apply resolved_issues_nothing in HRes as (_ & Hr & Hlg).
  destruct (wrote_no_increment _ _ _ _ HW (bookkeeping_no_integer ev p b id Hnone))
    as (_ & _ & Hlen).
  apply Wrote_facts in HW as (_ & HWr & _).
  rewrite Htr, !responses_app, !logged_app, Hr, Hlg, HWr, !length_app.
  split; [done|]. simpl in *. lia.
Qed.

Lemma resolved_event evs ev p post c v :
  Resolved evs (Some ev) (Some p) →
  (∀ c a, (c, a) ∈ replies post → is_lookup c = false) →
  is_lookup c = true →
  (c, (None, v)) ∈ replies ((Issued <$> lookups) ++ evs ++ post) →
  (c, (@None Error, v)) ∈
    [(customer_lookup, (None, bulk_reply stored_customer));
     (event_lookup, (None, PEvent ev)); (pac_lookup, (None, PPac p))].
Proof.
  intros HRes Hpost Hc Hin. rewrite !replies_app in Hin. simpl in Hin.
  apply elem_of_app in Hin as [Hin|Hin].
  - by rewrite <- (resolved_replies _ _ _ _ _ _ HRes).
  - apply Hpost in Hin. congruence.
Qed.

(** X21: a contribution whose charge is accepted and whose six writes are all
    carried out is recorded in full: the store holds the contribution record
    under its identifier, the identifier heads the caller's list, and the
    event's and the politician's totals for the side taken, the global sum
    and the caller's sum are each higher by the amount; nothing else in the
    store changes. *)
Theorem completed_contribution_is_counted chs m ev p :
  run (boot handler s0) chs = Some m →
  status (ctl m) = Finished →
  charge_accepted (trace m) →
  no_storage_error (trace m) →
  (event_lookup, (None, PEvent ev)) ∈ replies (trace m) →
  (pac_lookup, (None, PPac p)) ∈ replies (trace m) →
  ∃ customer b id n,
    charges_issued (trace m) = [charge_call customer ev p b] ∧
    (charge_call customer ev p b, (None, PCharge id)) ∈ replies (trace m) ∧
    redis_integer (body_amount body) = Some n ∧
    let ct := new_contribution body ev p b id random1 random2 date_now in
    let own := userReverseChronologicalContributions (user_iden req_user) in
    let event_total := (eventContributionTotals (event_iden ev), support_key b) in
    let politician_total := (politicianContributionTotals (politician ev), support_key b) in
    let own_sum := userContributionsSum (user_iden req_user) in
    hashes (store m) =
      <[(contributions, contribution_iden ct) := JSON_stringify_contribution ct]> (hashes s0) ∧
    lists (store m) =
      <[own := contribution_iden ct :: default [] (lists s0 !! own)]> (lists s0) ∧
    hash_counters (store m) !! event_total =
      Some (default 0 (hash_counters s0 !! event_total) + n) ∧
    hash_counters (store m) !! politician_total =
      Some (default 0 (hash_counters s0 !! politician_total) + n) ∧
    counters (store m) !! contributionsSum =
      Some (default 0 (counters s0 !! contributionsSum) + n) ∧
    counters (store m) !! own_sum = Some (default 0 (counters s0 !! own_sum) + n) ∧
    (∀ k, k ≠ event_total → k ≠ politician_total →
          hash_counters (store m) !! k = hash_counters s0 !! k) ∧
    (∀ k, k ≠ contributionsSum → k ≠ own_sum → counters (store m) !! k = counters s0 !! k).
Proof.
  intros Hrun%create_contribution_reached Hfin Hacc Hno Hev Hpac.
  destruct m as [mc ms mt]. cbn [ctl store trace] in *.
  destruct (accepted_inv _ _ _ _ _ _ _ _ _ _ _ Hrun Hacc)
    as (evs & c & ev' & p' & b & id & HRes & Hv &
        [(ws & w & rest & wevs & Hst & _)|(wevs & _ & HW & Htr)]); [congruence|].
  assert (ev' = ev ∧ p' = p) as [-> ->].
  { assert (Hpost : ∀ c0 a,
      (c0, a) ∈ replies ([Issued (charge_call c ev' p' b);
                          Replied (charge_call c ev' p' b) (None, PCharge id)]
                         ++ wevs ++ [Sent (SendStatus 200)]) →
      is_lookup c0 = false).
    { intros c0 a Hin. rewrite !replies_app in Hin. simpl in Hin.
      apply elem_of_cons in Hin as [[= -> _]|Hin]; [done|].
      rewrite app_nil_r in Hin. unfold is_lookup.
      erewrite (wrote_replies _ _ _ _ _ _ HW (bookkeeping_writes _ _ _ _ _ _ _ _ _ _) Hin).
      by rewrite orb_true_r. }
    rewrite Htr in Hev, Hpac.
    apply (resolved_event _ _ _ _ event_lookup _ HRes Hpost eq_refl) in Hev.
    apply (resolved_event _ _ _ _ pac_lookup _ HRes Hpost eq_refl) in Hpac.
    repeat (apply elem_of_cons in Hev as [Heq|Hev]; [try discriminate Heq|]);
      [|by apply elem_of_nil in Hev].
    repeat (apply elem_of_cons in Hpac as [Heq'|Hpac]; [try discriminate Heq'|]);
      [|by apply elem_of_nil in Hpac].
    by simplify_eq. }
  assert (Hclean : ∀ c e v, (Redis c, (Some e, v)) ∉ replies wevs).
  { intros c' e v Hin. apply (Hno c' e v). rewrite Htr, !replies_app.
    apply elem_of_app. right. apply elem_of_app. right. apply elem_of_app. right.
    apply elem_of_app. by left. }
  apply wrote_stored in HW; [|done]. clear Hclean.
  pose proof (resolved_issues_nothing _ _ _ _ _ _ HRes) as (Hi & _).
  exists c, b, id.
  assert (Hch : charges_issued mt = [charge_call c ev p b]).
  { apply stored_facts in HW as (Hwi & _).
    rewrite Htr, !charges_issued_app. unfold charges_issued at 2 4. rewrite Hi, Hwi.
    by rewrite no_charge_among_writes. }
  assert (Hrep : (charge_call c ev p b, (None, PCharge id)) ∈ replies mt).
  { rewrite Htr, !replies_app. apply elem_of_app. right. apply elem_of_app. right.
    simpl. by left. }
  clear Hev Hpac.
  let t := eval hnf in (bookkeeping ev p b id) in change (bookkeeping ev p b id) with t in HW.
  repeat match goal with
  | H : Stored _ (_ :: _) _ _ |- _ => inversion H; subst; clear H
  | H : Stored _ [] _ _ |- _ => inversion H; subst; clear H
  end.
  repeat match goal with
  | H : answer _ _ _ = Some ((None, _), _) |- _ => apply answer_accepted in H
  end.
  repeat match goal with
  | H : redis_exec (HIncrBy _ _ _) _ = _ |- _ =>
      apply hincrby_accepted in H as (? & ? & ?)
  | H : redis_exec (IncrBy _ _) _ = _ |- _ =>
      apply incrby_accepted in H as (? & ? & ?)
  | H : redis_exec (HSet _ _ _) _ = _ |- _ => simpl in H; injection H as ? _
  | H : redis_exec (LPush _ _) _ = _ |- _ => simpl in H; injection H as ? _
  end.
  simpl in *. simplify_eq. eexists. split; [done|]. split; [done|]. split; [done|].
  simpl.
  repeat split; try done.
  - rewrite lookup_insert_ne by done. by rewrite lookup_insert_eq.
  - rewrite lookup_insert_eq. by rewrite lookup_insert_ne.
  - rewrite lookup_insert_ne by done. by rewrite lookup_insert_eq.
  - rewrite lookup_insert_eq. by rewrite lookup_insert_ne.
  - intros k Hk1 Hk2. by rewrite !lookup_insert_ne.
  - intros k Hk1 Hk2. by rewrite !lookup_insert_ne.
Qed.

End Contribution_further.

(** The sample contribution, once the lookups are answered. *)
Lemma only_a_validated_request_is_charged_witness :
  ∃ m,
    run (boot (Sample.contribute (JNum 25)) Sample.card_on_file)
      (Sample.lookups_answered Sample.rally) = Some m ∧
    missing_field (Sample.pledge (JNum 25)) = false ∧
    ∃ customer ev p b,
      stored_customer Sample.alice Sample.card_on_file = Some customer ∧
      str_truthy customer = true ∧
      (event_lookup (Sample.pledge (JNum 25)), (None, PEvent ev)) ∈ replies (trace m) ∧
      (pac_lookup (Sample.pledge (JNum 25)), (None, PPac p)) ∈ replies (trace m) ∧
      support_of ev p = Some b ∧
      charges_issued (trace m) =
        [charge_call Sample.not_numeric (Sample.pledge (JNum 25)) customer ev p b].
Proof.
  exists (after (Sample.contribute (JNum 25)) Sample.card_on_file
            (Sample.lookups_answered Sample.rally)).
  split; [apply after_run; vm_compute; reflexivity|].
  apply (only_a_validated_request_is_charged Sample.not_numeric
    Sample.stringify_contribution Sample.alice (Sample.pledge (JNum 25)) "0.abc" "0.def"
    2000000 Sample.card_on_file (Sample.lookups_answered Sample.rally) _
    (Service (ChargesCreate 2500 "usd" "cus_1"
       {| meta_eventIden := "E1"; meta_pacIden := "P1"; meta_support := true |}))).
  - apply after_run; vm_compute; reflexivity.
  - vm_compute. repeat constructor.
Defined.

(** The sample contribution, the lookup of the event failing. *)
Lemma failed_lookup_is_a_server_failure_witness :
  ∃ m,
    run (boot (Sample.contribute (JNum 25)) Sample.card_on_file)
      Scenario.event_lookup_fails = Some m ∧
    status (ctl m) = Finished ∧
    responses (trace m) = [SendStatus 500] ∧
    logged (trace m) = [ErrorObject "timeout"] ∧
    charges_issued (trace m) = [] ∧
    writes_issued (trace m) = [] ∧
    store m = Sample.card_on_file.
Proof.
  exists (after (Sample.contribute (JNum 25)) Sample.card_on_file
            Scenario.event_lookup_fails).
  split; [apply after_run; vm_compute; reflexivity|].
  apply (failed_lookup_is_a_server_failure Sample.not_numeric
    Sample.stringify_contribution Sample.alice (Sample.pledge (JNum 25)) "0.abc" "0.def"
    2000000 Sample.card_on_file Scenario.event_lookup_fails _
    (Service (GetEvent (JStr "E1"))) "timeout"%string PUndefined).
  - apply after_run; vm_compute; reflexivity.
  - reflexivity.
  - vm_compute. repeat constructor.
Defined.

(** The sample contribution by a user who has no customer on record. *)
Lemma unresolved_request_is_rejected_witness :
  ∃ m,
    run (boot (Sample.contribute (JNum 25)) empty_store)
      (Sample.lookups_answered Sample.rally) = Some m ∧
    status (ctl m) = Finished ∧
    responses (trace m) = [SendStatus 400] ∧
    logged (trace m) = [] ∧
    issued (trace m) = lookups Sample.alice (Sample.pledge (JNum 25)) ∧
    store m = empty_store.
Proof.
  exists (after (Sample.contribute (JNum 25)) empty_store
            (Sample.lookups_answered Sample.rally)).
  split; [apply after_run; vm_compute; reflexivity|].
  apply (unresolved_request_is_rejected Sample.not_numeric
    Sample.stringify_contribution Sample.alice (Sample.pledge (JNum 25)) "0.abc" "0.def"
    2000000 empty_store (Sample.lookups_answered Sample.rally) _
    PNull (PEvent Sample.rally) (PPac Sample.committee)).
  - apply after_run; vm_compute; reflexivity.
  - vm_compute. repeat constructor.
  - vm_compute. repeat constructor.
  - vm_compute. repeat constructor.
  - by left.
Defined.

(** The sample contribution, the gateway declining the charge. *)
Lemma nothing_is_recorded_before_the_charge_witness :
  ∃ m,
    run (boot (Sample.contribute (JNum 25)) Sample.card_on_file)
      (Sample.charge_declined Sample.rally) = Some m ∧
    ((writes_issued (trace m) = [] ∧ store m = Sample.card_on_file) ∨
     charge_accepted (trace m)).
Proof.
  exists (after (Sample.contribute (JNum 25)) Sample.card_on_file
            (Sample.charge_declined Sample.rally)).
  split; [apply after_run; vm_compute; reflexivity|].
  apply (nothing_is_recorded_before_the_charge Sample.not_numeric
    Sample.stringify_contribution Sample.alice (Sample.pledge (JNum 25)) "0.abc" "0.def"
    2000000 Sample.card_on_file (Sample.charge_declined Sample.rally)).
  apply after_run; vm_compute; reflexivity.
Defined.

(** The sample contribution, the fourth write failing: the fifth and the
    sixth are issued all the same. *)
Lemma every_bookkeeping_write_is_attempted_witness :
  ∃ m,
    run (boot (Sample.contribute (JNum 25)) Sample.card_on_file)
      (Sample.writes_answered_one_failing Sample.rally) = Some m ∧
    logged (trace m) = [ErrorObject "connection lost"] ∧
    ∃ ev p b id,
      writes_issued (trace m) =
        Redis <$> bookkeeping Sample.stringify_contribution Sample.alice
                    (Sample.pledge (JNum 25)) "0.abc" "0.def" 2000000 ev p b id ∧
      writes_answered (trace m) =
        Redis <$> bookkeeping Sample.stringify_contribution Sample.alice
                    (Sample.pledge (JNum 25)) "0.abc" "0.def" 2000000 ev p b id ∧
      length (writes_issued (trace m)) = 6%nat.
Proof.
  exists (after (Sample.contribute (JNum 25)) Sample.card_on_file
            (Sample.writes_answered_one_failing Sample.rally)).
  split; [apply after_run; vm_compute; reflexivity|].
  split; [vm_compute; reflexivity|].
  apply (every_bookkeeping_write_is_attempted Sample.not_numeric
    Sample.stringify_contribution Sample.alice (Sample.pledge (JNum 25)) "0.abc" "0.def"
    2000000 Sample.card_on_file (Sample.writes_answered_one_failing Sample.rally)).
  - apply after_run; vm_compute; reflexivity.
  - vm_compute; reflexivity.
  - exists (Service (ChargesCreate 2500 "usd" "cus_1"
      {| meta_eventIden := "E1"; meta_pacIden := "P1"; meta_support := true |})),
      (PCharge "ch_1").
    split; [reflexivity|]. vm_compute. repeat constructor.
Defined.

(** A contribution of 2.5: 250 is charged, the request ends with status 200,
    and no counter has changed. *)
Lemma amount_that_is_no_integer_is_never_counted_witness :
  ∃ m,
    run (boot (Sample.contribute (JNum 2.5)) Sample.card_on_file)
      (Scenario.all_recorded Sample.rally) = Some m ∧
    charges_issued (trace m) =
      [Service (ChargesCreate 250 "usd" "cus_1"
         {| meta_eventIden := "E1"; meta_pacIden := "P1"; meta_support := true |})] ∧
    hash_counters (store m) = hash_counters Sample.card_on_file ∧
    counters (store m) = counters Sample.card_on_file ∧
    responses (trace m) = [SendStatus 200] ∧
    (4 ≤ length (logged (trace m)))%nat.
Proof.
  exists (after (Sample.contribute (JNum 2.5)) Sample.card_on_file
            (Scenario.all_recorded Sample.rally)).
  split; [apply after_run; vm_compute; reflexivity|].
  split; [vm_compute; reflexivity|].
  destruct (amount_that_is_no_integer_is_never_counted Sample.not_numeric
    Sample.stringify_contribution Sample.alice (Sample.pledge (JNum 2.5)) "0.abc" "0.def"
    2000000 Sample.card_on_file (Scenario.all_recorded Sample.rally)
    (after (Sample.contribute (JNum 2.5)) Sample.card_on_file
       (Scenario.all_recorded Sample.rally))) as (H1 & H2 & H3).
  - apply after_run; vm_compute; reflexivity.
  - vm_compute; reflexivity.
  - split; [exact H1|]. split; [exact H2|]. apply H3; [vm_compute; reflexivity|].
    exists (Service (ChargesCreate 250 "usd" "cus_1"
      {| meta_eventIden := "E1"; meta_pacIden := "P1"; meta_support := true |})),
      (PCharge "ch_1").
    split; [reflexivity|]. vm_compute. repeat constructor.
Defined.

(** The sample contribution of 25, every write carried out: the global sum
    and the user's sum are 25, the event's and the politician's totals for
    support are 25. *)
Lemma completed_contribution_is_counted_witness :
  ∃ m,
    run (boot (Sample.contribute (JNum 25)) Sample.card_on_file)
      (Scenario.all_recorded Sample.rally) = Some m ∧
    counters (store m) !! contributionsSum = Some 25 ∧
    counters (store m) !! userContributionsSum "u1" = Some 25 ∧
    hash_counters (store m) !! (eventContributionTotals "E1", "support"%string) = Some 25 ∧
    hash_counters (store m) !! (politicianContributionTotals "pol1", "support"%string)
      = Some 25.
Proof.
  exists (after (Sample.contribute (JNum 25)) Sample.card_on_file
            (Scenario.all_recorded Sample.rally)).
  split; [apply after_run; vm_compute; reflexivity|].
  pose proof (completed_contribution_is_counted Sample.not_numeric
    Sample.stringify_contribution Sample.alice (Sample.pledge (JNum 25)) "0.abc" "0.def"
    2000000 Sample.card_on_file (Scenario.all_recorded Sample.rally)
    (after (Sample.contribute (JNum 25)) Sample.card_on_file
       (Scenario.all_recorded Sample.rally)) Sample.rally Sample.committee) as H.
  destruct H as (customer & b & id & n & Hch & _ & Hn & H).
  - apply after_run; vm_compute; reflexivity.
  - vm_compute; reflexivity.
  - exists (Service (ChargesCreate 2500 "usd" "cus_1"
      {| meta_eventIden := "E1"; meta_pacIden := "P1"; meta_support := true |})),
      (PCharge "ch_1").
    split; [reflexivity|]. vm_compute. repeat constructor.
  - no_error_replied.
  - vm_compute. repeat constructor.
  - vm_compute. repeat constructor.
  - cbv zeta in H. destruct H as (_ & _ & He & Hp & Hc & Hu & _).
    vm_compute in Hn. injection Hn as <-.
    vm_compute in Hch. injection Hch as _ <-.
    split; [exact Hc|]. split; [exact Hu|]. split; [exact He|exact Hp].
Defined.

(** ** Properties of all the handlers *)

Section Requests_further.

Variable string_to_number : string → float.
Variable JSON_stringify_user : User → string.
Variable JSON_stringify_contribution : Contribution → string.

Abbreviation Handler :=
  (Handler string_to_number JSON_stringify_user JSON_stringify_contribution).
Abbreviation Account_handler :=
  (Account_handler string_to_number JSON_stringify_user JSON_stringify_contribution).

Lemma authenticating_answered body random1 random2 randomBytes date_now s0 st s tr :
  Authenticating JSON_stringify_user body random1 random2 randomBytes date_now s0 st s tr →
  answered_once st tr.
Proof.
  destruct 1 as [|e'|code is_valid Hv|code is_valid Hv|code is_valid e' Hv
                 |code is_valid code' info Hv Hc|code is_valid info st s post Hv HI
                    |code Hc| |code is_valid code' Hv Hc|code is_valid Hv|code is_valid code' Hv];
    try done.
  assert (answered_once st post) as Hpost.
  { destruct HI as [|e|iden Hst Ht|iden e Hst Ht|iden token Hst Ht Hstt Htt|iden Hst Ht Hm
                    |st s post Hnew HR]; try done.
    assert (answered_once st post) as Hpost; [|by destruct st].
    destruct HR as [ws w rest evs s1 Hreg HS|ws w rest evs s1 o e1 v1 s2 Hreg HS Ha
                    |evs s1 HS];
      pose proof (stored_facts _ _ _ _ HS) as (_ & Hr & _);
      unfold answered_once; by rewrite responses_app, Hr. }
  by destruct st.
Qed.

Lemma billing_answered req_user body s0 st s tr :
  Billing req_user body s0 st s tr → answered_once st tr.
Proof.
  destruct 1 as [Ht|Ht|e Ht|st s post Ht HC]; try done.
  assert (answered_once st post) as Hpost; [by destruct HC|by destruct st].
Qed.

Lemma reached_answered req_user body random1 random2 date_now s0 st s tr :
  Reached string_to_number JSON_stringify_contribution req_user body random1 random2
    date_now s0 st s tr →
  answered_once st tr.
Proof.
  destruct 1 as [Hm|evs slots Hm HJ Hf|evs slots i c0 e0 Hm HJ Hi|evs ev p st s post HRes HS].
  - done.
  - apply Joined_facts in HJ as (_ & Hr & _).
    unfold answered_once. by rewrite responses_app, Hr.
  - apply Joined_facts in HJ as (_ & Hr & _).
    unfold answered_once. by rewrite !responses_app, Hr.
  - apply resolved_issues_nothing in HRes as (_ & Hr & _).
    assert (answered_once st post) as Hpost.
    { destruct HS as [Hv|c1 ev1 p1 b Hv|c1 ev1 p1 b e1 Hv
                      |c1 ev1 p1 b id ws w rest wevs s1 Hv Hb HW
                      |c1 ev1 p1 b id wevs s1 Hv HW].
      1-3: done.
      all: apply Wrote_facts in HW as (_ & HWr & _);
           unfold answered_once; by rewrite !responses_app, HWr. }
    unfold answered_once in *. rewrite !responses_app, Hr. by destruct st.
Qed.

(** X23: no handler answers a request twice, and none finishes without
    answering: in every state of every run, a finished request has sent
    exactly one response, and a request that is still waiting for a call, or
    that threw, has sent none. *)
Theorem every_request_is_answered_once t s chs m :
  Handler t →
  run (boot t s) chs = Some m →
  answered_once (status (ctl m)) (trace m).
Proof.
  intros [body random1 random2 randomBytes date_now
          |t' [req_user body date_now|req_user body|req_user body random1 random2 date_now]]
    Hrun.
  - apply authenticate_reached in Hrun. by eapply authenticating_answered.
  - apply update_profile_reached in Hrun. by destruct Hrun.
  - apply set_card_reached in Hrun. by eapply billing_answered.
  - apply create_contribution_reached in Hrun. by eapply reached_answered.
Qed.

Lemma reached_hashes req_user body random1 random2 date_now s0 st s tr k f :
  Reached string_to_number JSON_stringify_contribution req_user body random1 random2
    date_now s0 st s tr →
  k ≠ contributions →
  hashes s !! (k, f) = hashes s0 !! (k, f).
Proof.
  intros HR Hk.
  destruct HR as [Hm|evs slots Hm HJ Hf|evs slots i c0 e0 Hm HJ Hi|evs ev p st s post HRes HS];
    try done.
  destruct HS as [Hv|c1 ev1 p1 b Hv|c1 ev1 p1 b e1 Hv
                  |c1 ev1 p1 b id ws w rest wevs s1 Hv Hb HW
                  |c1 ev1 p1 b id wevs s1 Hv HW].
  1-3: done.
  - eapply wrote_hashes; [exact HW| |done].
    assert (Forall (λ c, match c with HSet k' _ _ => k' = contributions | _ => True end)
              (bookkeeping JSON_stringify_contribution req_user body random1 random2
                 date_now ev1 p1 b id)) as Hall by (by repeat constructor).
    rewrite Hb in Hall. by apply Forall_app in Hall as [? _].
  - eapply wrote_hashes; [exact HW| |done]. by repeat constructor.
Qed.

(** X24: the handlers that act for a signed-in user never touch the three maps
    of the sign-in (identity to user, user to token, token to user): an
    identity registered before the request is registered after it, with the
    same token. *)
Theorem account_handlers_keep_the_sign_in_maps t s chs m :
  Account_handler t →
  run (boot t s) chs = Some m →
  (∀ k f, k ∈ [facebookUserIdToUserIden; userIdenToAccessToken; accessTokenToUserIden] →
          hashes (store m) !! (k, f) = hashes s !! (k, f)) ∧
  (∀ id token, Registered s id token → Registered (store m) id token).
Proof.
  intros Ht Hrun.
  assert (Hkeys : ∀ k f,
    k ∈ [facebookUserIdToUserIden; userIdenToAccessToken; accessTokenToUserIden] →
    hashes (store m) !! (k, f) = hashes s !! (k, f)).
  { intros k f Hk.
    assert (k ≠ users ∧ k ≠ userIdenToStripeCustomerId ∧ k ≠ contributions) as (K1 & K2 & K3).
    { repeat (apply elem_of_cons in Hk as [->|Hk]; [done|]). by apply elem_of_nil in Hk. }
    destruct Ht as [req_user body date_now|req_user body|req_user body random1 random2 date_now].
    - apply update_profile_reached in Hrun. destruct Hrun as [|e|v]; try done.
      simpl. apply lookup_insert_ne. congruence.
    - apply set_card_reached in Hrun.
      destruct Hrun as [Ht|Ht|e Ht|st s' post Ht HC]; try done.
      destruct HC; try done. simpl. apply lookup_insert_ne. congruence.
    - apply create_contribution_reached in Hrun. by eapply reached_hashes. }
  split; [done|].
  intros id token (iden & H1 & H2 & H3 & H4). exists iden.
  rewrite !Hkeys; [done|..].
  - right. by left.
  - by left.
Qed.

End Requests_further.

(** The sample registration is a run of a handler. *)
Lemma every_request_is_answered_once_witness :
  ∃ m,
    run (boot Sample.sign_in empty_store) Sample.registered = Some m ∧
    answered_once (status (ctl m)) (trace m).
Proof.
  exists (after Sample.sign_in empty_store Sample.registered).
  split; [apply after_run; vm_compute; reflexivity|].
  apply (every_request_is_answered_once Sample.not_numeric Sample.stringify_user
    Sample.stringify_contribution Sample.sign_in empty_store Sample.registered).
  - apply handles_authenticate.
  - apply after_run; vm_compute; reflexivity.
Defined.

(** The sample user, registered, changes her name: her identity is still
    registered with the same token. *)
Lemma account_handlers_keep_the_sign_in_maps_witness :
  ∃ m,
    run (boot Scenario.renamed Scenario.enrolled) [(0%nat, Completes)] = Some m ∧
    hashes (store m) !! (users, "u1"%string) = Some "user u1"%string ∧
    Registered (store m) "fb1" "t0k3n".
Proof.
  exists (after Scenario.renamed Scenario.enrolled [(0%nat, Completes)]).
  split; [apply after_run; vm_compute; reflexivity|].
  split; [vm_compute; reflexivity|].
  destruct (account_handlers_keep_the_sign_in_maps Sample.not_numeric Sample.stringify_user
    Sample.stringify_contribution Scenario.renamed Scenario.enrolled [(0%nat, Completes)]
    (after Scenario.renamed Scenario.enrolled [(0%nat, Completes)])) as [_ H].
  - apply handles_update_profile.
  - apply after_run; vm_compute; reflexivity.
  - apply H. exists "u1"%string. repeat split; reflexivity.
Defined.

Section Card_then_contribution.

Variable string_to_number : string → float.
Variable JSON_stringify_contribution : Contribution → string.
Variables (req_user : User) (card : CardBody) (body : ContributionBody).
Variables (random1 random2 : string) (date_now : float).
Variable s0 : Store.

(** X25: the customer set-card has created is the one a later contribution of
    the same user charges: once set-card has answered 200 for a new
    customer, a contribution whose event lists the PAC is charged to that
    customer. *)
Theorem created_customer_is_the_one_charged chs m id chs' m' v ev p b :
  run (boot (set_card req_user card) s0) chs = Some m →
  (customer_create req_user card, (None, PCustomer id)) ∈ replies (trace m) →
  responses (trace m) = [SendStatus 200] →
  str_truthy id = true →
  run (boot (create_contribution string_to_number JSON_stringify_contribution req_user body
               random1 random2 date_now) (store m)) chs' = Some m' →
  (customer_lookup req_user, (None, v)) ∈ replies (trace m') →
  (event_lookup body, (None, PEvent ev)) ∈ replies (trace m') →
  (pac_lookup body, (None, PPac p)) ∈ replies (trace m') →
  support_of ev p = Some b →
  v = PStr id ∧
  charges_issued (trace m') = [charge_call string_to_number body id ev p b].
Proof.
  intros Hrun%set_card_reached Hcr Hresp Hid Hrun'%create_contribution_reached H1 H2 H3 Hs.
  assert (hashes (store m) !! (userIdenToStripeCustomerId, user_iden req_user) = Some id)
    as Hstored.
  { destruct Hrun as [Ht|Ht|e Ht|st s' post Ht HC]; try discriminate Hresp.
    destruct HC as [c' Hc' Hct|c' e Hc' Hct|c' id' Hc' Hct|Hn|e Hn|id' Hn|id' e Hn|id' v' Hn];
      try discriminate Hresp.
    - exfalso. simpl in Hcr.
      repeat (apply elem_of_cons in Hcr as [Heq|Hcr]; [by simplify_eq|]).
      by apply elem_of_nil in Hcr.
    - simpl in Hcr.
      apply elem_of_cons in Hcr as [Heq|Hcr]; [by simplify_eq|].
      apply elem_of_cons in Hcr as [Heq|Hcr].
      + injection Heq as <-. simpl. by rewrite lookup_insert_eq.
      + apply elem_of_cons in Hcr as [Heq|Hcr]; [by simplify_eq|].
        by apply elem_of_nil in Hcr. }
  destruct (reached_resolved _ _ _ _ _ _ _ _ _ _ _ _ _ _ Hrun' H1 H2 H3)
    as (evs & ev0 & p0 & post & Htr & HRes & HS & -> & Hev & Hp).
  unfold stored_customer in *. rewrite Hstored in *. split; [done|].
  destruct ev0 as [ev0|]; [|done]. destruct p0 as [p0|]; [|done].
  injection Hev as <-. injection Hp as <-.
  unfold validated in HS. rewrite Hid, Hs in HS.
  apply settled_charges in HS. apply resolved_issues_nothing in HRes as (Hi & _).
  rewrite Htr, !charges_issued_app, HS. unfold charges_issued at 2. by rewrite Hi.
Qed.

End Card_then_contribution.

(** The sample user sets a card, then contributes: the charge is made to
    the customer the gateway created. *)
Lemma created_customer_is_the_one_charged_witness :
  ∃ m m',
    run (boot (set_card Sample.alice Sample.new_card) empty_store)
      Scenario.customer_created = Some m ∧
    run (boot (Sample.contribute (JNum 25)) (store m))
      (Sample.lookups_answered Sample.rally) = Some m' ∧
    charges_issued (trace m') =
      [Service (ChargesCreate 2500 "usd" "cus_2"
         {| meta_eventIden := "E1"; meta_pacIden := "P1"; meta_support := true |})].
Proof.
  exists (after (set_card Sample.alice Sample.new_card) empty_store
            Scenario.customer_created),
    (after (Sample.contribute (JNum 25))
       (store (after (set_card Sample.alice Sample.new_card) empty_store
                 Scenario.customer_created))
       (Sample.lookups_answered Sample.rally)).
  split; [apply after_run; vm_compute; reflexivity|].
  split; [apply after_run; vm_compute; reflexivity|].
  apply (created_customer_is_the_one_charged Sample.not_numeric
    Sample.stringify_contribution Sample.alice Sample.new_card (Sample.pledge (JNum 25))
    "0.abc" "0.def" 2000000 empty_store Scenario.customer_created
    (after (set_card Sample.alice Sample.new_card) empty_store Scenario.customer_created)
    "cus_2" (Sample.lookups_answered Sample.rally) _ (PStr "cus_2") Sample.rally
    Sample.committee true).
  - apply after_run; vm_compute; reflexivity.
  - vm_compute. repeat constructor.
  - vm_compute; reflexivity.
  - reflexivity.
  - apply after_run; vm_compute; reflexivity.
  - vm_compute. repeat constructor.
  - vm_compute. repeat constructor.
  - vm_compute. repeat constructor.
  - reflexivity.
Defined.
